(** * findata_engine: a two-tier time-series store

    A shallow embedding of the write path and the query plane of
    findata_engine (memory_layer.cpp, disk_layer.cpp, storage_engine.cpp)
    and the properties of its specification that the code decides.

    Conventions of the embedding.
    - The platform is GCC's libstdc++ over glibc on Linux.
    - [std::chrono::system_clock::time_point] is its tick count, a signed
      64-bit integer: a [Z] between [TS_MIN] and [TS_MAX], the values of
      [time_point::min()] and [time_point::max()].  A tick is a
      nanosecond: the [duration_cast] to microseconds in front of the
      codec drops what is below a microsecond, and the conversion back
      multiplies by a thousand.
    - [double] is an IEEE-754 binary64 value ([spec_float]).
    - [size_t] is [Z] with the wrap-around at 2^64 written out.
    - [std::unordered_map] is [gmap]; iteration follows [map_to_list].
    - Exceptions are the [Throw] outcome; an operation of a layer returns
      its outcome together with the state it leaves behind.
    - The data directory is a map from file names to files: a symbol
      names its segment files inside the directory, which it does when it
      has no path separator and no zero character ([Disk.plain_symbol]).
    - Every operation is modelled as running alone.  The mutexes of the
      engine and of the memory buffer are never requested by a thread
      that holds them, and are erased.  The mutex of the disk layer is
      requested by functions that hold it; the module [DiskLocks]
      follows what the calling thread owns of it, and the functions of
      the module [Disk] are the ones in which every request is granted. *)

From Stdlib Require Import ZArith Ascii String.
From Stdlib.Floats Require Import SpecFloat.
From stdpp Require Import gmap strings list fin_maps sorting pretty.

Local Open Scope Z_scope.

(** ** Scalars *)

Definition double : Type := spec_float.

Definition double_zero : double := S754_zero false.

(** [static_cast<double>] of an unsigned integer, round to nearest even. *)
Definition double_of_size_t (n : Z) : double := binary_normalize 53 1024 n 0 false.

Definition double_div : double → double → double := SFdiv 53 1024.

Definition SIZE_MAX : Z := 2 ^ 64 - 1.

Definition size_t_wrap (z : Z) : Z := z mod 2 ^ 64.

(** [time_point::min()] and [time_point::max()]. *)
Definition TS_MIN : Z := - 2 ^ 63.
Definition TS_MAX : Z := 2 ^ 63 - 1.

(** A [time_point]: a tick count that fits a signed 64-bit integer. *)
Record time_point : Type := {
  ticks :> Z;
  ticks_in_range : bool_decide (TS_MIN ≤ ticks ≤ TS_MAX)
}.

(** The conversion of an integer to [int64_t], wrapping around. *)
Definition int64_wrap (z : Z) : Z := (z + 2 ^ 63) mod 2 ^ 64 - 2 ^ 63.

#[program] Definition time_point_of (z : Z) : time_point :=
  {| ticks := int64_wrap z |}.
Next Obligation.
  intros z. apply bool_decide_pack. unfold int64_wrap, TS_MIN, TS_MAX.
  pose proof (Z.mod_pos_bound (z + 2 ^ 63) (2 ^ 64)). lia.
Qed.

(** The ticks of a microsecond. *)
Definition ticks_per_microsecond : Z := 1000.

(** [duration_cast<microseconds>] of a tick count rounds towards zero. *)
Definition to_microseconds (t : Z) : Z := Z.quot t ticks_per_microsecond.

(** The conversion of a count of microseconds to ticks is a product
    formed in [int64_t]; where it does not fit, it wraps around. *)
Definition of_microseconds (us : Z) : Z := int64_wrap (us * ticks_per_microsecond).

(** What a timestamp is after the way to microseconds and back. *)
Definition microsecond_floor (t : Z) : Z := of_microseconds (to_microseconds t).

(** A tick count that is a whole number of microseconds. *)
Definition whole_microseconds (t : Z) : Prop := t `mod` ticks_per_microsecond = 0.

#[global] Instance whole_microseconds_dec t : Decision (whole_microseconds t).
Proof. unfold whole_microseconds. apply _. Defined.

(** ** types.hpp *)

Record TimeSeriesPoint : Type := {
  timestamp : time_point;
  value : double;
  symbol : string
}.

(** The comparator every sort, merge and search of the engine is called
    with: [a.timestamp < b.timestamp]. *)
Definition ts_lt (a b : TimeSeriesPoint) : Prop := timestamp a < timestamp b.
Definition ts_le (a b : TimeSeriesPoint) : Prop := timestamp a ≤ timestamp b.

#[global] Instance ts_lt_dec a b : Decision (ts_lt a b).
Proof. unfold ts_lt. apply _. Defined.
#[global] Instance ts_le_dec a b : Decision (ts_le a b).
Proof. unfold ts_le. apply _. Defined.
#[global] Instance ts_le_trans : Transitive ts_le.
Proof. intros a b c. unfold ts_le. lia. Qed.
#[global] Instance ts_lt_trans : Transitive ts_lt.
Proof. intros a b c. unfold ts_lt. lia. Qed.
#[global] Instance ts_le_total : Total ts_le.
Proof. intros a b. unfold ts_le. lia. Qed.

(** ** Outcomes *)

(** The exceptions the code throws or lets through, and [undefined] for the
    places where the language leaves the behaviour open (bytes read as
    something they are not) or the call has no outcome; no handler of the
    model catches the latter. *)
Inductive exception : Type :=
  | runtime_error (what : string)
  | invalid_argument (what : string)
  | out_of_range (what : string)
  | system_error (what : string)
  | undefined (what : string).

Definition is_std_exception (e : exception) : bool :=
  match e with undefined _ => false | _ => true end.

Inductive outcome (A : Type) : Type :=
  | Ret (a : A)
  | Throw (e : exception).
Arguments Ret {A} a.
Arguments Throw {A} e.

Definition returned {A} (o : outcome A) : bool :=
  match o with Ret _ => true | Throw _ => false end.

#[global] Instance outcome_ret : MRet outcome := λ A a, Ret a.
#[global] Instance outcome_bind : MBind outcome := λ A B f o,
  match o with Ret a => f a | Throw e => Throw e end.
#[global] Instance outcome_fmap : FMap outcome := λ A B f o,
  match o with Ret a => Ret (f a) | Throw e => Throw e end.

(** ** The standard algorithms the engine calls *)

(** [std::sort] with the timestamp comparator.  The standard fixes the
    result up to the order of points with equal timestamps, so the
    development is carried out for any function with that contract. *)
Class StdSort : Type := {
  sort_by_timestamp : list TimeSeriesPoint → list TimeSeriesPoint;
  sort_by_timestamp_perm : ∀ l, sort_by_timestamp l ≡ₚ l;
  sort_by_timestamp_sorted : ∀ l, StronglySorted ts_le (sort_by_timestamp l)
}.

(** One such function: the insertion sort that [std::sort] of libstdc++
    comes down to on the short ranges of the sample data.  It keeps
    points with equal timestamps in the order they came in. *)
Fixpoint insert_by_timestamp (x : TimeSeriesPoint) (l : list TimeSeriesPoint)
    : list TimeSeriesPoint :=
  match l with
  | [] => [x]
  | y :: l' =>
    if timestamp x <=? timestamp y then x :: l
    else y :: insert_by_timestamp x l'
  end.

Fixpoint insertion_sort (l : list TimeSeriesPoint) : list TimeSeriesPoint :=
  match l with
  | [] => []
  | x :: l' => insert_by_timestamp x (insertion_sort l')
  end.

#[global, program] Instance insertion_sort_StdSort : StdSort := {|
  sort_by_timestamp := insertion_sort
|}.
Next Obligation.
  assert (∀ x l, insert_by_timestamp x l ≡ₚ x :: l) as Hins.
  { intros x l. induction l as [|y l IH]; [done|]. simpl.
    destruct (timestamp x <=? timestamp y); [done|]. rewrite IH. apply Permutation_swap. }
  intros l. induction l as [|x l IH]; [done|]. simpl. by rewrite Hins, IH.
Qed.
Next Obligation.
  assert (∀ x l, insert_by_timestamp x l ≡ₚ x :: l) as Hperm.
  { intros x l. induction l as [|y l IH]; [done|]. simpl.
    destruct (timestamp x <=? timestamp y); [done|]. rewrite IH. apply Permutation_swap. }
  assert (∀ x l, StronglySorted ts_le l → StronglySorted ts_le (insert_by_timestamp x l))
    as Hins.
  { intros x l Hl. induction Hl as [|y l Hl IH Hy]; simpl.
    - repeat constructor.
    - destruct (Z.leb_spec (timestamp x) (timestamp y)) as [Hle|Hgt].
      + constructor; [by constructor|]. constructor; [done|].
        eapply Forall_impl; [exact Hy|]. intros z Hz. unfold ts_le in *. lia.
      + constructor; [done|]. rewrite Hperm. constructor; [|done].
        unfold ts_le. lia. }
  intros l. induction l as [|x l IH]; [constructor|]. simpl. by apply Hins.
Qed.

(** [std::lower_bound] on the range [first, first + len) of [v]: the
    search halves the remaining length; [fuel] bounds the iterations. *)
Fixpoint lower_bound_loop (fuel : nat) (v : list TimeSeriesPoint)
    (first len : nat) (t : Z) : nat :=
  match fuel with
  | O => first
  | S fuel' =>
    if (len =? 0)%nat then first
    else
      let half := Nat.div2 len in
      let middle := (first + half)%nat in
      match v !! middle with
      | Some x =>
        if timestamp x <? t
        then lower_bound_loop fuel' v (S middle) (len - half - 1)%nat t
        else lower_bound_loop fuel' v first half t
      | None => first
      end
  end.

Definition lower_bound (v : list TimeSeriesPoint) (first last : nat) (t : Z) : nat :=
  lower_bound_loop (last - first) v first (last - first) t.

(** [std::upper_bound], the same search with the comparison turned round. *)
Fixpoint upper_bound_loop (fuel : nat) (v : list TimeSeriesPoint)
    (first len : nat) (t : Z) : nat :=
  match fuel with
  | O => first
  | S fuel' =>
    if (len =? 0)%nat then first
    else
      let half := Nat.div2 len in
      let middle := (first + half)%nat in
      match v !! middle with
      | Some x =>
        if t <? timestamp x
        then upper_bound_loop fuel' v first half t
        else upper_bound_loop fuel' v (S middle) (len - half - 1)%nat t
      | None => first
      end
  end.

Definition upper_bound (v : list TimeSeriesPoint) (first last : nat) (t : Z) : nat :=
  upper_bound_loop (last - first) v first (last - first) t.

(** [std::merge]: an element of the second range goes first only when it
    is strictly smaller, so on equal timestamps the first range wins. *)
Fixpoint std_merge (l1 : list TimeSeriesPoint) : list TimeSeriesPoint → list TimeSeriesPoint :=
  fix inner (l2 : list TimeSeriesPoint) : list TimeSeriesPoint :=
    match l1, l2 with
    | [], _ => l2
    | _, [] => l1
    | a :: l1', b :: l2' =>
      if timestamp b <? timestamp a then b :: inner l2'
      else a :: std_merge l1' l2
    end.

(** [std::unique] followed by [erase]: of each run of equal timestamps the
    first point stays. *)
Fixpoint unique_after (kept : TimeSeriesPoint) (l : list TimeSeriesPoint)
    : list TimeSeriesPoint :=
  match l with
  | [] => []
  | x :: l' =>
    if timestamp kept =? timestamp x then unique_after kept l'
    else x :: unique_after x l'
  end.

Definition std_unique (l : list TimeSeriesPoint) : list TimeSeriesPoint :=
  match l with
  | [] => []
  | x :: l' => x :: unique_after x l'
  end.

(** Grouping a batch by symbol: [grouped_points[point.symbol].push_back(point)]. *)
Definition group_by_symbol (pts : list TimeSeriesPoint)
    : gmap string (list TimeSeriesPoint) :=
  foldl (λ g p, <[symbol p := default [] (g !! symbol p) ++ [p]]> g) ∅ pts.

(** ** memory_layer.cpp *)

Module Memory.

Record SymbolData : Type := {
  points : list TimeSeriesPoint;
  total_points : Z
}.

Record MemoryLayer : Type := {
  symbol_data : gmap string SymbolData;
  cache_size_mb : Z;
  total_points_ : Z
}.

Definition new_symbol_data : SymbolData := {| points := []; total_points := 0 |}.

Definition create (cache_mb : Z) : MemoryLayer :=
  {| symbol_data := ∅; cache_size_mb := cache_mb; total_points_ := 0 |}.

Definition get_or_create_symbol_data (m : MemoryLayer) (sym : string)
    : SymbolData * MemoryLayer :=
  match symbol_data m !! sym with
  | Some sd => (sd, m)
  | None =>
    (new_symbol_data,
     {| symbol_data := <[sym := new_symbol_data]> (symbol_data m);
        cache_size_mb := cache_size_mb m;
        total_points_ := total_points_ m |})
  end.

Definition store (m : MemoryLayer) (sym : string) (sd : SymbolData) (added : Z)
    : MemoryLayer :=
  {| symbol_data := <[sym := sd]> (symbol_data m);
     cache_size_mb := cache_size_mb m;
     total_points_ := size_t_wrap (total_points_ m + added) |}.

Definition insert (m : MemoryLayer) (point : TimeSeriesPoint) : bool * MemoryLayer :=
  let '(sd, m1) := get_or_create_symbol_data m (symbol point) in
  let v := points sd in
  let it := lower_bound v 0 (length v) (timestamp point) in
  let inserted :=
    (true,
     store m1 (symbol point)
       {| points := take it v ++ point :: drop it v;
          total_points := size_t_wrap (total_points sd + 1) |} 1) in
  match v !! it with
  | Some q => if timestamp q =? timestamp point then (false, m1) else inserted
  | None => inserted
  end.

Section WithSort.
Context `{StdSort}.

(** The body of the loop over the groups of a batch. *)
Definition insert_group (m : MemoryLayer) (g : string * list TimeSeriesPoint)
    : MemoryLayer :=
  let '(sd, m1) := get_or_create_symbol_data m g.1 in
  let sorted_points := sort_by_timestamp g.2 in
  let merged := std_unique (std_merge (points sd) sorted_points) in
  let new_points := size_t_wrap (Z.of_nat (length merged) - Z.of_nat (length (points sd))) in
  store m1 g.1
    {| points := merged;
       total_points := size_t_wrap (total_points sd + new_points) |} new_points.

Definition insert_batch (m : MemoryLayer) (pts : list TimeSeriesPoint)
    : bool * MemoryLayer :=
  match pts with
  | [] => (true, m)
  | _ => (true, foldl insert_group m (map_to_list (group_by_symbol pts)))
  end.

End WithSort.

Definition get_latest (m : MemoryLayer) (sym : string) : option TimeSeriesPoint :=
  match symbol_data m !! sym with
  | None => None
  | Some sd => last (points sd)
  end.

Definition get_range (m : MemoryLayer) (sym : string) (start end_ : Z)
    : list TimeSeriesPoint :=
  match symbol_data m !! sym with
  | None => []
  | Some sd =>
    let v := points sd in
    let start_it := lower_bound v 0 (length v) start in
    let end_it := upper_bound v start_it (length v) end_ in
    take (end_it - start_it) (drop start_it v)
  end.

Definition clear_cache (m : MemoryLayer) : MemoryLayer :=
  {| symbol_data := (λ _, new_symbol_data) <$> symbol_data m;
     cache_size_mb := cache_size_mb m;
     total_points_ := 0 |}.

Definition cache_size (m : MemoryLayer) : Z := total_points_ m.

Definition get_total_points (m : MemoryLayer) : Z := total_points_ m.

Definition get_symbols (m : MemoryLayer) : list string :=
  (map_to_list (symbol_data m)).*1.

(** The points buffered for a symbol, none when the symbol is unknown. *)
Definition buffered (m : MemoryLayer) (sym : string) : list TimeSeriesPoint :=
  match symbol_data m !! sym with
  | None => []
  | Some sd => points sd
  end.

End Memory.

(** ** Strings and paths *)

(** [std::string::npos]. *)
Definition npos : Z := SIZE_MAX.

Fixpoint find_from (c : ascii) (s : string) (i : nat) : option nat :=
  match s with
  | EmptyString => None
  | String a s' => if Ascii.eqb a c then Some i else find_from c s' (S i)
  end.

Fixpoint rfind_from (c : ascii) (s : string) (i : nat) : option nat :=
  match s with
  | EmptyString => None
  | String a s' =>
    match rfind_from c s' (S i) with
    | Some j => Some j
    | None => if Ascii.eqb a c then Some i else None
    end
  end.

(** [s.find(c)] and [s.rfind(c)]. *)
Definition string_find (s : string) (c : ascii) : Z :=
  match find_from c s 0 with Some i => Z.of_nat i | None => npos end.

Definition string_rfind (s : string) (c : ascii) : Z :=
  match rfind_from c s 0 with Some i => Z.of_nat i | None => npos end.

(** [s.substr(pos, n)]: throws when [pos] lies beyond the end, and stops at
    the end of the string otherwise. *)
Definition string_substr (s : string) (pos n : Z) : outcome string :=
  let size := Z.of_nat (String.length s) in
  if size <? pos then Throw (out_of_range "basic_string::substr")
  else Ret (String.substring (Z.to_nat pos) (Z.to_nat (Z.min n (size - pos))) s).

(** [path::extension] and [path::stem] of a file name: the extension starts
    at the rightmost period, unless that period opens the name or the name
    is dot or dot-dot. *)
Definition extension_start (name : string) : option nat :=
  if bool_decide (name = "." ∨ name = "..") then None
  else
    match rfind_from "."%char name 0 with
    | Some (S i) => Some (S i)
    | _ => None
    end.

Definition path_extension (name : string) : string :=
  match extension_start name with
  | Some i => String.substring i (String.length name - i) name
  | None => ""
  end.

Definition path_stem (name : string) : string :=
  match extension_start name with
  | Some i => String.substring 0 i name
  | None => name
  end.

Definition is_space (c : ascii) : bool :=
  let n := nat_of_ascii c in
  ((n =? 32) || ((9 <=? n) && (n <=? 13)))%nat.

Definition digit_value (c : ascii) : option Z :=
  let n := nat_of_ascii c in
  if ((48 <=? n) && (n <=? 57))%nat then Some (Z.of_nat n - 48) else None.

Fixpoint skip_spaces (s : string) : string :=
  match s with
  | String a s' => if is_space a then skip_spaces s' else s
  | EmptyString => s
  end.

(** The digits at the head of [s], read in base ten on top of [acc];
    [None] when [s] does not start with a digit. *)
Fixpoint read_digits (s : string) (acc : option Z) : option Z :=
  match s with
  | String a s' =>
    match digit_value a with
    | Some d => read_digits s' (Some (10 * default 0 acc + d))
    | None => acc
    end
  | EmptyString => acc
  end.

(** [std::stoll]: white space, an optional sign, then as many digits as
    there are; no digit is an [invalid_argument], a value outside
    [long long] an [out_of_range]. *)
Definition stoll (s : string) : outcome Z :=
  let s1 := skip_spaces s in
  let '(negative, s2) :=
    match s1 with
    | String "-"%char r => (true, r)
    | String "+"%char r => (false, r)
    | _ => (false, s1)
    end in
  match read_digits s2 None with
  | None => Throw (invalid_argument "stoll")
  | Some n =>
    let v := if negative then - n else n in
    if (TS_MIN <=? v) && (v <=? TS_MAX) then Ret v
    else Throw (out_of_range "stoll")
  end.

(** [std::to_string] of a [size_t]. *)
Definition to_string (n : Z) : string := pretty (Z.to_N n).

(** ** rust_bindings.hpp *)

(** [timestamp] is an [int64_t], a count of microseconds. *)
Record TimePoint : Type := {
  tp_timestamp : time_point;
  tp_value : double
}.

(** Modelled from the spec: [compress_time_series] and
    [decompress_time_series] are implemented outside the sources at hand;
    the interface section of the specification expects them to round-trip
    a batch losslessly, and that is all the engine relies on. *)
Class Codec : Type := {
  blob : Type;
  compress_time_series : list TimePoint → blob;
  decompress_time_series : blob → list TimePoint;
  blob_size : blob → Z;
  codec_round_trip : ∀ l, decompress_time_series (compress_time_series l) = l
}.

(** A codec that stores the batch as it is, sixteen bytes a point. *)
#[global, program] Instance plain_Codec : Codec := {|
  blob := list TimePoint;
  compress_time_series := λ l, l;
  decompress_time_series := λ b, b;
  blob_size := λ b, 16 * Z.of_nat (length b)
|}.
Next Obligation. reflexivity. Qed.

(** ** disk_layer.cpp *)

Module Disk.

Record DiskConfig : Type := {
  enable_compression : bool;
  batch_size : Z;
  max_segment_size_mb : Z
}.

Definition default_config : DiskConfig :=
  {| enable_compression := true; batch_size := 1000; max_segment_size_mb := 64 |}.

Record SegmentInfo : Type := {
  start_time : Z;
  end_time : Z;
  num_points : Z;
  file_path : string;
  compressed : bool
}.

(** Object sizes on an LP64 platform; they only enter the storage size. *)
Definition sizeof_TimeSeriesPoint : Z := 48.
Definition sizeof_SegmentInfo : Z := 64.
Definition sizeof_size_t : Z := 8.

(** The two conversions around the codec, in [write_segment] and in
    [read_segment]. *)
Definition to_TimePoint (p : TimeSeriesPoint) : TimePoint :=
  {| tp_timestamp := time_point_of (to_microseconds (timestamp p));
     tp_value := value p |}.

Definition of_TimePoint (sym : string) (tp : TimePoint) : TimeSeriesPoint :=
  {| timestamp := time_point_of (tp_timestamp tp * ticks_per_microsecond);
     value := tp_value tp; symbol := sym |}.

(** What [read_segment] makes of a point that [write_segment] wrote to a
    segment of [sym]. *)
Definition stored_form (sym : string) (p : TimeSeriesPoint) : TimeSeriesPoint :=
  of_TimePoint sym (to_TimePoint p).

(** A symbol that names files of the data directory itself: no path
    separator in it and no zero character, at which the name handed to
    the file system would end. *)
Definition plain_symbol (sym : string) : bool :=
  forallb (λ c : ascii, negb (Ascii.eqb c "/"%char) && negb (Ascii.eqb c Ascii.zero))
    (list_ascii_of_string sym).

Definition points_per_segment : nat := Z.to_nat 10000.
Arguments points_per_segment : simpl never.

Section WithCodec.
Context `{Codec}.

(** What follows the header of a segment file: the points themselves, or
    the bytes the codec made of them. *)
Inductive Payload : Type :=
  | Raw (pts : list TimeSeriesPoint)
  | Packed (b : blob).

Record SegmentFile : Type := {
  header : SegmentInfo;
  data_size : Z;
  data : Payload
}.

(** A file of the data directory is a segment written by [write_segment],
    or anything else, of which only the leading eight bytes and the size
    are ever looked at. *)
Inductive FileContent : Type :=
  | SegmentBytes (f : SegmentFile)
  | OtherBytes (leading_u64 : Z) (size : Z).

Record DirEntry : Type := {
  is_regular_file : bool;
  opens : bool;
  content : FileContent
}.

(** The layer together with the directory it owns.  [data_dir] maps the
    name of a file inside the data directory to the file; [creatable]
    tells for which names opening a file for writing succeeds. *)
Record DiskLayer : Type := {
  data_dir : gmap string DirEntry;
  creatable : string → bool;
  metadata : gmap string (gmap Z SegmentInfo);
  config : DiskConfig
}.

Definition with_data_dir (d : DiskLayer) (dir : gmap string DirEntry) : DiskLayer :=
  {| data_dir := dir; creatable := creatable d;
     metadata := metadata d; config := config d |}.

Definition with_metadata (d : DiskLayer) (md : gmap string (gmap Z SegmentInfo))
    : DiskLayer :=
  {| data_dir := data_dir d; creatable := creatable d;
     metadata := md; config := config d |}.

Definition content_size (c : FileContent) : Z :=
  match c with
  | SegmentBytes f => sizeof_SegmentInfo + sizeof_size_t + data_size f
  | OtherBytes _ size => size
  end.

(** The first eight bytes of a segment file are the [start_time] of its
    header. *)
Definition count_points_in_segment (e : DirEntry) : Z :=
  if opens e then
    match content e with
    | SegmentBytes f => size_t_wrap (start_time (header f))
    | OtherBytes leading _ => leading
    end
  else 0.

Definition scan_entry (md : gmap string (gmap Z SegmentInfo))
    (entry : string * DirEntry) : outcome (gmap string (gmap Z SegmentInfo)) :=
  let '(name, e) := entry in
  if negb (is_regular_file e) then Ret md
  else if negb (String.eqb (path_extension name) ".dat") then Ret md
  else
    let filename := path_stem name in
    let first_underscore := string_find filename "_" in
    let last_underscore := string_rfind filename "_" in
    if (first_underscore =? npos) || (last_underscore =? npos) then Ret md
    else
      sym ← string_substr filename 0 first_underscore;
      start_field ← string_substr filename (first_underscore + 1)
                      (size_t_wrap (last_underscore - first_underscore - 1));
      start ← stoll start_field;
      end_field ← string_substr filename (last_underscore + 1) npos;
      end_ ← stoll end_field;
      let info :=
        {| start_time := of_microseconds start;
           end_time := of_microseconds end_;
           num_points := count_points_in_segment e;
           file_path := name; compressed := false |} in
      Ret (<[sym := <[0 := info]> (default ∅ (md !! sym))]> md).

Fixpoint scan_entries (md : gmap string (gmap Z SegmentInfo))
    (entries : list (string * DirEntry)) : outcome (gmap string (gmap Z SegmentInfo)) :=
  match entries with
  | [] => Ret md
  | entry :: rest => md' ← scan_entry md entry; scan_entries md' rest
  end.

Definition load_existing_segments (dir : gmap string DirEntry)
    : outcome (gmap string (gmap Z SegmentInfo)) :=
  scan_entries ∅ (map_to_list dir).

(** The constructor: the index is what the scan of the directory finds. *)
Definition create (dir : gmap string DirEntry) (can_create : string → bool)
    (cfg : DiskConfig) : outcome DiskLayer :=
  md ← load_existing_segments dir;
  Ret {| data_dir := dir; creatable := can_create; metadata := md; config := cfg |}.

(** The name of a segment file inside the data directory.  Two names
    are two files as long as the symbols are plain: a path separator or
    a zero character in a symbol lets different names reach one file. *)
Definition segment_file_name (sym : string) (segment_id : Z) : string :=
  sym +:+ "_" +:+ to_string segment_id +:+ ".seg".

Definition write_segment (d : DiskLayer) (sym : string)
    (pts : list TimeSeriesPoint) (segment_id : Z) : outcome unit * DiskLayer :=
  match pts with
  | [] => (Ret (), d)
  | front :: _ =>
    let segment_file := segment_file_name sym segment_id in
    let '(payload, size) :=
      if enable_compression (config d)
      then let b := compress_time_series (to_TimePoint <$> pts) in
           (Packed b, blob_size b)
      else (Raw pts, Z.of_nat (length pts) * sizeof_TimeSeriesPoint) in
    if creatable d segment_file then
      let info :=
        {| start_time := timestamp front;
           end_time := timestamp (List.last pts front);
           num_points := Z.of_nat (length pts);
           file_path := segment_file;
           compressed := enable_compression (config d) |} in
      let file :=
        {| is_regular_file := true; opens := true;
           content := SegmentBytes {| header := info; data_size := size; data := payload |} |} in
      (Ret (),
       {| data_dir := <[segment_file := file]> (data_dir d);
          creatable := creatable d;
          metadata := <[sym := <[segment_id := info]> (default ∅ (metadata d !! sym))]> (metadata d);
          config := config d |})
    else
      (Throw (runtime_error ("Failed to create segment file: " +:+ segment_file)), d)
  end.

(** The points a payload yields when it is read the way [info] says.
    The uncompressed payload is the bytes of the [TimeSeriesPoint]
    objects, the [std::string] inside each of them included, and reading
    copies [num_points] objects out of those bytes: where there is one to
    copy, the behaviour is undefined. *)
Definition decode (sym : string) (info : SegmentInfo) (f : SegmentFile)
    : outcome (list TimeSeriesPoint) :=
  match compressed info, data f with
  | true, Packed b => Ret (of_TimePoint sym <$> decompress_time_series b)
  | false, Raw _ =>
    if num_points info =? 0 then Ret []
    else Throw (undefined "TimeSeriesPoint objects copied out of raw bytes")
  | _, _ => Throw (undefined "payload read in the other format")
  end.

Definition read_segment (d : DiskLayer) (sym : string) (segment_id : Z)
    : outcome (list TimeSeriesPoint) :=
  match metadata d !! sym with
  | None => Ret []
  | Some segs =>
    match segs !! segment_id with
    | None => Ret []
    | Some info =>
      match data_dir d !! file_path info with
      | Some e =>
        if opens e then
          match content e with
          | SegmentBytes f => decode sym info f
          | OtherBytes _ _ => Throw (undefined "not a segment file")
          end
        else Throw (runtime_error ("Failed to open segment file: " +:+ file_path info))
      | None => Throw (runtime_error ("Failed to open segment file: " +:+ file_path info))
      end
    end
  end.

(** Reading the listed segments in turn and keeping the points [keep]
    accepts. *)
Fixpoint read_segments (d : DiskLayer) (sym : string) (ids : list Z)
    (keep : TimeSeriesPoint → bool) : outcome (list TimeSeriesPoint) :=
  match ids with
  | [] => Ret []
  | segment_id :: rest =>
    pts ← read_segment d sym segment_id;
    more ← read_segments d sym rest keep;
    Ret (List.filter keep pts ++ more)
  end.

Definition relevant_segments (segs : gmap Z SegmentInfo) (start end_ : Z) : list Z :=
  (List.filter (λ s : Z * SegmentInfo,
      (start_time s.2 <=? end_) && (start <=? end_time s.2))
    (map_to_list segs)).*1.

Definition in_query (start end_ : Z) (p : TimeSeriesPoint) : bool :=
  (start <=? timestamp p) && (timestamp p <? end_).

Section WithSort.
Context `{StdSort}.

(** [range_query] and the calls of [read_segment] inside it ask for the
    shared lock only, which a thread that is not compacting is granted. *)
Definition range_query (d : DiskLayer) (sym : string) (start end_ : Z)
    : outcome (list TimeSeriesPoint) :=
  match metadata d !! sym with
  | None => Ret []
  | Some segs =>
    results ← read_segments d sym (relevant_segments segs start end_)
                (in_query start end_);
    Ret (sort_by_timestamp results)
  end.

Definition read_range := range_query.

(** [std::filesystem::remove] of a segment file, and the [clear()] of the
    segments of a symbol. *)
Definition remove_file (d : DiskLayer) (path : string) : DiskLayer :=
  with_data_dir d (delete path (data_dir d)).

Definition clear_segments (d : DiskLayer) (sym : string) : DiskLayer :=
  with_metadata d (<[sym := ∅]> (metadata d)).

(** One group of [write_batch]: sort, pick the next id, write. *)
Definition next_segment_id (d : DiskLayer) (sym : string) : Z :=
  match metadata d !! sym with
  | Some segs =>
    match (map_to_list segs).*1 with
    | [] => 0
    | k :: ks => size_t_wrap (foldr Z.max k ks + 1)
    end
  | None => 0
  end.

Definition write_group (d : DiskLayer) (g : string * list TimeSeriesPoint)
    : outcome unit * DiskLayer :=
  let sorted_points := sort_by_timestamp g.2 in
  write_segment d g.1 sorted_points (next_segment_id d g.1).

Fixpoint write_groups (d : DiskLayer) (groups : list (string * list TimeSeriesPoint))
    : outcome unit * DiskLayer :=
  match groups with
  | [] => (Ret (), d)
  | g :: rest =>
    match write_group d g with
    | (Ret _, d') => write_groups d' rest
    | (Throw e, d') => (Throw e, d')
    end
  end.

Definition write_batch (d : DiskLayer) (pts : list TimeSeriesPoint)
    : outcome bool * DiskLayer :=
  match pts with
  | [] => (Ret true, d)
  | _ =>
    match write_groups d (map_to_list (group_by_symbol pts)) with
    | (Ret _, d') => (Ret true, d')
    | (Throw e, d') => (Throw e, d')
    end
  end.

Definition commit_segment (d : DiskLayer) (sym : string) : bool := true.

End WithSort.

(** [std::filesystem::file_size(path, ec)]: the size, or all bits set when
    there is no such file. *)
Definition file_size (d : DiskLayer) (path : string) : Z :=
  match data_dir d !! path with
  | Some e => content_size (content e)
  | None => SIZE_MAX
  end.

Definition get_storage_size (d : DiskLayer) : Z :=
  foldr (λ (g : string * gmap Z SegmentInfo) total,
      foldr (λ (s : Z * SegmentInfo) total',
          size_t_wrap (total' + file_size d (file_path s.2)))
        total (map_to_list g.2))
    0 (map_to_list (metadata d)).

End WithCodec.

End Disk.

(** ** The mutex of the disk layer

    The layer guards its index with one [std::shared_mutex], and some of
    its functions request it while they hold it.  Here the functions of
    disk_layer.cpp are followed with what the calling thread owns of that
    mutex.  The standard leaves a request by the owner undefined; on the
    platform the mutex is a [pthread_rwlock_t], which grants the shared
    lock to a thread that has it shared, and refuses either lock to the
    thread that has it exclusive with [EDEADLK], of which libstdc++ makes
    a [std::system_error]. *)

Module DiskLocks.

Inductive Ownership : Type :=
  | NotOwned
  | OwnedShared
  | OwnedExclusive.

(** [resource_deadlock_would_occur], as [lock()] and [lock_shared()]
    throw it. *)
Definition deadlock_avoided : exception := system_error "Resource deadlock avoided".

(** The constructor of a [std::shared_lock] in a thread that owns [held]. *)
Definition lock_shared (held : Ownership) : outcome unit :=
  match held with
  | NotOwned | OwnedShared => Ret ()
  | OwnedExclusive => Throw deadlock_avoided
  end.

(** The constructor of a [std::unique_lock] in a thread that owns [held].
    A thread that holds the shared lock would wait for itself; the layer
    has no such request, and the case carries no outcome of the code. *)
Definition lock (held : Ownership) : outcome unit :=
  match held with
  | NotOwned => Ret ()
  | OwnedExclusive => Throw deadlock_avoided
  | OwnedShared => Throw (undefined "exclusive lock requested under the shared lock")
  end.

Section WithCodec.
Context `{Codec}.

(** [read_segment] takes the shared lock first. *)
Definition read_segment (held : Ownership) (d : Disk.DiskLayer) (sym : string)
    (segment_id : Z) : outcome (list TimeSeriesPoint) :=
  _ ← lock_shared held; Disk.read_segment d sym segment_id.

Fixpoint read_segments (held : Ownership) (d : Disk.DiskLayer) (sym : string)
    (ids : list Z) (keep : TimeSeriesPoint → bool) : outcome (list TimeSeriesPoint) :=
  match ids with
  | [] => Ret []
  | segment_id :: rest =>
    pts ← read_segment held d sym segment_id;
    more ← read_segments held d sym rest keep;
    Ret (List.filter keep pts ++ more)
  end.

(** [write_segment] writes the file and takes the exclusive lock only
    then, for the update of the index: if the lock is refused the file is
    there and the index does not know it. *)
Definition write_segment (held : Ownership) (d : Disk.DiskLayer) (sym : string)
    (pts : list TimeSeriesPoint) (segment_id : Z) : outcome unit * Disk.DiskLayer :=
  match pts with
  | [] => (Ret (), d)
  | _ =>
    match Disk.write_segment d sym pts segment_id with
    | (Ret _, d') =>
      match lock held with
      | Ret _ => (Ret (), d')
      | Throw e => (Throw e, Disk.with_data_dir d (Disk.data_dir d'))
      end
    | (Throw e, d') => (Throw e, d')
    end
  end.

Section WithSort.
Context `{StdSort}.

(** [range_query] holds the shared lock while it calls [read_segment]. *)
Definition range_query (held : Ownership) (d : Disk.DiskLayer) (sym : string)
    (start end_ : Z) : outcome (list TimeSeriesPoint) :=
  _ ← lock_shared held;
  match Disk.metadata d !! sym with
  | None => Ret []
  | Some segs =>
    results ← read_segments OwnedShared d sym (Disk.relevant_segments segs start end_)
                (Disk.in_query start end_);
    Ret (sort_by_timestamp results)
  end.

Definition read_range := range_query.

(** The loop that cuts [all_points] into segments, from index [i] on. *)
Fixpoint write_segments_from (held : Ownership) (fuel : nat) (d : Disk.DiskLayer)
    (sym : string) (all_points : list TimeSeriesPoint) (i : nat) (current_segment : Z)
    : outcome unit * Disk.DiskLayer :=
  match fuel with
  | O => (Ret (), d)
  | S fuel' =>
    if (length all_points <=? i)%nat then (Ret (), d)
    else
      let end_idx := Nat.min (i + Disk.points_per_segment) (length all_points) in
      let segment_points := take (end_idx - i) (drop i all_points) in
      match write_segment held d sym segment_points current_segment with
      | (Ret _, d') =>
        write_segments_from held fuel' d' sym all_points (i + Disk.points_per_segment)
          (size_t_wrap (current_segment + 1))
      | (Throw e, d') => (Throw e, d')
      end
  end.

(** The first loop of [optimize_segments]: read a segment, then unlink
    its file. *)
Fixpoint collect_and_remove (held : Ownership) (d : Disk.DiskLayer) (sym : string)
    (segs : list (Z * Disk.SegmentInfo)) (all_points : list TimeSeriesPoint)
    : outcome (list TimeSeriesPoint) * Disk.DiskLayer :=
  match segs with
  | [] => (Ret all_points, d)
  | s :: rest =>
    match read_segment held d sym s.1 with
    | Ret pts =>
      collect_and_remove held (Disk.remove_file d (Disk.file_path s.2)) sym rest
        (all_points ++ pts)
    | Throw e => (Throw e, d)
    end
  end.

(** [optimize_segments] holds the exclusive lock from its first line to
    its last, over its calls of [read_segment] and [write_segment]. *)
Definition optimize_segments (held : Ownership) (d : Disk.DiskLayer) (sym : string)
    : outcome unit * Disk.DiskLayer :=
  match lock held with
  | Throw e => (Throw e, d)
  | Ret _ =>
    match Disk.metadata d !! sym with
    | None => (Ret (), d)
    | Some segs =>
      match collect_and_remove OwnedExclusive d sym (map_to_list segs) [] with
      | (Throw e, d1) => (Throw e, d1)
      | (Ret [], d1) => (Ret (), d1)
      | (Ret all_points, d1) =>
        let sorted := sort_by_timestamp all_points in
        write_segments_from OwnedExclusive (length sorted) (Disk.clear_segments d1 sym)
          sym sorted 0 0
      end
    end
  end.

Definition compact_segments := optimize_segments.

(** A group of [write_batch]: the shared lock is taken for the choice of
    the id and released before [write_segment] is called. *)
Definition write_group (held : Ownership) (d : Disk.DiskLayer)
    (g : string * list TimeSeriesPoint) : outcome unit * Disk.DiskLayer :=
  let sorted_points := sort_by_timestamp g.2 in
  match lock_shared held with
  | Throw e => (Throw e, d)
  | Ret _ => write_segment held d g.1 sorted_points (Disk.next_segment_id d g.1)
  end.

Fixpoint write_groups (held : Ownership) (d : Disk.DiskLayer)
    (groups : list (string * list TimeSeriesPoint)) : outcome unit * Disk.DiskLayer :=
  match groups with
  | [] => (Ret (), d)
  | g :: rest =>
    match write_group held d g with
    | (Ret _, d') => write_groups held d' rest
    | (Throw e, d') => (Throw e, d')
    end
  end.

Definition write_batch (held : Ownership) (d : Disk.DiskLayer)
    (pts : list TimeSeriesPoint) : outcome bool * Disk.DiskLayer :=
  match pts with
  | [] => (Ret true, d)
  | _ =>
    match write_groups held d (map_to_list (group_by_symbol pts)) with
    | (Ret _, d') => (Ret true, d')
    | (Throw e, d') => (Throw e, d')
    end
  end.

(** The [try] block of [optimize_index] for one symbol: the exclusive
    lock is taken first and held to the end of the block. *)
Definition optimize_symbol (held : Ownership) (d : Disk.DiskLayer) (sym : string)
    : outcome unit * Disk.DiskLayer :=
  match lock held with
  | Throw e => (Throw e, d)
  | Ret _ =>
    match Disk.metadata d !! sym with
    | None => (Ret (), d)
    | Some segs =>
      match read_segments OwnedExclusive d sym (map_to_list segs).*1 (λ _, true) with
      | Throw e => (Throw e, d)
      | Ret [] => (Ret (), d)
      | Ret all_points =>
        let deduplicated := std_unique (sort_by_timestamp all_points) in
        let d1 := foldl (λ d' s, Disk.remove_file d' (Disk.file_path s.2)) d
                    (map_to_list segs) in
        write_segments_from OwnedExclusive (length deduplicated)
          (Disk.clear_segments d1 sym) sym deduplicated 0 0
      end
    end
  end.

(** The loop of [optimize_index]: what a symbol throws is caught as a
    [std::exception] and logged, and the loop goes on with the next. *)
Fixpoint optimize_symbols (held : Ownership) (d : Disk.DiskLayer) (symbols : list string)
    : outcome unit * Disk.DiskLayer :=
  match symbols with
  | [] => (Ret (), d)
  | sym :: rest =>
    match optimize_symbol held d sym with
    | (Ret _, d') => optimize_symbols held d' rest
    | (Throw e, d') =>
      if is_std_exception e then optimize_symbols held d' rest else (Throw e, d')
    end
  end.

(** [optimize_index]: the shared lock for the list of the symbols,
    released before the loop. *)
Definition optimize_index (held : Ownership) (d : Disk.DiskLayer)
    : outcome unit * Disk.DiskLayer :=
  match lock_shared held with
  | Throw e => (Throw e, d)
  | Ret _ => optimize_symbols held d (map_to_list (Disk.metadata d)).*1
  end.

End WithSort.

(** The index has a segment for the symbol. *)
Definition has_segments (d : Disk.DiskLayer) (sym : string) : bool :=
  match Disk.metadata d !! sym with
  | Some segs => negb (bool_decide (segs = ∅))
  | None => false
  end.

End WithCodec.

End DiskLocks.

(** ** storage_engine.cpp *)

Module Stats.

Record EngineStats : Type := {
  total_points : Z;
  cache_hits : Z;
  cache_misses : Z;
  cache_hit_ratio : double;
  storage_size_bytes : Z
}.

End Stats.

Module Engine.

Record DiskLayerConfig : Type := {
  disk_cache_size_mb : Z;
  max_disk_segment_size_mb : Z
}.

Record EngineConfig : Type := {
  memory_cache_size_mb : Z;
  enable_compression : bool;
  batch_size : Z;
  max_segment_size_mb : Z;
  max_memory_points : Z;
  disk_config : DiskLayerConfig
}.

Section WithCodec.
Context `{Codec}.

Record StorageEngine : Type := {
  config : EngineConfig;
  memory_layer : Memory.MemoryLayer;
  disk_layer : Disk.DiskLayer;
  total_points : Z;
  cache_hits : Z;
  cache_misses : Z
}.

Definition with_memory (e : StorageEngine) (m : Memory.MemoryLayer) : StorageEngine :=
  {| config := config e; memory_layer := m; disk_layer := disk_layer e;
     total_points := total_points e;
     cache_hits := cache_hits e; cache_misses := cache_misses e |}.

Definition with_disk (e : StorageEngine) (d : Disk.DiskLayer) : StorageEngine :=
  {| config := config e; memory_layer := memory_layer e; disk_layer := d;
     total_points := total_points e;
     cache_hits := cache_hits e; cache_misses := cache_misses e |}.

Definition count (e : StorageEngine) (n : Z) : StorageEngine :=
  {| config := config e; memory_layer := memory_layer e;
     disk_layer := disk_layer e;
     total_points := size_t_wrap (total_points e + n);
     cache_hits := cache_hits e; cache_misses := cache_misses e |}.

(** The constructor, over the data directory as it is found.  The disk
    layer is built with its default configuration. *)
Definition create (cfg : EngineConfig) (dir : gmap string Disk.DirEntry)
    (can_create : string → bool) : outcome StorageEngine :=
  d ← Disk.create dir can_create Disk.default_config;
  Ret {| config := cfg;
         memory_layer := Memory.create (memory_cache_size_mb cfg);
         disk_layer := d;
         total_points := 0; cache_hits := 0; cache_misses := 0 |}.

Section WithSort.
Context `{StdSort}.

Definition points_to_flush (m : Memory.MemoryLayer) : list TimeSeriesPoint :=
  mjoin ((λ sym, Memory.get_range m sym TS_MIN TS_MAX) <$> Memory.get_symbols m).

Definition flush (e : StorageEngine) : outcome bool * StorageEngine :=
  match points_to_flush (memory_layer e) with
  | [] => (Ret true, e)
  | pts =>
    match Disk.write_batch (disk_layer e) pts with
    | (Ret success, d') =>
      if success
      then (Ret true, with_memory (with_disk e d') (Memory.clear_cache (memory_layer e)))
      else (Ret false, with_disk e d')
    | (Throw x, d') => (Throw x, with_disk e d')
    end
  end.

Definition write_point (e : StorageEngine) (point : TimeSeriesPoint)
    : outcome bool * StorageEngine :=
  match Memory.insert (memory_layer e) point with
  | (false, m') => (Ret false, with_memory e m')
  | (true, m') =>
    let needs_flush := max_memory_points (config e) <=? Memory.cache_size m' in
    let e' := count (with_memory e m') 1 in
    if needs_flush then flush e' else (Ret true, e')
  end.

Definition write_batch (e : StorageEngine) (pts : list TimeSeriesPoint)
    : outcome bool * StorageEngine :=
  match pts with
  | [] => (Ret true, e)
  | _ =>
    match Memory.insert_batch (memory_layer e) pts with
    | (false, m') => (Ret false, with_memory e m')
    | (true, m') =>
      let needs_flush := max_memory_points (config e) <=? Memory.cache_size m' in
      let e' := count (with_memory e m') (Z.of_nat (length pts)) in
      if needs_flush then flush e' else (Ret true, e')
    end
  end.

Definition read_range (e : StorageEngine) (sym : string) (start end_ : Z)
    : outcome (list TimeSeriesPoint) :=
  let memory_points := Memory.get_range (memory_layer e) sym start end_ in
  disk_points ← Disk.read_range (disk_layer e) sym start end_;
  Ret (sort_by_timestamp (memory_points ++ disk_points)).

Definition get_latest (e : StorageEngine) (sym : string)
    : outcome (option TimeSeriesPoint) :=
  match Memory.get_latest (memory_layer e) sym with
  | Some point => Ret (Some point)
  | None =>
    disk_points ← Disk.read_range (disk_layer e) sym TS_MIN TS_MAX;
    Ret (last disk_points)
  end.

Definition get_symbols (e : StorageEngine) : list string :=
  Memory.get_symbols (memory_layer e).

Definition optimize (e : StorageEngine) : outcome unit * StorageEngine :=
  match flush e with
  | (Ret _, e') =>
    match DiskLocks.optimize_index DiskLocks.NotOwned (disk_layer e') with
    | (r, d') => (r, with_disk e' d')
    end
  | (Throw x, e') => (Throw x, e')
  end.

End WithSort.

Definition get_cache_hit_ratio (e : StorageEngine) : double :=
  let total_hits := cache_hits e in
  let total_misses := cache_misses e in
  let total_requests := size_t_wrap (total_hits + total_misses) in
  if 0 <? total_requests
  then double_div (double_of_size_t total_hits) (double_of_size_t total_requests)
  else double_zero.

Definition get_total_points (e : StorageEngine) : Z := total_points e.

Definition get_storage_size (e : StorageEngine) : Z :=
  Disk.get_storage_size (disk_layer e).

Definition get_stats (e : StorageEngine) : Stats.EngineStats :=
  {| Stats.total_points := get_total_points e;
     Stats.cache_hits := cache_hits e;
     Stats.cache_misses := cache_misses e;
     Stats.cache_hit_ratio := get_cache_hit_ratio e;
     Stats.storage_size_bytes := get_storage_size e |}.

(** The calls of the public interface, and the state a call leaves behind
    whether it returns or throws. *)
Inductive Call : Type :=
  | call_write_point (point : TimeSeriesPoint)
  | call_write_batch (pts : list TimeSeriesPoint)
  | call_flush
  | call_read_range (sym : string) (start end_ : Z)
  | call_get_latest (sym : string)
  | call_get_symbols
  | call_optimize
  | call_get_stats.

Section WithSort.
Context `{StdSort}.

Definition perform (e : StorageEngine) (c : Call) : StorageEngine :=
  match c with
  | call_write_point point => (write_point e point).2
  | call_write_batch pts => (write_batch e pts).2
  | call_flush => (flush e).2
  | call_optimize => (optimize e).2
  | call_read_range _ _ _ | call_get_latest _ | call_get_symbols
  | call_get_stats => e
  end.

Definition run (e : StorageEngine) (calls : list Call) : StorageEngine :=
  foldl perform e calls.

End WithSort.

End WithCodec.

End Engine.

(** ** Predicates of the specification *)

(** Invariant M1 speaks of sequences that grow strictly in timestamp; the
    result of a sort only never falls. *)
Definition strictly_increasing (l : list TimeSeriesPoint) : Prop :=
  StronglySorted ts_lt l.

Definition nondecreasing (l : list TimeSeriesPoint) : Prop :=
  StronglySorted ts_le l.

(** Invariant M2: a point filed under a symbol carries it. *)
Definition has_symbol (sym : string) (p : TimeSeriesPoint) : Prop := symbol p = sym.

#[global] Instance has_symbol_dec sym p : Decision (has_symbol sym p).
Proof. unfold has_symbol. apply _. Defined.

Module MemoryInvariant.

(** M1 and M2 for every sequence of the buffer. *)
Definition well_formed (m : Memory.MemoryLayer) : Prop :=
  ∀ sym sd, Memory.symbol_data m !! sym = Some sd →
    strictly_increasing (Memory.points sd) ∧
    Forall (has_symbol sym) (Memory.points sd).

(** The mutating calls of the buffer. *)
Inductive Call : Type :=
  | call_insert (point : TimeSeriesPoint)
  | call_insert_batch (pts : list TimeSeriesPoint)
  | call_clear_cache.

Definition perform `{StdSort} (m : Memory.MemoryLayer) (c : Call) : Memory.MemoryLayer :=
  match c with
  | call_insert point => (Memory.insert m point).2
  | call_insert_batch pts => (Memory.insert_batch m pts).2
  | call_clear_cache => Memory.clear_cache m
  end.

Definition run `{StdSort} (m : Memory.MemoryLayer) (calls : list Call)
    : Memory.MemoryLayer :=
  foldl perform m calls.

End MemoryInvariant.

(** The sequence a group of a batch leaves behind: the group is sorted,
    merged into what was there, and deduplicated. *)
Definition merged_with `{StdSort} (old own : list TimeSeriesPoint)
    : list TimeSeriesPoint :=
  std_unique (std_merge old (sort_by_timestamp own)).

(** ** Sample data *)

Module Sample.

(** A point of [sym] stamped [t] ticks, with the value [v]. *)
Definition point_at (sym : string) (t : Z) (v : Z) : TimeSeriesPoint :=
  {| timestamp := time_point_of t; value := double_of_size_t v; symbol := sym |}.

(** A point of [sym] stamped [t] microseconds. *)
Definition point (sym : string) (t : Z) (v : Z) : TimeSeriesPoint :=
  point_at sym (t * ticks_per_microsecond) v.

(** A small history of the memory buffer: a batch out of order with a
    repeated timestamp, then two single inserts, one of them a duplicate. *)
Definition memory_calls : list MemoryInvariant.Call :=
  [ MemoryInvariant.call_insert_batch
      [point "AAPL" 5 1; point "GOOG" 2 2; point "AAPL" 3 3; point "AAPL" 5 4];
    MemoryInvariant.call_insert (point "AAPL" 4 5);
    MemoryInvariant.call_insert (point "AAPL" 3 6) ].

End Sample.

Module EngineInvariant.

(** The buffer of the engine holds no point at all. *)
Definition memory_empty `{Codec} (e : Engine.StorageEngine) : Prop :=
  ∀ sym, Memory.buffered (Engine.memory_layer e) sym = [].

(** What [flush] hands to the segment store, and what the store answers. *)
Definition flush_write `{Codec} `{StdSort} (e : Engine.StorageEngine)
    : outcome bool * Disk.DiskLayer :=
  Disk.write_batch (Engine.disk_layer e)
    (Engine.points_to_flush (Engine.memory_layer e)).

End EngineInvariant.

Module SampleEngine.

Definition config : Engine.EngineConfig :=
  {| Engine.memory_cache_size_mb := 64;
     Engine.enable_compression := true;
     Engine.batch_size := 1000;
     Engine.max_segment_size_mb := 16;
     Engine.max_memory_points := 1000000;
     Engine.disk_config :=
       {| Engine.disk_cache_size_mb := 0; Engine.max_disk_segment_size_mb := 0 |} |}.

(** The engine right after construction over an empty data directory. *)
Definition fresh (can_create : string → bool) : Engine.StorageEngine :=
  {| Engine.config := config;
     Engine.memory_layer := Memory.create 64;
     Engine.disk_layer :=
       {| Disk.data_dir := ∅; Disk.creatable := can_create;
          Disk.metadata := ∅; Disk.config := Disk.default_config |};
     Engine.total_points := 0; Engine.cache_hits := 0; Engine.cache_misses := 0 |}.

Definition read_only : string → bool := λ _, false.
Definition writable : string → bool := λ _, true.

(** An engine with one point in memory over a directory in which no file
    can be created. *)
Definition stuck : Engine.StorageEngine :=
  (Engine.write_point (fresh read_only) (Sample.point "AAPL" 7 1)).2.

(** An engine with three points for one symbol in memory. *)
Definition loaded : Engine.StorageEngine :=
  (Engine.write_batch (fresh writable)
     [Sample.point "AAPL" 5 1; Sample.point "AAPL" 3 3; Sample.point "GOOG" 4 2]).2.

End SampleEngine.

Module SampleCalls.

(** A short session of the engine. *)
Definition session `{Codec} : list Engine.Call :=
  [ Engine.call_write_batch
      [Sample.point "AAPL" 5 1; Sample.point "AAPL" 3 3; Sample.point "GOOG" 4 2];
    Engine.call_read_range "AAPL" 0 10;
    Engine.call_flush;
    Engine.call_write_point (Sample.point "AAPL" 3 8);
    Engine.call_get_latest "AAPL";
    Engine.call_optimize;
    Engine.call_get_stats ].

End SampleCalls.

Module SampleDisk.

Definition empty (can_create : string → bool) : Disk.DiskLayer :=
  {| Disk.data_dir := ∅; Disk.creatable := can_create;
     Disk.metadata := ∅; Disk.config := Disk.default_config |}.

(** Two batches for one symbol that share a timestamp, 5 microseconds: the store
    holds them as segments 0 and 1. *)
Definition duplicated : Disk.DiskLayer :=
  (Disk.write_batch
     (Disk.write_batch (empty SampleEngine.writable)
        [Sample.point "AAPL" 5 1; Sample.point "AAPL" 9 3]).2
     [Sample.point "AAPL" 5 2]).2.

(** A regular file of eight zero bytes. *)
Definition dat_file : Disk.DirEntry :=
  {| Disk.is_regular_file := true; Disk.opens := true;
     Disk.content := Disk.OtherBytes 0 8 |}.

(** A data directory with one file whose name has the three fields of a
    segment name but letters where the timestamps should be. *)
Definition letters_directory : gmap string Disk.DirEntry :=
  {[ "AAPL_abc_def.dat" := dat_file ]}.

(** A data directory with one file whose name has two fields only. *)
Definition two_field_directory : gmap string Disk.DirEntry :=
  {[ "AAPL_12.dat" := dat_file ]}.

End SampleDisk.

Module DiskInvariant.

Section WithCodec.
Context `{Codec}.

(** The points of a segment, when it can be read. *)
Definition segment_points (d : Disk.DiskLayer) (sym : string) (segment_id : Z)
    : list TimeSeriesPoint :=
  match Disk.read_segment d sym segment_id with
  | Ret pts => pts
  | Throw _ => []
  end.

Definition in_segment_bounds (info : Disk.SegmentInfo) (p : TimeSeriesPoint) : Prop :=
  Disk.start_time info ≤ timestamp p ≤ Disk.end_time info.

(** What the segment attributes of the data model promise for the
    segments of one symbol: every indexed segment can be read, and
    [start_time] and [end_time] bound the timestamps of its points. *)
Definition readable (d : Disk.DiskLayer) (sym : string) : Prop :=
  ∀ segs segment_id info,
    Disk.metadata d !! sym = Some segs → segs !! segment_id = Some info →
    ∃ pts, Disk.read_segment d sym segment_id = Ret pts ∧
           Forall (in_segment_bounds info) pts.

End WithCodec.

End DiskInvariant.

Module DiskSoundness.

Section WithCodec.
Context `{Codec}.

(** Invariant S1 and the naming of segment files for one indexed segment:
    the file is the one [write_segment] names after the symbol and the
    id, it reads back as a non-empty sorted run of points of the symbol,
    and the recorded bounds enclose the run. *)
Definition segment_sound (d : Disk.DiskLayer) (sym : string) (segment_id : Z)
    (info : Disk.SegmentInfo) : Prop :=
  Disk.file_path info = Disk.segment_file_name sym segment_id ∧
  0 ≤ segment_id ∧
  ∃ pts, Disk.read_segment d sym segment_id = Ret pts ∧
         pts ≠ [] ∧
         Forall (has_symbol sym) pts ∧
         nondecreasing pts ∧
         Forall (DiskInvariant.in_segment_bounds info) pts.

(** The index has [info] for segment [segment_id] of [sym]. *)
Definition indexed (d : Disk.DiskLayer) (sym : string) (segment_id : Z)
    (info : Disk.SegmentInfo) : Prop :=
  ∃ segs, Disk.metadata d !! sym = Some segs ∧ segs !! segment_id = Some info.

Definition sound (d : Disk.DiskLayer) : Prop :=
  ∀ sym segment_id info,
    indexed d sym segment_id info → segment_sound d sym segment_id info.

(** The points the index reaches for a symbol, as a list. *)
Definition stored (d : Disk.DiskLayer) (sym : string) : list TimeSeriesPoint :=
  match Disk.metadata d !! sym with
  | Some segs => mjoin (DiskInvariant.segment_points d sym <$> (map_to_list segs).*1)
  | None => []
  end.

(** The points a segment takes and gives back as they are: the layer
    compresses, and the timestamps are whole microseconds. *)
Definition kept_as_written (d : Disk.DiskLayer) (pts : list TimeSeriesPoint) : Prop :=
  Disk.enable_compression (Disk.config d) = true ∧
  Forall (λ q, whole_microseconds (timestamp q)) pts.

End WithCodec.

End DiskSoundness.

Module DiskFresh.

(** The id [write_batch] picks for a symbol is not in use.  It is in use
    only after the ids of the symbol have run through all of [size_t]. *)
Definition fresh_id `{Codec} `{StdSort} (d : Disk.DiskLayer) (sym : string) : Prop :=
  default ∅ (Disk.metadata d !! sym) !! Disk.next_segment_id d sym = None.

End DiskFresh.

Module SampleRoundTrip.

(** A batch for two symbols, out of order and with one timestamp twice. *)
Definition batch : list TimeSeriesPoint :=
  [Sample.point "AAPL" 5 1; Sample.point "GOOG" 4 2;
   Sample.point "AAPL" 3 3; Sample.point "AAPL" 5 4].

Definition written : Engine.StorageEngine :=
  (Engine.write_batch (SampleEngine.fresh SampleEngine.writable) batch).2.

Definition flushed : Engine.StorageEngine := (Engine.flush written).2.





(** The store after one batch. *)
Definition once_batch : list TimeSeriesPoint :=
  [Sample.point "AAPL" 5 1; Sample.point "AAPL" 9 3; Sample.point "GOOG" 4 2].

Definition once : Disk.DiskLayer :=
  (Disk.write_batch (SampleDisk.empty SampleEngine.writable) once_batch).2.

End SampleRoundTrip.

Module DiskFiles.

(** Every file the layer may want to write can be created. *)
Definition all_creatable `{Codec} (d : Disk.DiskLayer) : Prop :=
  ∀ name, Disk.creatable d name = true.

(** The symbols of the index and of a batch name files of the data
    directory. *)
Definition plain_symbols `{Codec} (d : Disk.DiskLayer) (pts : list TimeSeriesPoint)
    : Prop :=
  (∀ sym, is_Some (Disk.metadata d !! sym) → Disk.plain_symbol sym = true) ∧
  Forall (λ p, Disk.plain_symbol (symbol p) = true) pts.

End DiskFiles.

Module MemoryCount.

(** The number of points in the sequences of the buffer, over all
    symbols. *)
Definition count_points (l : list (string * Memory.SymbolData)) : Z :=
  foldr (λ e total, Z.of_nat (length (Memory.points e.2)) + total) 0 l.

Definition points_held (m : Memory.MemoryLayer) : Z :=
  count_points (map_to_list (Memory.symbol_data m)).

(** The counter [total_points_] agrees with what the buffer holds. *)
Definition counted (m : Memory.MemoryLayer) : Prop :=
  Memory.total_points_ m = size_t_wrap (points_held m).

End MemoryCount.

Module Recovery.

(** The directory holds nothing but files named the way [write_segment]
    names them. *)
Definition only_segment_files `{Codec} (dir : gmap string Disk.DirEntry) : Prop :=
  ∀ name, is_Some (dir !! name) →
    ∃ sym segment_id, name = Disk.segment_file_name sym segment_id.

(** What the scan makes of an entry it indexes. *)
Definition scanned_from `{Codec} (dir : gmap string Disk.DirEntry)
    (segs : gmap Z Disk.SegmentInfo) : Prop :=
  ∃ info e,
    segs = {[ 0 := info ]} ∧
    dir !! Disk.file_path info = Some e ∧
    Disk.is_regular_file e = true ∧
    path_extension (Disk.file_path info) = ".dat" ∧
    Disk.num_points info = Disk.count_points_in_segment e ∧
    Disk.compressed info = false.

End Recovery.

Module EngineSymbols.

(** The call hands a point of the symbol to the engine. *)
Definition offers `{Codec} (c : Engine.Call) (sym : string) : Prop :=
  match c with
  | Engine.call_write_point p => symbol p = sym
  | Engine.call_write_batch pts => ∃ p, p ∈ pts ∧ symbol p = sym
  | _ => False
  end.

(** The buffer is under the limit of the configuration, or empty. *)
Definition below_limit `{Codec} (e : Engine.StorageEngine) : Prop :=
  Memory.cache_size (Engine.memory_layer e) < Engine.max_memory_points (Engine.config e) ∨
  (Memory.cache_size (Engine.memory_layer e) = 0 ∧ EngineInvariant.memory_empty e).

End EngineSymbols.

Module SampleTiers.

(** An engine with a flushed batch on disk and one later point in the
    buffer. *)
Definition both : Engine.StorageEngine :=
  (Engine.write_point SampleRoundTrip.flushed (Sample.point "AAPL" 9 7)).2.

(** The first of the two batches of [SampleDisk.duplicated]. *)
Definition first_batch : Disk.DiskLayer :=
  (Disk.write_batch (SampleDisk.empty SampleEngine.writable)
     [Sample.point "AAPL" 5 1; Sample.point "AAPL" 9 3]).2.

End SampleTiers.

Module SampleConfig.

(** A configuration that asks for no compression. *)
Definition uncompressed : Engine.EngineConfig :=
  {| Engine.memory_cache_size_mb := 64;
     Engine.enable_compression := false;
     Engine.batch_size := 10;
     Engine.max_segment_size_mb := 1;
     Engine.max_memory_points := 1000000;
     Engine.disk_config :=
       {| Engine.disk_cache_size_mb := 0; Engine.max_disk_segment_size_mb := 0 |} |}.

End SampleConfig.

(** * Properties *)

(** ** Sorted sequences and the binary searches *)

Lemma time_point_bounds (t : time_point) : TS_MIN ≤ t ≤ TS_MAX.
Proof. exact (bool_decide_unpack _ (ticks_in_range t)). Qed.

Lemma time_point_eq (a b : time_point) : a =@{Z} b → a = b.
Proof.
  destruct a as [a Ha], b as [b Hb]. simpl. intros ->. f_equal. apply proof_irrel.
Qed.

Lemma int64_wrap_in_range z : TS_MIN ≤ z ≤ TS_MAX → int64_wrap z = z.
Proof.
  unfold int64_wrap, TS_MIN, TS_MAX. intros Hz.
  rewrite Z.mod_small by lia. lia.
Qed.

(** Quotient and remainder of a tick count by the ticks of a
    microsecond, rounding towards zero. *)
Lemma quot_rem_microsecond t :
  t = ticks_per_microsecond * Z.quot t ticks_per_microsecond
      + Z.rem t ticks_per_microsecond ∧
  (0 ≤ t → 0 ≤ Z.rem t ticks_per_microsecond < ticks_per_microsecond ∧
           0 ≤ Z.quot t ticks_per_microsecond) ∧
  (t ≤ 0 → - ticks_per_microsecond < Z.rem t ticks_per_microsecond ≤ 0 ∧
           Z.quot t ticks_per_microsecond ≤ 0).
Proof.
  unfold ticks_per_microsecond.
  split; [apply Z.quot_rem'|]. split.
  - intros Hpos. split; [apply Z.rem_bound_pos; lia|apply Z.quot_pos; lia].
  - intros Hneg.
    pose proof (Z.rem_opp_l' t 1000) as H1.
    pose proof (Z.quot_opp_l t 1000 ltac:(lia)) as H2.
    pose proof (Z.rem_bound_pos (- t) 1000 ltac:(lia) ltac:(lia)).
    pose proof (Z.quot_pos (- t) 1000 ltac:(lia) ltac:(lia)). lia.
Qed.

(** The way to microseconds and back stays between zero and the tick
    count it started from. *)
Lemma microsecond_floor_quot t :
  TS_MIN ≤ t ≤ TS_MAX →
  microsecond_floor t = t - Z.rem t ticks_per_microsecond.
Proof.
  intros Ht. unfold microsecond_floor, of_microseconds, to_microseconds.
  destruct (quot_rem_microsecond t) as (Hqr & Hpos & Hneg).
  unfold ticks_per_microsecond, TS_MIN, TS_MAX in *.
  set (q := Z.quot t 1000) in *. set (r := Z.rem t 1000) in *.
  assert (- 2 ^ 63 ≤ q * 1000 ≤ 2 ^ 63 - 1) as Hrange.
  { destruct (decide (0 ≤ t)) as [H0|H0];
      [specialize (Hpos H0)|specialize (Hneg ltac:(lia))]; lia. }
  rewrite int64_wrap_in_range by (unfold TS_MIN, TS_MAX; lia). lia.
Qed.

Lemma whole_microseconds_rem t :
  whole_microseconds t ↔ Z.rem t ticks_per_microsecond = 0.
Proof.
  unfold whole_microseconds. rewrite Z.rem_divide by done.
  by rewrite Z.mod_divide by done.
Qed.

Lemma microsecond_floor_whole t :
  TS_MIN ≤ t ≤ TS_MAX → whole_microseconds t → microsecond_floor t = t.
Proof.
  intros Ht Hw. rewrite microsecond_floor_quot by done.
  apply whole_microseconds_rem in Hw. lia.
Qed.

Lemma to_microseconds_bounds t :
  TS_MIN ≤ t ≤ TS_MAX → TS_MIN ≤ to_microseconds t ≤ TS_MAX.
Proof.
  intros Ht. unfold to_microseconds.
  destruct (quot_rem_microsecond t) as (Hqr & Hpos & Hneg).
  unfold ticks_per_microsecond, TS_MIN, TS_MAX in *.
  set (q := Z.quot t 1000) in *. set (r := Z.rem t 1000) in *.
  destruct (decide (0 ≤ t)) as [H0|H0];
    [specialize (Hpos H0)|specialize (Hneg ltac:(lia))]; lia.
Qed.

Lemma strictly_increasing_nondecreasing l :
  strictly_increasing l → nondecreasing l.
Proof.
  induction 1 as [|x l Hl IH Hx]; constructor; [exact IH|].
  eapply Forall_impl; [exact Hx|]. unfold ts_lt, ts_le. intros; lia.
Qed.

Lemma nondecreasing_lookup l i j x y :
  nondecreasing l → l !! i = Some x → l !! j = Some y → (i ≤ j)%nat →
  timestamp x ≤ timestamp y.
Proof.
  intros Hl. revert i j. induction Hl as [|a l Hl IH Ha]; intros i j Hi Hj Hij.
  - by rewrite lookup_nil in Hi.
  - destruct i as [|i], j as [|j]; simpl in *; simplify_eq.
    + lia.
    + rewrite Forall_forall in Ha. apply Ha. by eapply list_elem_of_lookup_2.
    + lia.
    + eapply IH; eauto. lia.
Qed.

Lemma strictly_increasing_lookup l i j x y :
  strictly_increasing l → l !! i = Some x → l !! j = Some y → (i < j)%nat →
  timestamp x < timestamp y.
Proof.
  intros Hl. revert i j. induction Hl as [|a l Hl IH Ha]; intros i j Hi Hj Hij.
  - by rewrite lookup_nil in Hi.
  - destruct i as [|i], j as [|j]; simpl in *; simplify_eq; try lia.
    + rewrite Forall_forall in Ha. apply Ha. by eapply list_elem_of_lookup_2.
    + eapply IH; eauto. lia.
Qed.

(** The index form of invariant M1: neighbours grow strictly. *)
Lemma strictly_increasing_adjacent l i x y :
  strictly_increasing l → l !! i = Some x → l !! S i = Some y →
  timestamp x < timestamp y.
Proof. intros Hl Hx Hy. eapply strictly_increasing_lookup; eauto. Qed.

Lemma strictly_increasing_NoDup_timestamps l :
  strictly_increasing l → NoDup (timestamp <$> l).
Proof.
  induction 1 as [|x l Hl IH Hx]; simpl; constructor; [|exact IH].
  rewrite list_elem_of_fmap. intros (y & Hy & Hin).
  rewrite Forall_forall in Hx. specialize (Hx y Hin). unfold ts_lt in Hx.
  rewrite Hy in Hx. lia.
Qed.

Lemma div2_lt_self n : (n ≠ 0)%nat → (Nat.div2 n < n)%nat.
Proof. intros. apply Nat.lt_div2. lia. Qed.

(** On a sorted vector [lower_bound] returns the partition point of
    [timestamp < t] inside the searched range. *)
Lemma lower_bound_loop_partition fuel : ∀ v first len t lo,
  nondecreasing v → (len ≤ fuel)%nat → (first + len ≤ length v)%nat →
  (∀ i x, v !! i = Some x → (lo ≤ i < first)%nat → timestamp x < t) →
  (∀ i x, v !! i = Some x → (first + len ≤ i)%nat → t ≤ timestamp x) →
  let k := lower_bound_loop fuel v first len t in
  (first ≤ k ≤ first + len)%nat ∧
  (∀ i x, v !! i = Some x → (lo ≤ i < k)%nat → timestamp x < t) ∧
  (∀ i x, v !! i = Some x → (k ≤ i)%nat → t ≤ timestamp x).
Proof.
  induction fuel as [|fuel IH]; intros v first len t lo Hv Hfuel Hlen Hlow Hhigh; simpl.
  - assert (len = 0)%nat as -> by lia.
    split; [lia|]. split; [exact Hlow|].
    intros i x Hi Hk. apply (Hhigh i x Hi). lia.
  - destruct (Nat.eqb_spec len 0) as [->|Hne].
    { split; [lia|]. split; [exact Hlow|].
      intros i x Hi Hk. apply (Hhigh i x Hi). lia. }
    pose proof (div2_lt_self len Hne) as Hhalf.
    set (half := Nat.div2 len) in *. clearbody half.
    destruct (lookup_lt_is_Some_2 v (first + half)) as [m Hm]; [lia|].
    rewrite Hm. destruct (Z.ltb_spec (timestamp m) t) as [Hlt|Hge].
    + destruct (IH v (S (first + half)) (len - half - 1)%nat t lo)
        as (Hk & Hl & Hh); try done; try lia.
      * intros i x Hi Hrange.
        destruct (decide (i < first)%nat) as [?|?]; [apply (Hlow i x Hi); lia|].
        pose proof (nondecreasing_lookup v i (first + half) x m Hv Hi Hm).
        lia.
      * intros i x Hi Hrange. apply (Hhigh i x Hi). lia.
      * split; [lia|]. split; assumption.
    + destruct (IH v first half t lo) as (Hk & Hl & Hh); try done; try lia.
      * intros i x Hi Hrange.
        pose proof (nondecreasing_lookup v (first + half) i m x Hv Hm Hi).
        lia.
      * split; [lia|]. split; assumption.
Qed.

Lemma upper_bound_loop_partition fuel : ∀ v first len t lo,
  nondecreasing v → (len ≤ fuel)%nat → (first + len ≤ length v)%nat →
  (∀ i x, v !! i = Some x → (lo ≤ i < first)%nat → timestamp x ≤ t) →
  (∀ i x, v !! i = Some x → (first + len ≤ i)%nat → t < timestamp x) →
  let k := upper_bound_loop fuel v first len t in
  (first ≤ k ≤ first + len)%nat ∧
  (∀ i x, v !! i = Some x → (lo ≤ i < k)%nat → timestamp x ≤ t) ∧
  (∀ i x, v !! i = Some x → (k ≤ i)%nat → t < timestamp x).
Proof.
  induction fuel as [|fuel IH]; intros v first len t lo Hv Hfuel Hlen Hlow Hhigh; simpl.
  - assert (len = 0)%nat as -> by lia.
    split; [lia|]. split; [exact Hlow|].
    intros i x Hi Hk. apply (Hhigh i x Hi). lia.
  - destruct (Nat.eqb_spec len 0) as [->|Hne].
    { split; [lia|]. split; [exact Hlow|].
      intros i x Hi Hk. apply (Hhigh i x Hi). lia. }
    pose proof (div2_lt_self len Hne) as Hhalf.
    set (half := Nat.div2 len) in *. clearbody half.
    destruct (lookup_lt_is_Some_2 v (first + half)) as [m Hm]; [lia|].
    rewrite Hm. destruct (Z.ltb_spec t (timestamp m)) as [Hlt|Hge].
    + destruct (IH v first half t lo) as (Hk & Hl & Hh); try done; try lia.
      * intros i x Hi Hrange.
        pose proof (nondecreasing_lookup v (first + half) i m x Hv Hm Hi).
        lia.
      * split; [lia|]. split; assumption.
    + destruct (IH v (S (first + half)) (len - half - 1)%nat t lo)
        as (Hk & Hl & Hh); try done; try lia.
      * intros i x Hi Hrange.
        destruct (decide (i < first)%nat) as [?|?]; [apply (Hlow i x Hi); lia|].
        pose proof (nondecreasing_lookup v i (first + half) x m Hv Hi Hm).
        lia.
      * intros i x Hi Hrange. apply (Hhigh i x Hi). lia.
      * split; [lia|]. split; assumption.
Qed.

Lemma lower_bound_partition v t :
  nondecreasing v →
  let k := lower_bound v 0 (length v) t in
  (k ≤ length v)%nat ∧
  (∀ i x, v !! i = Some x → (i < k)%nat → timestamp x < t) ∧
  (∀ i x, v !! i = Some x → (k ≤ i)%nat → t ≤ timestamp x).
Proof.
  intros Hv. unfold lower_bound.
  destruct (lower_bound_loop_partition (length v - 0) v 0 (length v - 0) t 0)
    as (Hk & Hl & Hh); try done; try lia.
  - intros i x Hi Hr. apply lookup_lt_Some in Hi. lia.
  - split; [lia|]. split; [|exact Hh]. intros i x Hi Hr. apply (Hl i x Hi). lia.
Qed.

Lemma upper_bound_partition v first t :
  nondecreasing v → (first ≤ length v)%nat →
  let k := upper_bound v first (length v) t in
  (first ≤ k ≤ length v)%nat ∧
  (∀ i x, v !! i = Some x → (first ≤ i < k)%nat → timestamp x ≤ t) ∧
  (∀ i x, v !! i = Some x → (k ≤ i)%nat → t < timestamp x).
Proof.
  intros Hv Hfirst. unfold upper_bound.
  destruct (upper_bound_loop_partition (length v - first) v first
              (length v - first) t first) as (Hk & Hl & Hh); try done; try lia.
  - intros i x Hi Hr. apply lookup_lt_Some in Hi. lia.
  - split; [lia|]. split; [exact Hl|exact Hh].
Qed.

(** ** Filters, slices and the other algorithms *)

Section Filters.
Context (P : TimeSeriesPoint → Prop) `{!∀ x, Decision (P x)}.

Lemma filter_all (l : list TimeSeriesPoint) : Forall P l → filter P l = l.
Proof.
  induction 1 as [|x l Hx Hl IH]; [done|].
  rewrite filter_cons_True by done. by rewrite IH.
Qed.

Lemma filter_none (l : list TimeSeriesPoint) :
  Forall (λ x, ¬ P x) l → filter P l = [].
Proof.
  induction 1 as [|x l Hx Hl IH]; [done|].
  by rewrite filter_cons_False.
Qed.

(** A slice whose inside satisfies [P] and whose outside does not is the
    filter by [P]. *)
Lemma slice_is_filter (v : list TimeSeriesPoint) (s e : nat) :
  (s ≤ e ≤ length v)%nat →
  (∀ i x, v !! i = Some x → (i < s)%nat → ¬ P x) →
  (∀ i x, v !! i = Some x → (s ≤ i < e)%nat → P x) →
  (∀ i x, v !! i = Some x → (e ≤ i)%nat → ¬ P x) →
  take (e - s) (drop s v) = filter P v.
Proof.
  intros Hse Hbefore Hinside Hafter.
  assert (v = take s v ++ take (e - s) (drop s v) ++ drop (e - s) (drop s v)) as Hv.
  { by rewrite !take_drop. }
  rewrite Hv at 2. rewrite !filter_app.
  rewrite filter_none, (filter_all (take _ (drop _ _))), filter_none.
  - by rewrite app_nil_r.
  - apply Forall_lookup. intros i x Hi. rewrite !lookup_drop in Hi.
    apply (Hafter _ x Hi). lia.
  - apply Forall_lookup. intros i x Hi.
    apply lookup_take_Some in Hi as [Hi Hlt]. rewrite lookup_drop in Hi.
    apply (Hinside _ x Hi). lia.
  - apply Forall_lookup. intros i x Hi.
    apply lookup_take_Some in Hi as [Hi Hlt]. by apply (Hbefore i x Hi).
Qed.

End Filters.

Lemma std_merge_nil_r l : std_merge l [] = l.
Proof. by destruct l. Qed.

Lemma std_merge_nil_l l : std_merge [] l = l.
Proof. by destruct l. Qed.

Lemma std_merge_cons_cons a l1 b l2 :
  std_merge (a :: l1) (b :: l2) =
  if timestamp b <? timestamp a then b :: std_merge (a :: l1) l2
  else a :: std_merge l1 (b :: l2).
Proof. reflexivity. Qed.

Lemma std_merge_perm l1 : ∀ l2, std_merge l1 l2 ≡ₚ l1 ++ l2.
Proof.
  induction l1 as [|a l1 IH1]; [by intros []|].
  induction l2 as [|b l2 IH2]; [by rewrite app_nil_r|].
  rewrite std_merge_cons_cons. destruct (timestamp b <? timestamp a).
  - rewrite IH2. etrans; [apply perm_swap|]. apply perm_skip, Permutation_middle.
  - by rewrite IH1.
Qed.

Lemma std_merge_nondecreasing l1 : ∀ l2,
  nondecreasing l1 → nondecreasing l2 → nondecreasing (std_merge l1 l2).
Proof.
  induction l1 as [|a l1 IH1]; [by intros []|].
  induction l2 as [|b l2 IH2]; [done|].
  intros H1 H2. rewrite std_merge_cons_cons.
  apply StronglySorted_cons in H1 as [Ha H1].
  apply StronglySorted_cons in H2 as [Hb H2].
  destruct (Z.ltb_spec (timestamp b) (timestamp a)) as [Hlt|Hge].
  - constructor.
    + apply IH2; [by constructor|done].
    + rewrite std_merge_perm. rewrite Forall_app, Forall_cons.
      repeat split; [unfold ts_le; lia| |done].
      eapply Forall_impl; [exact Ha|]. unfold ts_le. intros; lia.
  - constructor.
    + apply IH1; [done|by constructor].
    + rewrite std_merge_perm. rewrite Forall_app, Forall_cons.
      repeat split; [done|unfold ts_le; lia|].
      eapply Forall_impl; [exact Hb|]. unfold ts_le. intros; lia.
Qed.

Lemma unique_after_increasing l : ∀ kept,
  nondecreasing l → Forall (ts_le kept) l →
  strictly_increasing (unique_after kept l) ∧
  Forall (ts_lt kept) (unique_after kept l).
Proof.
  induction l as [|x l IH]; intros kept Hl Hkept; simpl.
  { split; constructor. }
  apply StronglySorted_cons in Hl as [Hx Hl].
  apply Forall_cons in Hkept as [Hkx Hkept].
  destruct (Z.eqb_spec (timestamp kept) (timestamp x)) as [Heq|Hne].
  - by apply IH.
  - destruct (IH x Hl Hx) as [Hs Hf]. unfold ts_le in Hkx.
    assert (ts_lt kept x) by (unfold ts_lt; lia).
    split.
    + by constructor.
    + constructor; [done|].
      eapply Forall_impl; [exact Hf|]. unfold ts_lt in *. intros; lia.
Qed.

Lemma std_unique_increasing l :
  nondecreasing l → strictly_increasing (std_unique l).
Proof.
  destruct l as [|x l]; [constructor|]. intros Hl. simpl.
  apply StronglySorted_cons in Hl as [Hx Hl].
  destruct (unique_after_increasing l x Hl Hx). by constructor.
Qed.

Lemma unique_after_subseteq l : ∀ kept y, y ∈ unique_after kept l → y ∈ l.
Proof.
  induction l as [|x l IH]; intros kept y; simpl; [done|].
  destruct (timestamp kept =? timestamp x).
  - intros Hy. right. by apply (IH kept).
  - intros [->|Hy]%elem_of_cons; [by left|]. right. by apply (IH x).
Qed.

Lemma std_unique_subseteq l y : y ∈ std_unique l → y ∈ l.
Proof.
  destruct l as [|x l]; [done|]. simpl.
  intros [->|Hy]%elem_of_cons; [by left|].
  right. by apply (unique_after_subseteq l x).
Qed.

Lemma unique_after_sublist l : ∀ kept, unique_after kept l `sublist_of` l.
Proof.
  induction l as [|x l IH]; intros kept; simpl; [constructor|].
  destruct (timestamp kept =? timestamp x).
  - apply sublist_cons, IH.
  - apply sublist_skip, IH.
Qed.

Lemma std_unique_sublist l : std_unique l `sublist_of` l.
Proof. destruct l as [|x l]; [constructor|]. apply sublist_skip, unique_after_sublist. Qed.

Lemma unique_after_covers l : ∀ kept z,
  z ∈ l →
  timestamp z =@{Z} timestamp kept ∨
  ∃ y, y ∈ unique_after kept l ∧ timestamp y =@{Z} timestamp z.
Proof.
  induction l as [|x l IH]; intros kept z Hz; [by apply elem_of_nil in Hz|].
  simpl. apply elem_of_cons in Hz as [->|Hz].
  - destruct (Z.eqb_spec (timestamp kept) (timestamp x)); [by left|].
    right. exists x. split; [by left|done].
  - destruct (Z.eqb_spec (timestamp kept) (timestamp x)); [by apply IH|].
    right. destruct (IH x z Hz) as [Heq|(y & Hy & Heq)].
    + exists x. split; [by left|done].
    + exists y. split; [by right|done].
Qed.

(** Every timestamp of the input survives [std::unique]. *)
Lemma std_unique_covers l z :
  z ∈ l → ∃ y, y ∈ std_unique l ∧ timestamp y =@{Z} timestamp z.
Proof.
  destruct l as [|x l]; [by intros ?%elem_of_nil|].
  intros [->|Hz]%elem_of_cons; simpl.
  - exists x. split; [by left|done].
  - destruct (unique_after_covers l x z Hz) as [Heq|(y & Hy & Heq)].
    + exists x. split; [by left|done].
    + exists y. split; [by right|done].
Qed.

Lemma unique_after_fixed l : ∀ kept,
  Forall (ts_lt kept) l → strictly_increasing l → unique_after kept l = l.
Proof.
  induction l as [|x l IH]; intros kept Hk Hl; [done|]. simpl.
  apply Forall_cons in Hk as [Hkx Hk].
  apply StronglySorted_cons in Hl as [Hx Hl].
  destruct (Z.eqb_spec (timestamp kept) (timestamp x)) as [Heq|Hne].
  - unfold ts_lt in Hkx. lia.
  - by rewrite IH.
Qed.

(** A strictly increasing sequence has nothing for [std::unique] to drop. *)
Lemma std_unique_fixed l : strictly_increasing l → std_unique l = l.
Proof.
  destruct l as [|x l]; [done|]. intros Hl. simpl.
  apply StronglySorted_cons in Hl as [Hx Hl]. by rewrite unique_after_fixed.
Qed.

Lemma strictly_increasing_same_timestamp l x y :
  strictly_increasing l → x ∈ l → y ∈ l → timestamp x =@{Z} timestamp y → x = y.
Proof.
  intros Hl [i Hi]%list_elem_of_lookup [j Hj]%list_elem_of_lookup Heq.
  destruct (lt_eq_lt_dec i j) as [[Hlt| ->]|Hgt].
  - pose proof (strictly_increasing_lookup l i j x y Hl Hi Hj Hlt). lia.
  - congruence.
  - pose proof (strictly_increasing_lookup l j i y x Hl Hj Hi Hgt). lia.
Qed.


Lemma list_filter_bool (f : TimeSeriesPoint → bool) l :
  List.filter f l = filter (λ p, f p = true) l.
Proof.
  induction l as [|x l IH]; [done|]. simpl. rewrite filter_cons, IH.
  destruct (f x); by case_decide.
Qed.

Section SortFacts.
Context `{StdSort}.

(** Sorting a strictly increasing sequence leaves it as it is, whichever
    conforming [std::sort] is used. *)
Lemma sort_by_timestamp_fixed l :
  strictly_increasing l → sort_by_timestamp l = l.
Proof.
  intros Hl. apply (StronglySorted_unique_strong ts_le).
  - intros x1 x2 H1 H2 Hle1 Hle2.
    rewrite sort_by_timestamp_perm in H1.
    apply (strictly_increasing_same_timestamp l); [done..|].
    unfold ts_le in *. lia.
  - apply sort_by_timestamp_sorted.
  - by apply strictly_increasing_nondecreasing.
  - apply sort_by_timestamp_perm.
Qed.

Lemma sort_by_timestamp_nil : sort_by_timestamp [] = [].
Proof. apply Permutation_nil_r, sort_by_timestamp_perm. Qed.

Lemma sort_by_timestamp_elem_of l x : x ∈ sort_by_timestamp l ↔ x ∈ l.
Proof. by rewrite sort_by_timestamp_perm. Qed.

End SortFacts.

Lemma group_by_symbol_from (g : gmap string (list TimeSeriesPoint)) pts sym :
  foldl (λ g p, <[symbol p := default [] (g !! symbol p) ++ [p]]> g) g pts !! sym =
  match filter (has_symbol sym) pts with
  | [] => g !! sym
  | own => Some (default [] (g !! sym) ++ own)
  end.
Proof.
  revert g. induction pts as [|p pts IH]; intros g; [done|].
  simpl. rewrite IH. destruct (decide (symbol p = sym)) as [Heq|Hne].
  - rewrite filter_cons_True by done. subst sym.
    rewrite lookup_insert_eq. simpl.
    destruct (filter (has_symbol (symbol p)) pts) as [|q own].
    + done.
    + by rewrite <- app_assoc.
  - rewrite filter_cons_False by done. by rewrite lookup_insert_ne.
Qed.

(** The group of a symbol is the batch restricted to it, in arrival order;
    a symbol without a point has no group. *)
Lemma group_by_symbol_lookup pts sym :
  group_by_symbol pts !! sym =
  match filter (has_symbol sym) pts with
  | [] => None
  | own => Some own
  end.
Proof.
  unfold group_by_symbol. rewrite group_by_symbol_from, lookup_empty.
  by destruct (filter (has_symbol sym) pts).
Qed.

(** ** The memory buffer *)

Module MemoryFacts.
Import Memory MemoryInvariant.

Lemma buffered_lookup m sym sd :
  symbol_data m !! sym = Some sd → buffered m sym = points sd.
Proof. unfold buffered. by intros ->. Qed.

Lemma buffered_absent m sym :
  symbol_data m !! sym = None → buffered m sym = [].
Proof. unfold buffered. by intros ->. Qed.

Lemma well_formed_buffered m sym :
  well_formed m →
  strictly_increasing (buffered m sym) ∧ Forall (has_symbol sym) (buffered m sym).
Proof.
  intros Hm. unfold buffered.
  destruct (symbol_data m !! sym) as [sd|] eqn:Hsd; [by apply Hm|].
  split; constructor.
Qed.

Lemma well_formed_create cache_mb : well_formed (create cache_mb).
Proof. intros sym sd Hsd. simpl in Hsd. by rewrite lookup_empty in Hsd. Qed.

(** [get_range] is a slice of the buffered sequence... *)
Lemma get_range_slice m sym start end_ :
  get_range m sym start end_ =
  let v := buffered m sym in
  let start_it := lower_bound v 0 (length v) start in
  let end_it := upper_bound v start_it (length v) end_ in
  take (end_it - start_it) (drop start_it v).
Proof.
  unfold get_range, buffered. by destruct (symbol_data m !! sym).
Qed.

(** ...and on a sorted sequence the slice is the closed interval. *)
Lemma get_range_filter m sym start end_ :
  nondecreasing (buffered m sym) →
  get_range m sym start end_ =
  filter (λ p, start ≤ timestamp p ≤ end_) (buffered m sym).
Proof.
  intros Hv. rewrite get_range_slice. cbv zeta.
  set (v := buffered m sym) in *.
  destruct (lower_bound_partition v start Hv) as (Hs & Hlow & Hhigh).
  set (s := lower_bound v 0 (length v) start) in *.
  destruct (upper_bound_partition v s end_ Hv Hs) as (He & Hin & Hout).
  set (e := upper_bound v s (length v) end_) in *.
  apply (slice_is_filter (λ p, start ≤ timestamp p ≤ end_)).
  - lia.
  - intros i x Hi Hlt. specialize (Hlow i x Hi Hlt). lia.
  - intros i x Hi Hr. specialize (Hin i x Hi Hr).
    assert (s ≤ i)%nat as Hsi by lia. specialize (Hhigh i x Hi Hsi). lia.
  - intros i x Hi Hr. specialize (Hout i x Hi Hr). lia.
Qed.

(** The full-range scan of [flush] returns the whole sequence. *)
Lemma get_range_full m sym :
  nondecreasing (buffered m sym) →
  get_range m sym TS_MIN TS_MAX = buffered m sym.
Proof.
  intros Hv. rewrite get_range_filter by done. apply filter_all.
  apply Forall_forall. intros p _. apply time_point_bounds.
Qed.

Lemma get_range_sublist m sym start end_ :
  get_range m sym start end_ `sublist_of` buffered m sym.
Proof.
  rewrite get_range_slice. cbv zeta.
  etrans; [apply sublist_take|apply sublist_drop].
Qed.

Lemma strictly_increasing_sublist l1 l2 :
  l1 `sublist_of` l2 → strictly_increasing l2 → strictly_increasing l1.
Proof.
  induction 1 as [|x l1 l2 Hsub IH|x l1 l2 Hsub IH]; intros Hl2.
  - constructor.
  - apply StronglySorted_cons in Hl2 as [Hx Hl2]. constructor; [by apply IH|].
    rewrite Forall_forall in Hx. apply Forall_forall. intros y Hy.
    by apply Hx, (sublist_subseteq _ _ Hsub).
  - apply StronglySorted_cons in Hl2 as [_ Hl2]. by apply IH.
Qed.

(** *** insert *)

Lemma symbol_data_get_or_create m sym :
  let r := get_or_create_symbol_data m sym in
  points r.1 = buffered m sym ∧
  symbol_data r.2 !! sym = Some r.1 ∧
  (∀ sym', sym' ≠ sym → symbol_data r.2 !! sym' = symbol_data m !! sym') ∧
  (is_Some (symbol_data m !! sym) → r.2 = m).
Proof.
  unfold get_or_create_symbol_data, buffered.
  destruct (symbol_data m !! sym) as [sd|] eqn:Hsd; simpl.
  - repeat split; try done.
  - repeat split.
    + by rewrite lookup_insert_eq.
    + intros sym' Hne. by rewrite lookup_insert_ne.
    + by intros [? ?].
Qed.

(** The sequence [insert] builds when the timestamp is new. *)
Lemma insert_position_increasing v p :
  strictly_increasing v →
  (∀ q, q ∈ v → timestamp q ≠@{Z} timestamp p) →
  let it := lower_bound v 0 (length v) (timestamp p) in
  Forall (λ q, timestamp q < timestamp p) (take it v) ∧
  Forall (λ q, timestamp p < timestamp q) (drop it v) ∧
  strictly_increasing (take it v ++ p :: drop it v).
Proof.
  intros Hv Hnew it.
  destruct (lower_bound_partition v (timestamp p)
              (strictly_increasing_nondecreasing v Hv)) as (Hk & Hlow & Hhigh).
  fold it in Hk, Hlow, Hhigh.
  assert (Forall (λ q, timestamp q < timestamp p) (take it v)) as Hbefore.
  { apply Forall_lookup. intros i x [Hi Hlt]%lookup_take_Some. by eapply Hlow. }
  assert (Forall (λ q, timestamp p < timestamp q) (drop it v)) as Hafter.
  { apply Forall_lookup. intros i x Hi. rewrite lookup_drop in Hi.
    assert (timestamp p ≤ timestamp x) by (eapply Hhigh; [exact Hi|lia]).
    assert (timestamp x ≠@{Z} timestamp p).
    { apply Hnew. by eapply list_elem_of_lookup_2. }
    lia. }
  split; [done|]. split; [done|].
  rewrite <- (take_drop it v) in Hv.
  apply StronglySorted_app in Hv as (Hcross & Htake & Hdrop).
  apply StronglySorted_app_2; [|done|by constructor].
  intros x1 x2 H1 [->|H2]%elem_of_cons.
  - rewrite Forall_forall in Hbefore. by apply Hbefore.
  - by apply Hcross.
Qed.

(** A timestamp that is there already is found by the search. *)
Lemma lower_bound_finds_duplicate v p q :
  strictly_increasing v → q ∈ v → timestamp q =@{Z} timestamp p →
  v !! lower_bound v 0 (length v) (timestamp p) = Some q.
Proof.
  intros Hv [j Hj]%list_elem_of_lookup Heq.
  destruct (lower_bound_partition v (timestamp p)
              (strictly_increasing_nondecreasing v Hv)) as (Hk & Hlow & Hhigh).
  set (it := lower_bound v 0 (length v) (timestamp p)) in *.
  destruct (lt_eq_lt_dec j it) as [[Hlt|Heqj]|Hgt].
  - specialize (Hlow j q Hj Hlt). lia.
  - by subst j.
  - destruct (lookup_lt_is_Some_2 v it) as [x Hx].
    { apply lookup_lt_Some in Hj. lia. }
    assert (timestamp p ≤ timestamp x) by (eapply Hhigh; [exact Hx|lia]).
    pose proof (strictly_increasing_lookup v it j x q Hv Hx Hj Hgt). lia.
Qed.

Lemma insert_duplicate m p q :
  well_formed m → q ∈ buffered m (symbol p) → timestamp q =@{Z} timestamp p →
  insert m p = (false, m).
Proof.
  intros Hm Hq Heq. unfold insert.
  destruct (symbol_data_get_or_create m (symbol p)) as (Hpts & _ & _ & Hsame).
  destruct (get_or_create_symbol_data m (symbol p)) as [sd m1]. simpl in *.
  rewrite Hpts.
  rewrite (lower_bound_finds_duplicate _ p q); [|by apply well_formed_buffered|done..].
  rewrite Heq, Z.eqb_refl. f_equal. apply Hsame.
  unfold buffered in Hq. destruct (symbol_data m !! symbol p); [done|].
  by apply elem_of_nil in Hq.
Qed.

Lemma insert_fresh m p :
  well_formed m →
  (∀ q, q ∈ buffered m (symbol p) → timestamp q ≠@{Z} timestamp p) →
  let v := buffered m (symbol p) in
  let it := lower_bound v 0 (length v) (timestamp p) in
  (insert m p).1 = true ∧
  buffered (insert m p).2 (symbol p) = take it v ++ p :: drop it v ∧
  (∀ sym, sym ≠ symbol p → buffered (insert m p).2 sym = buffered m sym).
Proof.
  intros Hm Hnew v it. unfold insert.
  destruct (symbol_data_get_or_create m (symbol p)) as (Hpts & Hsd & Hother & _).
  destruct (get_or_create_symbol_data m (symbol p)) as [sd m1]. simpl in *.
  rewrite Hpts. fold v it.
  assert (∀ b r, (match v !! it with
            | Some q => if timestamp q =? timestamp p then (false, m1) else (b, r)
            | None => (b, r) end) = (b, r)) as ->.
  { intros b r. destruct (v !! it) as [q|] eqn:Hq; [|done].
    destruct (Z.eqb_spec (timestamp q) (timestamp p)) as [Heq|]; [|done].
    exfalso. eapply Hnew; [|exact Heq]. by eapply list_elem_of_lookup_2. }
  simpl. split; [done|]. split.
  - unfold buffered. simpl. by rewrite lookup_insert_eq.
  - intros sym Hne. unfold buffered. simpl.
    rewrite lookup_insert_ne by done. by rewrite Hother.
Qed.

Lemma insert_well_formed m p : well_formed m → well_formed (insert m p).2.
Proof.
  intros Hm.
  destruct (decide (Exists (λ q, timestamp q =@{Z} timestamp p) (buffered m (symbol p))))
    as [(q & Hq & Heq)%Exists_exists|Hnone].
  { by rewrite (insert_duplicate m p q). }
  assert (∀ q, q ∈ buffered m (symbol p) → timestamp q ≠@{Z} timestamp p) as Hnew.
  { intros q Hq Heq. apply Hnone, Exists_exists. by exists q. }
  destruct (insert_fresh m p Hm Hnew) as (_ & Hown & Hothers).
  destruct (well_formed_buffered m (symbol p) Hm) as [Hinc Hsym].
  destruct (insert_position_increasing _ p Hinc Hnew) as (_ & _ & Hsorted).
  intros sym sd Hsd. rewrite <- (buffered_lookup _ _ _ Hsd).
  destruct (decide (sym = symbol p)) as [->|Hne].
  - rewrite Hown. split; [done|].
    rewrite <- (take_drop (lower_bound (buffered m (symbol p)) 0
      (length (buffered m (symbol p))) (timestamp p)) (buffered m (symbol p))) in Hsym.
    apply Forall_app in Hsym as [? ?].
    apply Forall_app. split; [done|]. by constructor.
  - rewrite Hothers by done. by apply well_formed_buffered.
Qed.

(** *** insert_batch *)

Section Batch.
Context `{StdSort}.

Lemma merged_with_increasing old own :
  strictly_increasing old → strictly_increasing (merged_with old own).
Proof.
  intros Hold. apply std_unique_increasing, std_merge_nondecreasing.
  - by apply strictly_increasing_nondecreasing.
  - apply sort_by_timestamp_sorted.
Qed.

Lemma merged_with_elem_of old own x :
  x ∈ merged_with old own → x ∈ old ∨ x ∈ own.
Proof.
  unfold merged_with. intros Hx%std_unique_subseteq. rewrite std_merge_perm in Hx.
  apply elem_of_app in Hx as [Hx|Hx].
  - by left.
  - right. by rewrite sort_by_timestamp_elem_of in Hx.
Qed.

Lemma merged_with_covers old own x :
  x ∈ old ∨ x ∈ own →
  ∃ y, y ∈ merged_with old own ∧ timestamp y =@{Z} timestamp x.
Proof.
  intros Hx. unfold merged_with. apply std_unique_covers. rewrite std_merge_perm.
  apply elem_of_app. destruct Hx as [Hx|Hx].
  - by left.
  - right. by rewrite sort_by_timestamp_elem_of.
Qed.

Lemma merged_with_nil_l own :
  merged_with [] own = std_unique (sort_by_timestamp own).
Proof. unfold merged_with. by rewrite std_merge_nil_l. Qed.

Lemma symbol_data_insert_group m g :
  ∃ sd, points sd = merged_with (buffered m g.1) g.2 ∧
        symbol_data (insert_group m g) = <[g.1 := sd]> (symbol_data m).
Proof.
  unfold insert_group, get_or_create_symbol_data, buffered.
  destruct (symbol_data m !! g.1) as [sd|] eqn:Hsd; simpl.
  - eexists. split; [|reflexivity]. done.
  - eexists. split; [|by rewrite insert_insert_eq]. done.
Qed.

Lemma buffered_insert_group m g sym :
  buffered (insert_group m g) sym =
  if decide (g.1 = sym) then merged_with (buffered m sym) g.2 else buffered m sym.
Proof.
  destruct (symbol_data_insert_group m g) as (sd & Hpts & Hdata).
  unfold buffered at 1. rewrite Hdata.
  destruct (decide (g.1 = sym)) as [<-|Hne].
  - by rewrite lookup_insert_eq.
  - by rewrite lookup_insert_ne.
Qed.

Lemma insert_group_well_formed m g :
  well_formed m → Forall (has_symbol g.1) g.2 → well_formed (insert_group m g).
Proof.
  intros Hm Hg sym sd Hsd. rewrite <- (buffered_lookup _ _ _ Hsd).
  rewrite buffered_insert_group.
  destruct (well_formed_buffered m sym Hm) as [Hinc Hsym].
  destruct (decide (g.1 = sym)) as [<-|Hne]; [|done].
  split; [by apply merged_with_increasing|].
  apply Forall_forall. intros x [Hx|Hx]%merged_with_elem_of.
  - rewrite Forall_forall in Hsym. by apply Hsym.
  - rewrite Forall_forall in Hg. by apply Hg.
Qed.

Lemma insert_groups_well_formed gs : ∀ m,
  well_formed m → Forall (λ g, Forall (has_symbol g.1) g.2) gs →
  well_formed (foldl insert_group m gs).
Proof.
  induction gs as [|g gs IH]; intros m Hm Hgs; [done|].
  apply Forall_cons in Hgs as [Hg Hgs]. simpl.
  apply IH; [|done]. by apply insert_group_well_formed.
Qed.

Lemma buffered_insert_groups_other gs : ∀ m sym,
  sym ∉ gs.*1 → buffered (foldl insert_group m gs) sym = buffered m sym.
Proof.
  induction gs as [|g gs IH]; intros m sym Hsym; [done|].
  simpl. rewrite fmap_cons, not_elem_of_cons in Hsym. destruct Hsym as [Hne Hsym].
  rewrite IH by done. rewrite buffered_insert_group.
  by destruct (decide (g.1 = sym)).
Qed.

Lemma buffered_insert_groups_own gs : ∀ m sym own,
  NoDup gs.*1 → (sym, own) ∈ gs →
  buffered (foldl insert_group m gs) sym = merged_with (buffered m sym) own.
Proof.
  induction gs as [|g gs IH]; intros m sym own Hnd Hin; [by apply elem_of_nil in Hin|].
  rewrite fmap_cons in Hnd. apply NoDup_cons in Hnd as [Hfresh Hnd]. simpl.
  apply elem_of_cons in Hin as [<-|Hin].
  - rewrite buffered_insert_groups_other by done.
    rewrite buffered_insert_group. simpl. by rewrite decide_True.
  - rewrite (IH _ _ own) by done. rewrite buffered_insert_group.
    rewrite decide_False; [done|].
    intros <-. apply Hfresh. apply list_elem_of_fmap. by exists (g.1, own).
Qed.

(** What a batch leaves under a symbol: the points of the batch for that
    symbol are sorted, merged into the sequence that was there and
    deduplicated; a symbol the batch does not mention keeps its sequence. *)
Lemma buffered_insert_batch m pts sym :
  buffered (insert_batch m pts).2 sym =
  match filter (has_symbol sym) pts with
  | [] => buffered m sym
  | own => merged_with (buffered m sym) own
  end.
Proof.
  unfold insert_batch. destruct pts as [|p pts]; [done|].
  set (batch := p :: pts). simpl.
  pose proof (group_by_symbol_lookup batch sym) as Hgroup.
  destruct (filter (has_symbol sym) batch) as [|q own].
  - apply buffered_insert_groups_other.
    intros [[sym' own'] [Heq Hin]]%list_elem_of_fmap. simpl in Heq. subst sym'.
    apply elem_of_map_to_list in Hin. congruence.
  - apply buffered_insert_groups_own; [apply NoDup_fst_map_to_list|].
    by apply elem_of_map_to_list.
Qed.

Lemma insert_batch_well_formed m pts :
  well_formed m → well_formed (insert_batch m pts).2.
Proof.
  intros Hm. unfold insert_batch. destruct pts as [|p pts]; [done|].
  set (batch := p :: pts). simpl.
  apply insert_groups_well_formed; [done|].
  apply Forall_forall. intros [sym own] Hin%elem_of_map_to_list. simpl.
  rewrite group_by_symbol_lookup in Hin.
  assert (own = filter (has_symbol sym) batch) as ->.
  { destruct (filter (has_symbol sym) batch); congruence. }
  apply Forall_forall. by intros x [? _]%list_elem_of_filter.
Qed.

End Batch.

(** *** clear_cache and the reachable states *)

Lemma buffered_clear_cache m sym : buffered (clear_cache m) sym = [].
Proof.
  unfold buffered, clear_cache. simpl. rewrite lookup_fmap.
  by destruct (symbol_data m !! sym).
Qed.

Lemma clear_cache_well_formed m : well_formed (clear_cache m).
Proof.
  intros sym sd Hsd. rewrite <- (buffered_lookup _ _ _ Hsd), buffered_clear_cache.
  split; constructor.
Qed.

Section Reachable.
Context `{StdSort}.

Lemma perform_well_formed m c : well_formed m → well_formed (perform m c).
Proof.
  intros Hm. destruct c as [point|pts|]; simpl.
  - by apply insert_well_formed.
  - by apply insert_batch_well_formed.
  - apply clear_cache_well_formed.
Qed.

Lemma run_well_formed calls : ∀ m, well_formed m → well_formed (run m calls).
Proof.
  induction calls as [|c calls IH]; intros m Hm; [done|].
  apply IH. by apply perform_well_formed.
Qed.

Lemma reachable_well_formed cache_mb calls :
  well_formed (run (create cache_mb) calls).
Proof. apply run_well_formed, well_formed_create. Qed.

(** C4 (P1, invariant M1).  Whatever sequence of [insert], [insert_batch]
    (and [clear_cache]) calls the buffer has served since it was created,
    [get_range(symbol, MIN, MAX)] is strictly increasing in timestamp:
    each point lies strictly before its successor, so no timestamp occurs
    twice. *)
Theorem get_range_strictly_increasing cache_mb calls sym :
  let result := get_range (run (create cache_mb) calls) sym TS_MIN TS_MAX in
  strictly_increasing result ∧
  (∀ i x y, result !! i = Some x → result !! S i = Some y →
     timestamp x < timestamp y) ∧
  NoDup (timestamp <$> result).
Proof.
  intros result.
  assert (strictly_increasing result) as Hinc.
  { eapply strictly_increasing_sublist; [apply get_range_sublist|].
    apply well_formed_buffered, reachable_well_formed. }
  split; [done|]. split.
  - intros i x y. by apply strictly_increasing_adjacent.
  - by apply strictly_increasing_NoDup_timestamps.
Qed.

(** C7 (P2).  For [start <= end], [get_range] of a buffer in any state it
    can reach returns exactly the buffered points of the symbol whose
    timestamp lies in the closed interval [start, end], in buffer order:
    every returned point is in the interval and no buffered point of the
    interval is left out. *)
Theorem get_range_closed_interval cache_mb calls sym start end_ :
  start ≤ end_ →
  let m := run (create cache_mb) calls in
  get_range m sym start end_ =
    filter (λ p, start ≤ timestamp p ≤ end_) (buffered m sym) ∧
  (∀ p, p ∈ get_range m sym start end_ → start ≤ timestamp p ≤ end_) ∧
  (∀ p, p ∈ buffered m sym → start ≤ timestamp p ≤ end_ →
     p ∈ get_range m sym start end_).
Proof.
  intros _ m.
  assert (get_range m sym start end_ =
          filter (λ p, start ≤ timestamp p ≤ end_) (buffered m sym)) as Heq.
  { apply get_range_filter, strictly_increasing_nondecreasing.
    apply well_formed_buffered, reachable_well_formed. }
  split; [done|]. rewrite Heq. split.
  - by intros p [? _]%list_elem_of_filter.
  - intros p Hp Hr. by apply list_elem_of_filter.
Qed.

End Reachable.

End MemoryFacts.

(** A run of the closed-interval property on the sample history. *)
Lemma get_range_closed_interval_witness :
  3000 ≤ 4000 ∧
  Memory.get_range
    (MemoryInvariant.run (Memory.create 64) Sample.memory_calls) "AAPL" 3000 4000 =
  [Sample.point "AAPL" 3 3; Sample.point "AAPL" 4 5].
Proof.
  split; [lia|].
  destruct (MemoryFacts.get_range_closed_interval 64 Sample.memory_calls "AAPL" 3000 4000)
    as (Heq & _ & _); [lia|].
  rewrite Heq. vm_compute. reflexivity.
Defined.

(** ** The mutex of the disk layer *)

Module DiskLockFacts.
Import DiskLocks.

Section WithSort.
Context `{Codec} `{StdSort}.

Lemma write_segment_not_owned d sym pts segment_id :
  write_segment NotOwned d sym pts segment_id = Disk.write_segment d sym pts segment_id.
Proof.
  unfold write_segment. destruct pts as [|p pts]; [done|]. simpl lock.
  by destruct (Disk.write_segment d sym (p :: pts) segment_id) as [[[]|x] d'].
Qed.

Lemma write_groups_not_owned gs : ∀ d,
  write_groups NotOwned d gs = Disk.write_groups d gs.
Proof.
  induction gs as [|g gs IH]; intros d; [done|]. simpl.
  unfold write_group, Disk.write_group. simpl lock_shared.
  rewrite write_segment_not_owned.
  destruct (Disk.write_segment d g.1 _ _) as [[[]|x] d']; [apply IH|done].
Qed.

(** X21.  The write path never locks a mutex it holds.  Followed with
    the ownership of the [std::shared_mutex] of the disk layer,
    [DiskLayer::write_batch] called by a thread that owns nothing of it
    does exactly what it does with the locks erased: the shared lock for
    the choice of the segment id is released before [write_segment] takes
    the exclusive one. *)
Theorem write_batch_locks_once d pts :
  write_batch NotOwned d pts = Disk.write_batch d pts.
Proof.
  unfold write_batch, Disk.write_batch. destruct pts as [|p pts]; [done|].
  by rewrite write_groups_not_owned.
Qed.

(** The shared lock is granted to a thread that holds it shared: the
    reads inside a range query are the reads of [Disk]. *)
Lemma read_segments_shared d sym keep ids :
  read_segments OwnedShared d sym ids keep = Disk.read_segments d sym ids keep.
Proof.
  induction ids as [|segment_id ids IH]; [done|]. simpl. by rewrite IH.
Qed.

Lemma range_query_not_owned d sym start end_ :
  range_query NotOwned d sym start end_ = Disk.range_query d sym start end_.
Proof.
  unfold range_query, Disk.range_query. simpl.
  destruct (Disk.metadata d !! sym) as [segs|]; [|done].
  by rewrite read_segments_shared.
Qed.

(** X22.  A range query takes the shared lock twice, and gets it.
    [range_query] holds the shared lock of the layer while it calls
    [read_segment], which asks for it again; the platform grants a shared
    lock to the thread that has one.  So [DiskLayer::read_range] called
    by a thread that owns nothing of the mutex never fails on it, and
    returns exactly what it returns with the locks erased. *)
Theorem read_range_locks_twice d sym start end_ :
  read_range NotOwned d sym start end_ = Disk.read_range d sym start end_.
Proof. apply range_query_not_owned. Qed.

(** It is refused to the thread that holds the exclusive lock. *)
Lemma read_segments_exclusive d sym segment_id ids keep :
  read_segments OwnedExclusive d sym (segment_id :: ids) keep = Throw deadlock_avoided.
Proof. done. Qed.

Lemma has_segments_spec d sym :
  has_segments d sym = true ↔ ∃ segs, Disk.metadata d !! sym = Some segs ∧ segs ≠ ∅.
Proof.
  unfold has_segments. destruct (Disk.metadata d !! sym) as [segs|].
  - rewrite negb_true_iff, bool_decide_eq_false. split.
    + intros Hne. by exists segs.
    + by intros (segs' & [= <-] & Hne).
  - split; [done|]. by intros (segs' & [=] & _).
Qed.

Lemma optimize_segments_not_owned d sym :
  optimize_segments NotOwned d sym =
  if has_segments d sym then (Throw deadlock_avoided, d) else (Ret (), d).
Proof.
  unfold optimize_segments, has_segments. simpl.
  destruct (Disk.metadata d !! sym) as [segs|]; [|done].
  case_bool_decide as Hsegs; simpl.
  - subst segs. by rewrite map_to_list_empty.
  - destruct (map_to_list segs) as [|s l] eqn:Hl; [by apply map_to_list_empty_iff in Hl|].
    done.
Qed.

Lemma optimize_symbol_not_owned d sym :
  optimize_symbol NotOwned d sym =
  if has_segments d sym then (Throw deadlock_avoided, d) else (Ret (), d).
Proof.
  unfold optimize_symbol, has_segments. simpl.
  destruct (Disk.metadata d !! sym) as [segs|]; [|done].
  case_bool_decide as Hsegs; simpl.
  - subst segs. by rewrite map_to_list_empty.
  - destruct (map_to_list segs) as [|s l] eqn:Hl; [by apply map_to_list_empty_iff in Hl|].
    done.
Qed.

Lemma optimize_symbols_not_owned d syms :
  optimize_symbols NotOwned d syms = (Ret (), d).
Proof.
  induction syms as [|sym syms IH]; [done|]. simpl. rewrite optimize_symbol_not_owned.
  destruct (has_segments d sym); [|exact IH]. simpl. exact IH.
Qed.

Lemma optimize_index_not_owned d : optimize_index NotOwned d = (Ret (), d).
Proof. unfold optimize_index. simpl. apply optimize_symbols_not_owned. Qed.

(** X7.  [compact_segments] stops at its first read.  The function takes
    the exclusive lock of the layer and, still holding it, calls
    [read_segment], which asks for the shared one and is refused: for a
    symbol with at least one segment the call ends in a
    [std::system_error] before any file is read or unlinked, and index
    and directory are as they were.  It returns, having done nothing,
    exactly when the index has no segment for the symbol. *)
Theorem compact_segments_stops_at_first_read d sym :
  compact_segments NotOwned d sym =
  match Disk.metadata d !! sym with
  | None => (Ret (), d)
  | Some segs =>
    if decide (segs = ∅) then (Ret (), d) else (Throw deadlock_avoided, d)
  end.
Proof.
  unfold compact_segments. rewrite optimize_segments_not_owned. unfold has_segments.
  destruct (Disk.metadata d !! sym) as [segs|]; [|done].
  by destruct (decide (segs = ∅)) as [Hsegs|Hsegs];
    [rewrite bool_decide_eq_true_2|rewrite bool_decide_eq_false_2].
Qed.

(** X9.  [optimize_index] changes nothing.  For every symbol its loop
    takes the exclusive lock and then calls [read_segment], which is
    refused the shared one; the [std::system_error] is caught with the
    other [std::exception]s and the loop goes on.  So the call returns
    for every store, and index and directory are afterwards exactly what
    they were: no file is unlinked or written, no duplicate removed, and
    every range query answers as before. *)
Theorem optimize_index_changes_nothing d :
  optimize_index NotOwned d = (Ret (), d) ∧
  ∀ sym start end_,
    Disk.read_range (optimize_index NotOwned d).2 sym start end_ =
    Disk.read_range d sym start end_.
Proof.
  split; [apply optimize_index_not_owned|].
  intros sym start end_. by rewrite optimize_index_not_owned.
Qed.

End WithSort.
End DiskLockFacts.

(** ** The storage engine: flush, write_point and the counters *)

Module EngineFacts.
Import Engine EngineInvariant.

Section WithCodec.
Context `{Codec}.

Lemma with_memory_same e : with_memory e (memory_layer e) = e.
Proof. by destruct e. Qed.

Lemma with_disk_same e : with_disk e (disk_layer e) = e.
Proof. by destruct e. Qed.

Lemma points_to_flush_buffered m :
  MemoryInvariant.well_formed m →
  points_to_flush m = mjoin (Memory.buffered m <$> Memory.get_symbols m).
Proof.
  intros Hm. unfold points_to_flush. f_equal.
  apply list_fmap_ext. intros _ sym _.
  apply MemoryFacts.get_range_full, strictly_increasing_nondecreasing.
  by apply MemoryFacts.well_formed_buffered.
Qed.

Lemma points_to_flush_empty m :
  (∀ sym, Memory.buffered m sym = []) → points_to_flush m = [].
Proof.
  intros Hempty. unfold points_to_flush.
  induction (Memory.get_symbols m) as [|sym syms IH]; [done|].
  csimpl. rewrite IH, app_nil_r. rewrite MemoryFacts.get_range_slice.
  by rewrite Hempty.
Qed.

Lemma points_to_flush_nil_empty m :
  MemoryInvariant.well_formed m → points_to_flush m = [] →
  ∀ sym, Memory.buffered m sym = [].
Proof.
  intros Hm Hnil sym. rewrite points_to_flush_buffered in Hnil by done.
  unfold Memory.buffered.
  destruct (Memory.symbol_data m !! sym) as [sd|] eqn:Hsd; [|done].
  assert (sym ∈ Memory.get_symbols m) as Hin.
  { unfold Memory.get_symbols. apply list_elem_of_fmap.
    exists (sym, sd). split; [done|]. by apply elem_of_map_to_list. }
  apply list_elem_of_lookup in Hin as [i Hi].
  assert (Memory.buffered m sym ∈ Memory.buffered m <$> Memory.get_symbols m) as Hb.
  { apply list_elem_of_fmap. exists sym. split; [done|].
    by eapply list_elem_of_lookup_2. }
  rewrite <- (MemoryFacts.buffered_lookup m sym sd Hsd).
  destruct (Memory.buffered m sym) as [|p l] eqn:Hbuf; [done|].
  exfalso.
  assert (p ∈ mjoin (Memory.buffered m <$> Memory.get_symbols m)) as Hp.
  { apply list_elem_of_join. exists (p :: l). split; [by left|done]. }
  rewrite Hnil in Hp. by apply elem_of_nil in Hp.
Qed.

Section WithSort.
Context `{StdSort}.

(** The three ways [flush] can end. *)
Lemma flush_nothing e :
  points_to_flush (memory_layer e) = [] → flush e = (Ret true, e).
Proof. unfold flush. by intros ->. Qed.

Lemma flush_written e d' :
  points_to_flush (memory_layer e) ≠ [] →
  flush_write e = (Ret true, d') →
  flush e = (Ret true, with_memory (with_disk e d') (Memory.clear_cache (memory_layer e))).
Proof.
  unfold flush, flush_write. intros Hne Hw.
  destruct (points_to_flush (memory_layer e)) as [|p pts]; [done|].
  by rewrite Hw.
Qed.

Lemma flush_thrown e x d' :
  flush_write e = (Throw x, d') → flush e = (Throw x, with_disk e d').
Proof.
  unfold flush, flush_write. intros Hw.
  destruct (points_to_flush (memory_layer e)) as [|p pts]; [done|].
  by rewrite Hw.
Qed.

(** The segment store never answers [false]: it returns [true] or throws. *)
Lemma disk_write_batch_never_false d pts :
  (Disk.write_batch d pts).1 ≠ Ret false.
Proof.
  unfold Disk.write_batch. destruct pts as [|p pts]; [done|].
  by destruct (Disk.write_groups d _) as [[[]|x] d'].
Qed.

Lemma flush_never_false e : (flush e).1 ≠ Ret false.
Proof.
  unfold flush. destruct (points_to_flush (memory_layer e)) as [|p pts]; [done|].
  pose proof (disk_write_batch_never_false (disk_layer e) (p :: pts)) as Hw.
  destruct (Disk.write_batch (disk_layer e) (p :: pts)) as [[[]|x] d']; done.
Qed.

Lemma memory_layer_flush e :
  memory_layer (flush e).2 = memory_layer e ∨
  memory_layer (flush e).2 = Memory.clear_cache (memory_layer e).
Proof.
  unfold flush. destruct (points_to_flush (memory_layer e)) as [|p pts]; [by left|].
  destruct (Disk.write_batch (disk_layer e) (p :: pts)) as [[[]|x] d']; simpl; auto.
Qed.

Lemma flush_well_formed e :
  MemoryInvariant.well_formed (memory_layer e) →
  MemoryInvariant.well_formed (memory_layer (flush e).2).
Proof.
  intros He. destruct (memory_layer_flush e) as [-> | ->]; [done|].
  apply MemoryFacts.clear_cache_well_formed.
Qed.

Lemma write_point_well_formed e p :
  MemoryInvariant.well_formed (memory_layer e) →
  MemoryInvariant.well_formed (memory_layer (write_point e p).2).
Proof.
  intros He. unfold write_point.
  pose proof (MemoryFacts.insert_well_formed (memory_layer e) p He) as Hm.
  destruct (Memory.insert (memory_layer e) p) as [[] m']; simpl in *; [|done].
  destruct (max_memory_points (config e) <=? Memory.cache_size m'); [|done].
  by apply flush_well_formed.
Qed.

Lemma write_batch_well_formed e pts :
  MemoryInvariant.well_formed (memory_layer e) →
  MemoryInvariant.well_formed (memory_layer (write_batch e pts).2).
Proof.
  intros He. unfold write_batch. destruct pts as [|p pts]; [done|].
  pose proof (MemoryFacts.insert_batch_well_formed (memory_layer e) (p :: pts) He) as Hm.
  destruct (Memory.insert_batch (memory_layer e) (p :: pts)) as [[] m']; simpl in *; [|done].
  destruct (max_memory_points (config e) <=? Memory.cache_size m'); [|done].
  by apply flush_well_formed.
Qed.

Lemma optimize_well_formed e :
  MemoryInvariant.well_formed (memory_layer e) →
  MemoryInvariant.well_formed (memory_layer (optimize e).2).
Proof.
  intros He. unfold optimize. pose proof (flush_well_formed e He) as Hf.
  destruct (flush e) as [[b|x] e']; simpl in *; [|done].
  by rewrite DiskLockFacts.optimize_index_not_owned.
Qed.

Lemma engine_perform_well_formed e c :
  MemoryInvariant.well_formed (memory_layer e) →
  MemoryInvariant.well_formed (memory_layer (perform e c)).
Proof.
  intros He. destruct c; simpl; try done.
  - by apply write_point_well_formed.
  - by apply write_batch_well_formed.
  - by apply flush_well_formed.
  - by apply optimize_well_formed.
Qed.

(** Every state the engine reaches keeps M1 and M2 in its buffer. *)
Lemma engine_run_well_formed calls : ∀ e,
  MemoryInvariant.well_formed (memory_layer e) →
  MemoryInvariant.well_formed (memory_layer (run e calls)).
Proof.
  induction calls as [|c calls IH]; intros e He; [done|].
  apply IH. by apply engine_perform_well_formed.
Qed.

Lemma create_initial cfg dir can_create e0 :
  create cfg dir can_create = Ret e0 →
  memory_layer e0 = Memory.create (memory_cache_size_mb cfg) ∧
  total_points e0 = 0 ∧ cache_hits e0 = 0 ∧ cache_misses e0 = 0.
Proof.
  unfold create. destruct (Disk.create dir can_create Disk.default_config) as [d|x];
    simpl; [|done].
  by intros [= <-].
Qed.

(** *** The hit and miss counters *)

Lemma flush_counters e :
  cache_hits (flush e).2 = cache_hits e ∧ cache_misses (flush e).2 = cache_misses e.
Proof.
  unfold flush. destruct (points_to_flush (memory_layer e)) as [|p pts]; [done|].
  by destruct (Disk.write_batch (disk_layer e) (p :: pts)) as [[[]|x] d'].
Qed.

Lemma write_point_counters e p :
  cache_hits (write_point e p).2 = cache_hits e ∧
  cache_misses (write_point e p).2 = cache_misses e.
Proof.
  unfold write_point.
  destruct (Memory.insert (memory_layer e) p) as [[] m']; [|done].
  destruct (max_memory_points (config e) <=? Memory.cache_size m'); [|done].
  match goal with |- context [flush ?e'] => by destruct (flush_counters e') as [-> ->] end.
Qed.

Lemma write_batch_counters e pts :
  cache_hits (write_batch e pts).2 = cache_hits e ∧
  cache_misses (write_batch e pts).2 = cache_misses e.
Proof.
  unfold write_batch. destruct pts as [|p pts]; [done|].
  destruct (Memory.insert_batch (memory_layer e) (p :: pts)) as [[] m']; [|done].
  destruct (max_memory_points (config e) <=? Memory.cache_size m'); [|done].
  match goal with |- context [flush ?e'] => by destruct (flush_counters e') as [-> ->] end.
Qed.

Lemma optimize_counters e :
  cache_hits (optimize e).2 = cache_hits e ∧
  cache_misses (optimize e).2 = cache_misses e.
Proof.
  unfold optimize. pose proof (flush_counters e) as Hf.
  destruct (flush e) as [[b|x] e']; simpl in *; [|done].
  by rewrite DiskLockFacts.optimize_index_not_owned.
Qed.

Lemma perform_counters e c :
  cache_hits (perform e c) = cache_hits e ∧
  cache_misses (perform e c) = cache_misses e.
Proof.
  destruct c; simpl; try done.
  - apply write_point_counters.
  - apply write_batch_counters.
  - apply flush_counters.
  - apply optimize_counters.
Qed.

Lemma run_counters calls : ∀ e,
  cache_hits (run e calls) = cache_hits e ∧
  cache_misses (run e calls) = cache_misses e.
Proof.
  induction calls as [|c calls IH]; intros e; [done|].
  simpl. destruct (IH (perform e c)) as [-> ->]. apply perform_counters.
Qed.

(** C9.  In every state the engine reaches from its construction, over
    whatever data directory and by whatever calls of its interface,
    [get_stats] reports no cache hit, no cache miss and a hit ratio of
    [0.0]: no call changes either counter. *)
Theorem get_stats_cache_counters_zero cfg dir can_create e0 calls :
  create cfg dir can_create = Ret e0 →
  let stats := get_stats (run e0 calls) in
  Stats.cache_hits stats = 0 ∧
  Stats.cache_misses stats = 0 ∧
  Stats.cache_hit_ratio stats = double_zero.
Proof.
  intros (_ & _ & Hhits & Hmisses)%create_initial stats.
  destruct (run_counters calls e0) as [Hh Hm].
  unfold stats, get_stats, get_cache_hit_ratio. simpl.
  rewrite Hh, Hm, Hhits, Hmisses. done.
Qed.

(** *** flush *)

(** C10.  When the buffer of the engine holds no point, [flush] returns
    [true] and the engine is left exactly as it was: in particular the
    directory and the segment index of the disk layer are unchanged. *)
Theorem flush_empty_buffer e :
  memory_empty e →
  flush e = (Ret true, e) ∧
  Disk.data_dir (disk_layer (flush e).2) = Disk.data_dir (disk_layer e) ∧
  Disk.metadata (disk_layer (flush e).2) = Disk.metadata (disk_layer e).
Proof.
  intros Hempty.
  assert (flush e = (Ret true, e)) as Hflush.
  { apply flush_nothing, points_to_flush_empty, Hempty. }
  by rewrite Hflush.
Qed.

Lemma memory_empty_cleared e d' :
  memory_empty (with_memory (with_disk e d') (Memory.clear_cache (memory_layer e))).
Proof. intros sym. simpl. apply MemoryFacts.buffered_clear_cache. Qed.

Lemma flush_write_nothing e :
  points_to_flush (memory_layer e) = [] →
  flush_write e = (Ret true, disk_layer e).
Proof. unfold flush_write. by intros ->. Qed.

(** C3, as the code has it.  [flush] empties the buffer exactly when the
    segment store wrote the collected points.  If the write returns, so
    does [flush], with [true] and an empty buffer.  If the write fails it
    throws - it has no other way to fail - and [flush] lets the exception
    through instead of returning [false]; the buffer is then exactly what
    it was before the call. *)
Theorem flush_clears_iff_written e :
  MemoryInvariant.well_formed (memory_layer e) →
  (memory_empty (flush e).2 ↔ ∃ d', flush_write e = (Ret true, d')) ∧
  (∀ d', flush_write e = (Ret true, d') → (flush e).1 = Ret true) ∧
  (∀ x d', flush_write e = (Throw x, d') →
     (flush e).1 = Throw x ∧ memory_layer (flush e).2 = memory_layer e) ∧
  (flush e).1 ≠ Ret false.
Proof.
  intros He.
  destruct (points_to_flush (memory_layer e)) as [|p0 pts0] eqn:Hpts.
  { rewrite (flush_nothing e Hpts), (flush_write_nothing e Hpts). simpl.
    repeat split; try done.
    - intros _. by exists (disk_layer e).
    - intros _ sym. by apply points_to_flush_nil_empty. }
  assert (points_to_flush (memory_layer e) ≠ []) as Hne by (by rewrite Hpts).
  pose proof (disk_write_batch_never_false (disk_layer e)
                (points_to_flush (memory_layer e))) as Hnf.
  fold (flush_write e) in Hnf.
  destruct (flush_write e) as [[[]|x] d'] eqn:Hw; [|done|].
  - rewrite (flush_written e d' Hne Hw). simpl. repeat split; try done.
    + intros _. by exists d'.
    + intros _. apply memory_empty_cleared.
  - rewrite (flush_thrown e x d' Hw). simpl. repeat split; try done.
    + intros Hempty. exfalso. apply Hne. apply points_to_flush_empty, Hempty.
    + by intros [d'' ?].
    + congruence.
Qed.

(** *** write_point *)

(** C5.  In a buffer that keeps its invariants, a point whose timestamp is
    already there for its symbol is refused: [insert] returns [false] and
    leaves the buffer as it is, and [write_point] returns [false] and
    leaves the whole engine as it is - the point counter is not
    incremented and nothing is flushed.  A point whose timestamp is new
    for its symbol is admitted: [insert] returns [true] and the sequence
    of the symbol becomes the old one with the point put between the
    earlier and the later timestamps. *)
Theorem write_point_duplicate_or_new e p :
  MemoryInvariant.well_formed (memory_layer e) →
  let m := memory_layer e in
  let v := Memory.buffered m (symbol p) in
  ((∃ q, q ∈ v ∧ timestamp q =@{Z} timestamp p) →
     Memory.insert m p = (false, m) ∧
     write_point e p = (Ret false, e)) ∧
  ((∀ q, q ∈ v → timestamp q ≠@{Z} timestamp p) →
     ∃ before after,
       v = before ++ after ∧
       Forall (λ q, timestamp q < timestamp p) before ∧
       Forall (λ q, timestamp p < timestamp q) after ∧
       (Memory.insert m p).1 = true ∧
       Memory.buffered (Memory.insert m p).2 (symbol p) = before ++ p :: after ∧
       strictly_increasing (before ++ p :: after)).
Proof.
  intros He m v. split.
  - intros (q & Hq & Heq).
    assert (Memory.insert m p = (false, m)) as Hins.
    { by apply (MemoryFacts.insert_duplicate m p q). }
    split; [done|]. unfold write_point. fold m. rewrite Hins.
    by rewrite with_memory_same.
  - intros Hnew.
    destruct (MemoryFacts.insert_fresh m p He Hnew) as (Hret & Hown & _).
    destruct (MemoryFacts.well_formed_buffered m (symbol p) He) as [Hinc _].
    destruct (MemoryFacts.insert_position_increasing v p Hinc Hnew)
      as (Hbefore & Hafter & Hsorted).
    eexists _, _. split; [symmetry; apply take_drop|]. done.
Qed.

End WithSort.
End WithCodec.
End EngineFacts.

(** ** Runs of the engine properties on the sample engines *)

Module EngineRuns.
Import Engine EngineInvariant.

Lemma create_fresh can_create :
  create SampleEngine.config ∅ can_create = Ret (SampleEngine.fresh can_create).
Proof. unfold create, Disk.create, Disk.load_existing_segments. by rewrite map_to_list_empty. Qed.

Lemma fresh_well_formed can_create :
  MemoryInvariant.well_formed (memory_layer (SampleEngine.fresh can_create)).
Proof. apply MemoryFacts.well_formed_create. Qed.

Lemma get_stats_cache_counters_zero_witness :
  create SampleEngine.config ∅ SampleEngine.writable
    = Ret (SampleEngine.fresh SampleEngine.writable) ∧
  Stats.cache_hit_ratio
    (get_stats (run (SampleEngine.fresh SampleEngine.writable) SampleCalls.session))
    = double_zero.
Proof.
  split; [apply create_fresh|].
  apply (EngineFacts.get_stats_cache_counters_zero SampleEngine.config ∅
           SampleEngine.writable _ SampleCalls.session
           (create_fresh SampleEngine.writable)).
Defined.

Lemma flush_empty_buffer_witness :
  memory_empty (SampleEngine.fresh SampleEngine.writable) ∧
  flush (SampleEngine.fresh SampleEngine.writable)
    = (Ret true, SampleEngine.fresh SampleEngine.writable).
Proof.
  assert (memory_empty (SampleEngine.fresh SampleEngine.writable)) as Hempty.
  { intros sym. unfold Memory.buffered. simpl. by rewrite lookup_empty. }
  split; [exact Hempty|].
  apply (EngineFacts.flush_empty_buffer _ Hempty).
Defined.

Lemma stuck_well_formed : MemoryInvariant.well_formed (memory_layer SampleEngine.stuck).
Proof. apply EngineFacts.write_point_well_formed, fresh_well_formed. Qed.

Lemma loaded_well_formed : MemoryInvariant.well_formed (memory_layer SampleEngine.loaded).
Proof. apply EngineFacts.write_batch_well_formed, fresh_well_formed. Qed.

(** The buffer of [stuck] holds a point and its directory refuses every
    file: the write throws, and so does [flush]. *)
Lemma flush_stuck :
  (flush_write SampleEngine.stuck).1
    = Throw (runtime_error "Failed to create segment file: AAPL_0.seg") ∧
  (flush SampleEngine.stuck).1
    = Throw (runtime_error "Failed to create segment file: AAPL_0.seg").
Proof. split; vm_compute; reflexivity. Qed.

(** C3 as the specification words it fails: here the write fails and
    [flush] does not return [false]. *)
Lemma flush_failure_does_not_return_false :
  ¬ (∀ e : StorageEngine,
       MemoryInvariant.well_formed (memory_layer e) →
       returned (flush_write e).1 = false →
       (flush e).1 = Ret false ∧ memory_layer (flush e).2 = memory_layer e).
Proof.
  intros Hclaim.
  destruct (Hclaim SampleEngine.stuck stuck_well_formed) as [Hfalse _].
  - destruct flush_stuck as [-> _]. reflexivity.
  - destruct flush_stuck as [_ Hthrown]. rewrite Hthrown in Hfalse. discriminate Hfalse.
Qed.

Lemma flush_clears_iff_written_witness :
  MemoryInvariant.well_formed (memory_layer SampleEngine.stuck) ∧
  memory_layer (flush SampleEngine.stuck).2 = memory_layer SampleEngine.stuck.
Proof.
  split; [exact stuck_well_formed|].
  destruct (EngineFacts.flush_clears_iff_written SampleEngine.stuck stuck_well_formed)
    as (_ & _ & Hthrown & _).
  destruct (flush_write SampleEngine.stuck) as [[b|x] d'] eqn:Hw.
  - exfalso. destruct flush_stuck as [Hs _]. rewrite Hw in Hs. discriminate Hs.
  - by destruct (Hthrown x d').
Defined.

Lemma write_point_duplicate_or_new_witness :
  MemoryInvariant.well_formed (memory_layer SampleEngine.loaded) ∧
  write_point SampleEngine.loaded (Sample.point "AAPL" 5 9)
    = (Ret false, SampleEngine.loaded).
Proof.
  split; [exact loaded_well_formed|].
  destruct (EngineFacts.write_point_duplicate_or_new SampleEngine.loaded
              (Sample.point "AAPL" 5 9) loaded_well_formed) as [Hdup _].
  apply Hdup. exists (Sample.point "AAPL" 5 1).
  split; [|reflexivity]. vm_compute. apply list_elem_of_In. simpl. auto.
Defined.

End EngineRuns.

(** ** Names of segment files *)

Lemma chars_app (s1 s2 : string) :
  list_ascii_of_string (s1 +:+ s2) = list_ascii_of_string s1 ++ list_ascii_of_string s2.
Proof. induction s1 as [|a s1 IH]; [done|]. simpl. by rewrite IH. Qed.

Lemma chars_inj (s1 s2 : string) :
  list_ascii_of_string s1 = list_ascii_of_string s2 → s1 = s2.
Proof.
  intros Heq. rewrite <- (string_of_list_ascii_of_string s1), Heq.
  apply string_of_list_ascii_of_string.
Qed.

Lemma split_at_first (c : ascii) (a a' b b' : list ascii) :
  c ∉ a → c ∉ a' → a ++ c :: b = a' ++ c :: b' → a = a' ∧ b = b'.
Proof.
  revert a'. induction a as [|x a IH]; intros [|x' a'] Ha Ha' Heq; simpl in *.
  - by simplify_eq.
  - simplify_eq. exfalso. apply Ha'. by left.
  - simplify_eq. exfalso. apply Ha. by left.
  - injection Heq as -> Heq. rewrite not_elem_of_cons in Ha, Ha'.
    destruct Ha as [_ Ha]. destruct Ha' as [_ Ha'].
    by destruct (IH a' Ha Ha' Heq) as [-> ->].
Qed.

Lemma split_at_last (c : ascii) (a a' b b' : list ascii) :
  c ∉ b → c ∉ b' → a ++ c :: b = a' ++ c :: b' → a = a' ∧ b = b'.
Proof.
  intros Hb Hb' Heq. apply (f_equal reverse) in Heq.
  rewrite !reverse_app, !reverse_cons, <- !app_assoc in Heq. simpl in Heq.
  apply split_at_first in Heq as [H1 H2].
  - split; [by apply (inj reverse)|by apply (inj reverse)].
  - by rewrite elem_of_reverse.
  - by rewrite elem_of_reverse.
Qed.

Lemma pretty_N_char_digit (x : N) : pretty_N_char x ≠ "_"%char.
Proof. unfold pretty_N_char. by repeat case_match. Qed.

Lemma pretty_N_go_underscore (x : N) : ∀ s,
  "_"%char ∉ list_ascii_of_string s →
  "_"%char ∉ list_ascii_of_string (pretty_N_go x s).
Proof.
  induction (N.lt_wf_0 x) as [x _ IH]. intros s Hs.
  destruct (decide (x = 0)%N) as [->|Hx]; [by rewrite pretty_N_go_0|].
  rewrite pretty_N_go_step by lia. apply IH.
  - apply N.div_lt; lia.
  - simpl. rewrite not_elem_of_cons. split; [|done].
    intros Heq. by apply (pretty_N_char_digit (x `mod` 10)%N).
Qed.

Lemma to_string_underscore (n : Z) : "_"%char ∉ list_ascii_of_string (to_string n).
Proof.
  unfold to_string, pretty, pretty_N. case_decide.
  - simpl. by intros [?|?%elem_of_nil]%elem_of_cons.
  - apply pretty_N_go_underscore. simpl. apply not_elem_of_nil.
Qed.

Lemma segment_file_name_inj sym sym' n n' :
  0 ≤ n → 0 ≤ n' →
  Disk.segment_file_name sym n = Disk.segment_file_name sym' n' → sym = sym' ∧ n = n'.
Proof.
  intros Hn Hn' Heq. unfold Disk.segment_file_name in Heq.
  apply (f_equal list_ascii_of_string) in Heq. rewrite !chars_app in Heq.
  rewrite !app_assoc in Heq. apply app_inv_tail in Heq.
  rewrite <- !app_assoc in Heq. simpl in Heq. apply split_at_last in Heq as [Hs Hd]; try apply to_string_underscore.
  split; [by apply chars_inj|].
  apply chars_inj in Hd. unfold to_string in Hd. apply (inj pretty) in Hd. lia.
Qed.

(** ** The segment store: range queries *)

Module DiskFacts.
Import Disk DiskInvariant.

Lemma filter_mjoin (f : TimeSeriesPoint → bool) (ls : list (list TimeSeriesPoint)) :
  List.filter f (mjoin ls) = mjoin (List.filter f <$> ls).
Proof.
  induction ls as [|l ls IH]; [done|].
  csimpl. by rewrite List.filter_app, IH.
Qed.

Lemma in_query_spec start end_ p :
  in_query start end_ p = true ↔ start ≤ timestamp p ∧ timestamp p < end_.
Proof. unfold in_query. rewrite andb_true_iff, Z.leb_le, Z.ltb_lt. done. Qed.

Lemma list_filter_nil (f : TimeSeriesPoint → bool) l :
  Forall (λ p, f p = false) l → List.filter f l = [].
Proof. induction 1 as [|p l Hp _ IH]; [done|]. simpl. by rewrite Hp. Qed.

Section WithCodec.
Context `{Codec}.

Lemma segment_points_read d sym segment_id pts :
  read_segment d sym segment_id = Ret pts → segment_points d sym segment_id = pts.
Proof. unfold segment_points. by intros ->. Qed.

Lemma read_segments_returned d sym keep ids :
  Forall (λ segment_id, returned (read_segment d sym segment_id) = true) ids →
  read_segments d sym ids keep =
  Ret (mjoin ((λ segment_id, List.filter keep (segment_points d sym segment_id)) <$> ids)).
Proof.
  induction 1 as [|segment_id ids Hid _ IH]; [done|].
  csimpl. unfold segment_points at 1.
  destruct (read_segment d sym segment_id) as [pts|x]; [|done].
  simpl. by rewrite IH.
Qed.

(** A segment whose bounds miss the query interval has no point in it. *)
Lemma outside_segment_filtered info pts start end_ :
  Forall (in_segment_bounds info) pts →
  (start_time info <=? end_) && (start <=? end_time info) = false →
  List.filter (in_query start end_) pts = [].
Proof.
  intros Hpts Hout. apply list_filter_nil.
  eapply Forall_impl; [exact Hpts|]. intros p [Hlo Hhi].
  apply not_true_is_false. rewrite in_query_spec.
  apply andb_false_iff in Hout. rewrite Z.leb_gt in Hout. rewrite Z.leb_gt in Hout.
  lia.
Qed.

Lemma relevant_segments_suffice d sym start end_ (l : list (Z * SegmentInfo)) :
  Forall (λ s, Forall (in_segment_bounds s.2) (segment_points d sym s.1)) l →
  mjoin ((λ segment_id, List.filter (in_query start end_) (segment_points d sym segment_id))
           <$> (List.filter (λ s : Z * SegmentInfo,
                   (start_time s.2 <=? end_) && (start <=? end_time s.2)) l).*1) =
  mjoin ((λ segment_id, List.filter (in_query start end_) (segment_points d sym segment_id))
           <$> l.*1).
Proof.
  induction 1 as [|s l Hs _ IH]; [done|]. simpl.
  destruct ((start_time s.2 <=? end_) && (start <=? end_time s.2)) eqn:Hrel.
  - csimpl. by rewrite IH.
  - csimpl. rewrite IH.
    by rewrite (outside_segment_filtered s.2 _ start end_ Hs Hrel).
Qed.

Lemma list_filter_true (l : list TimeSeriesPoint) : List.filter (λ _, true) l = l.
Proof. induction l as [|p l IH]; [done|]. simpl. by rewrite IH. Qed.

Lemma filter_all_segments d sym f ids :
  List.filter f (mjoin ((λ segment_id,
      List.filter (λ _, true) (segment_points d sym segment_id)) <$> ids)) =
  mjoin ((λ segment_id, List.filter f (segment_points d sym segment_id)) <$> ids).
Proof.
  induction ids as [|segment_id ids IH]; [done|].
  csimpl. by rewrite List.filter_app, list_filter_true, IH.
Qed.

Lemma filter_segment_points d sym f ids :
  List.filter f (mjoin (segment_points d sym <$> ids)) =
  mjoin ((λ segment_id, List.filter f (segment_points d sym segment_id)) <$> ids).
Proof.
  induction ids as [|segment_id ids IH]; [done|].
  csimpl. by rewrite List.filter_app, IH.
Qed.

Lemma readable_segments d sym segs :
  readable d sym → metadata d !! sym = Some segs →
  Forall (λ s, returned (read_segment d sym s.1) = true ∧
               Forall (in_segment_bounds s.2) (segment_points d sym s.1))
         (map_to_list segs).
Proof.
  intros Hr Hsegs. apply Forall_forall. intros [segment_id info] Hin.
  apply elem_of_map_to_list in Hin.
  destruct (Hr segs segment_id info Hsegs Hin) as (pts & Hread & Hbounds). simpl.
  rewrite (segment_points_read _ _ _ _ Hread). by rewrite Hread.
Qed.

Section WithSort.
Context `{StdSort}.

(** A range query of a symbol whose segments can be read and lie within
    their recorded bounds: the segments the bounds leave out hold no
    point of the interval. *)
Lemma range_query_readable d sym start end_ :
  readable d sym →
  range_query d sym start end_ =
  Ret (sort_by_timestamp
         (List.filter (in_query start end_) (DiskSoundness.stored d sym))).
Proof.
  intros Hr. unfold range_query, DiskSoundness.stored.
  destruct (metadata d !! sym) as [segs|] eqn:Hsegs.
  - pose proof (readable_segments d sym segs Hr Hsegs) as Hall.
    unfold relevant_segments. rewrite read_segments_returned.
    + simpl. rewrite relevant_segments_suffice.
      * by rewrite filter_segment_points.
      * eapply Forall_impl; [exact Hall|]. by intros s [_ ?].
    + apply Forall_fmap. apply Forall_forall. intros s Hs%list_elem_of_In.
      apply List.filter_In in Hs as [Hs%list_elem_of_In _].
      rewrite Forall_forall in Hall. by destruct (Hall s Hs).
  - simpl. by rewrite sort_by_timestamp_nil.
Qed.


End WithSort.
End WithCodec.
End DiskFacts.

(** ** The segment store: writing segments *)

Module DiskWrites.
Import Disk DiskInvariant DiskSoundness.

(** A point comes back from a segment with its timestamp cut down to
    whole microseconds and with the symbol of the segment. *)
Lemma stored_form_timestamp sym p :
  timestamp (stored_form sym p) =@{Z} microsecond_floor (timestamp p).
Proof.
  unfold stored_form, of_TimePoint, to_TimePoint, microsecond_floor, of_microseconds.
  simpl. f_equal. f_equal.
  apply int64_wrap_in_range, to_microseconds_bounds, time_point_bounds.
Qed.

Lemma stored_form_whole sym p :
  has_symbol sym p → whole_microseconds (timestamp p) → stored_form sym p = p.
Proof.
  intros Hsym Hw.
  pose proof (stored_form_timestamp sym p) as Hts.
  rewrite microsecond_floor_whole in Hts by (apply time_point_bounds || done).
  apply time_point_eq in Hts. unfold stored_form, of_TimePoint, to_TimePoint in *.
  destruct p as [t v s]. unfold has_symbol in Hsym. cbn [timestamp value symbol tp_timestamp tp_value] in *.
  subst s. f_equal. exact Hts.
Qed.

Lemma of_to_TimePoint sym (l : list TimeSeriesPoint) :
  of_TimePoint sym <$> (to_TimePoint <$> l) = stored_form sym <$> l.
Proof. by rewrite <- list_fmap_compose. Qed.

Lemma stored_form_all_whole sym (l : list TimeSeriesPoint) :
  Forall (has_symbol sym) l → Forall (λ p, whole_microseconds (timestamp p)) l →
  stored_form sym <$> l = l.
Proof.
  induction 1 as [|p l Hp _ IH]; [done|]. intros [Hw Hl]%Forall_cons.
  csimpl. by rewrite IH, stored_form_whole.
Qed.

Lemma list_last_default (l : list TimeSeriesPoint) d :
  List.last l d = default d (last l).
Proof.
  induction l as [|x l IH]; [done|].
  destruct l as [|y l]; [done|].
  change (List.last (x :: y :: l) d) with (List.last (y :: l) d).
  by rewrite IH, last_cons_cons.
Qed.

Lemma lookup_last_default p (pts : list TimeSeriesPoint) :
  (p :: pts) !! length pts = Some (List.last (p :: pts) p).
Proof.
  rewrite list_last_default, last_lookup. simpl.
  destruct ((p :: pts) !! length pts) eqn:Hl; [done|].
  apply lookup_ge_None in Hl. simpl in Hl. lia.
Qed.

Lemma nondecreasing_bounds p pts :
  nondecreasing (p :: pts) →
  Forall (λ q, timestamp p ≤ timestamp q ≤ timestamp (List.last (p :: pts) p)) (p :: pts).
Proof.
  intros Hsorted. apply Forall_lookup. intros i q Hi.
  assert ((p :: pts) !! 0%nat = Some p) as H0 by done.
  pose proof (lookup_last_default p pts) as Hlast.
  split.
  - eapply (nondecreasing_lookup _ 0 i); eauto. lia.
  - eapply (nondecreasing_lookup _ i (length pts)); eauto.
    apply lookup_lt_Some in Hi. simpl in Hi. lia.
Qed.

Section WithCodec.
Context `{Codec}.

Lemma sound_readable d sym : sound d → readable d sym.
Proof.
  intros Hd segs segment_id info Hsegs Hinfo.
  destruct (Hd sym segment_id info) as (_ & _ & pts & Hread & _ & _ & _ & Hb).
  { by exists segs. }
  by exists pts.
Qed.

(** What a successful [write_segment] leaves behind. *)
Lemma write_segment_returned d sym p pts segment_id d' :
  write_segment d sym (p :: pts) segment_id = (Ret (), d') →
  ∃ info file f,
    file_path info = segment_file_name sym segment_id ∧
    start_time info = timestamp p ∧
    end_time info = timestamp (List.last (p :: pts) p) ∧
    metadata d' = <[sym := <[segment_id := info]> (default ∅ (metadata d !! sym))]> (metadata d) ∧
    data_dir d' = <[segment_file_name sym segment_id := file]> (data_dir d) ∧
    creatable d' = creatable d ∧ config d' = config d ∧
    opens file = true ∧ content file = SegmentBytes f ∧
    (enable_compression (config d) = true →
     decode sym info f = Ret (stored_form sym <$> (p :: pts))).
Proof.
  unfold write_segment.
  destruct (enable_compression (config d)) eqn:Hc;
    destruct (creatable d (segment_file_name sym segment_id)); try done;
    intros [= <-]; eexists _, _, _; simpl; repeat split; try done.
  intros _. unfold decode. simpl.
  rewrite codec_round_trip. f_equal.
  exact (of_to_TimePoint sym (p :: pts)).
Qed.

(** Reading a segment looks at its index entry and at its file only. *)
Lemma read_segment_frame d d' sym segs segs' segment_id info :
  metadata d !! sym = Some segs → segs !! segment_id = Some info →
  metadata d' !! sym = Some segs' → segs' !! segment_id = Some info →
  data_dir d' !! file_path info = data_dir d !! file_path info →
  read_segment d' sym segment_id = read_segment d sym segment_id.
Proof.
  intros Hs Hi Hs' Hi' Hfile. unfold read_segment.
  by rewrite Hs, Hi, Hs', Hi', Hfile.
Qed.

Lemma indexed_after_write d d' sym segment_id info sym' segment_id' info' :
  metadata d' = <[sym := <[segment_id := info]> (default ∅ (metadata d !! sym))]> (metadata d) →
  indexed d' sym' segment_id' info' →
  (sym' = sym ∧ segment_id' = segment_id ∧ info' = info) ∨
  ((sym', segment_id') ≠ (sym, segment_id) ∧ indexed d sym' segment_id' info').
Proof.
  intros Hmeta (segs & Hsegs & Hinfo). rewrite Hmeta in Hsegs.
  destruct (decide (sym' = sym)) as [->|Hsym].
  - rewrite lookup_insert_eq in Hsegs. injection Hsegs as <-.
    destruct (decide (segment_id' = segment_id)) as [->|Hid].
    + rewrite lookup_insert_eq in Hinfo. left. by injection Hinfo as <-.
    + rewrite lookup_insert_ne in Hinfo by done. right. split; [congruence|].
      destruct (metadata d !! sym) as [old|] eqn:Hold; simpl in Hinfo.
      * by exists old.
      * by rewrite lookup_empty in Hinfo.
  - rewrite lookup_insert_ne in Hsegs by done. right. split; [congruence|].
    by exists segs.
Qed.

Lemma indexed_before_write d d' sym segment_id info sym' segment_id' info' :
  metadata d' = <[sym := <[segment_id := info]> (default ∅ (metadata d !! sym))]> (metadata d) →
  indexed d sym' segment_id' info' → (sym', segment_id') ≠ (sym, segment_id) →
  indexed d' sym' segment_id' info'.
Proof.
  intros Hmeta (segs & Hsegs & Hinfo) Hne. unfold indexed. rewrite Hmeta.
  destruct (decide (sym' = sym)) as [->|Hsym].
  - rewrite lookup_insert_eq, Hsegs. simpl. eexists. split; [done|].
    rewrite lookup_insert_ne; [done|]. congruence.
  - rewrite lookup_insert_ne by done. by exists segs.
Qed.

Lemma write_segment_keeps_config d sym pts segment_id :
  config (write_segment d sym pts segment_id).2 = config d.
Proof.
  unfold write_segment. destruct pts as [|p pts]; [done|].
  destruct (enable_compression (config d));
    by destruct (creatable d (segment_file_name sym segment_id)).
Qed.

(** With compression on, a segment reads back as the run that was
    written, every point in its stored form. *)
Lemma write_segment_reads_back d sym p pts segment_id d' :
  enable_compression (config d) = true →
  write_segment d sym (p :: pts) segment_id = (Ret (), d') →
  read_segment d' sym segment_id = Ret (stored_form sym <$> (p :: pts)).
Proof.
  intros Hc Hw.
  destruct (write_segment_returned d sym p pts segment_id d' Hw)
    as (info & file & f & Hpath & _ & _ & Hmeta & Hdir & _ & _ & Hopens & Hcontent & Hdecode).
  unfold read_segment. rewrite Hmeta, lookup_insert_eq, lookup_insert_eq.
  rewrite Hdir, Hpath, lookup_insert_eq, Hopens, Hcontent. by apply Hdecode.
Qed.

(** Writing a sorted, non-empty run of such points of a symbol keeps the
    store sound, makes the run readable under the id it was written with,
    and leaves every other segment as it was. *)
Lemma write_segment_sound d sym p pts segment_id d' :
  sound d → 0 ≤ segment_id → kept_as_written d (p :: pts) →
  Forall (has_symbol sym) (p :: pts) → nondecreasing (p :: pts) →
  write_segment d sym (p :: pts) segment_id = (Ret (), d') →
  sound d' ∧
  (∃ info, metadata d' =
     <[sym := <[segment_id := info]> (default ∅ (metadata d !! sym))]> (metadata d)) ∧
  read_segment d' sym segment_id = Ret (p :: pts) ∧
  (∀ sym' segment_id' info',
     indexed d sym' segment_id' info' → (sym', segment_id') ≠ (sym, segment_id) →
     read_segment d' sym' segment_id' = read_segment d sym' segment_id').
Proof.
  intros Hd Hid [Hc Hwhole] Hsym Hsorted Hw.
  destruct (write_segment_returned d sym p pts segment_id d' Hw)
    as (info & file & f & Hpath & Hstart & Hend & Hmeta & Hdir & _ & _ & Hopens & Hcontent & Hdecode).
  assert (read_segment d' sym segment_id = Ret (p :: pts)) as Hread.
  { rewrite (write_segment_reads_back d sym p pts segment_id d' Hc Hw).
    by rewrite stored_form_all_whole. }
  assert (∀ sym' segment_id' info',
     indexed d sym' segment_id' info' → (sym', segment_id') ≠ (sym, segment_id) →
     read_segment d' sym' segment_id' = read_segment d sym' segment_id') as Hframe.
  { intros sym' segment_id' info' Hin Hne.
    destruct (indexed_before_write d d' sym segment_id info _ _ _ Hmeta Hin Hne)
      as (segs' & Hsegs' & Hinfo').
    destruct (Hd sym' segment_id' info' Hin) as (Hpath' & Hid' & _).
    destruct Hin as (segs & Hsegs & Hinfo).
    eapply read_segment_frame; eauto.
    rewrite Hdir, lookup_insert_ne; [done|].
    rewrite Hpath'. intros Heq.
    apply segment_file_name_inj in Heq as [-> ->]; [done|done..]. }
  split; [|split; [by exists info|split; [done|exact Hframe]]].
  intros sym' segment_id' info' Hin.
  destruct (indexed_after_write d d' sym segment_id info _ _ _ Hmeta Hin)
    as [(-> & -> & ->)|[Hne Hold]].
  - split; [done|]. split; [done|]. exists (p :: pts).
    repeat split; try done.
    eapply Forall_impl; [by apply nondecreasing_bounds|].
    intros q Hq. unfold in_segment_bounds. by rewrite Hstart, Hend.
  - destruct (Hd sym' segment_id' info' Hold) as (Hpath' & Hid' & pts' & Hread' & Hrest).
    split; [done|]. split; [done|]. exists pts'. split; [|done].
    by rewrite (Hframe _ _ _ Hold Hne).
Qed.

Lemma stored_unindexed d sym : metadata d !! sym = None → stored d sym = [].
Proof. unfold stored. by intros ->. Qed.

Lemma stored_same d d' sym :
  metadata d' !! sym = metadata d !! sym →
  (∀ segment_id info, indexed d sym segment_id info →
     read_segment d' sym segment_id = read_segment d sym segment_id) →
  stored d' sym = stored d sym.
Proof.
  intros Hmeta Hread. unfold stored. rewrite Hmeta.
  destruct (metadata d !! sym) as [segs|] eqn:Hsegs; [|done].
  f_equal. apply list_fmap_ext. intros _ segment_id Hin%list_elem_of_lookup_2.
  apply list_elem_of_fmap in Hin as ([k info] & Hk & Hin). simpl in Hk. subst k.
  apply elem_of_map_to_list in Hin. unfold segment_points.
  rewrite (Hread segment_id info); [done|]. by exists segs.
Qed.

(** The points of a symbol after a segment was written under an id that
    was free: the new run and what was there. *)
Lemma stored_after_write_segment d sym p pts segment_id d' :
  sound d → 0 ≤ segment_id → kept_as_written d (p :: pts) →
  Forall (has_symbol sym) (p :: pts) → nondecreasing (p :: pts) →
  default ∅ (metadata d !! sym) !! segment_id = None →
  write_segment d sym (p :: pts) segment_id = (Ret (), d') →
  stored d' sym ≡ₚ (p :: pts) ++ stored d sym ∧
  (∀ sym', sym' ≠ sym →
     stored d' sym' = stored d sym' ∧ metadata d' !! sym' = metadata d !! sym').
Proof.
  intros Hd Hid Hkept Hsym Hsorted Hfree Hw.
  destruct (write_segment_sound d sym p pts segment_id d' Hd Hid Hkept Hsym Hsorted Hw)
    as (_ & [info Hmeta] & Hread & Hframe).
  split.
  - unfold stored at 1. rewrite Hmeta, lookup_insert_eq.
    rewrite map_to_list_insert by done. csimpl.
    rewrite (DiskFacts.segment_points_read d' sym segment_id _ Hread).
    match goal with |- _ ++ ?x ≡ₚ _ => assert (x = stored d sym) as ->; [|done] end.
    unfold stored. destruct (metadata d !! sym) as [segs|] eqn:Hsegs; simpl.
    + f_equal. apply list_fmap_ext. intros _ k Hin%list_elem_of_lookup_2.
      apply list_elem_of_fmap in Hin as ([k' info'] & Hk & Hin). simpl in Hk. subst k'.
      apply elem_of_map_to_list in Hin. unfold segment_points.
      rewrite (Hframe sym k info'); [done|by exists segs|].
      simpl in Hfree. intros [= ->]. congruence.
    + by rewrite map_to_list_empty.
  - intros sym' Hne.
    assert (metadata d' !! sym' = metadata d !! sym') as Hm.
    { by rewrite Hmeta, lookup_insert_ne. }
    split; [|done]. apply stored_same; [done|].
    intros k info' Hin. apply (Hframe sym' k info' Hin). congruence.
Qed.

Lemma write_segment_thrown d sym pts segment_id x d' :
  write_segment d sym pts segment_id = (Throw x, d') →
  d' = d ∧ creatable d (segment_file_name sym segment_id) = false.
Proof.
  unfold write_segment. destruct pts as [|p pts]; [done|].
  destruct (enable_compression (config d));
    destruct (creatable d (segment_file_name sym segment_id)); try done;
    by intros [= _ <-].
Qed.

Lemma write_segment_creatable d sym pts segment_id r d' :
  write_segment d sym pts segment_id = (r, d') → creatable d' = creatable d.
Proof.
  unfold write_segment. destruct pts as [|p pts]; [by intros [= _ <-]|].
  destruct (enable_compression (config d));
    destruct (creatable d (segment_file_name sym segment_id));
    by intros [= _ <-].
Qed.

End WithCodec.

Section WithSort.
Context `{Codec} `{StdSort}.
Import DiskFresh.

Lemma next_segment_id_nonneg d sym : 0 ≤ next_segment_id d sym.
Proof.
  unfold next_segment_id. destruct (metadata d !! sym) as [segs|]; [|done].
  destruct ((map_to_list segs).*1) as [|k ks]; [done|].
  unfold size_t_wrap. apply Z.mod_pos_bound. done.
Qed.

Lemma fresh_id_unindexed d sym : metadata d !! sym = None → fresh_id d sym.
Proof. unfold fresh_id. intros ->. simpl. apply lookup_empty. Qed.

Lemma fresh_id_same d d' sym :
  metadata d' !! sym = metadata d !! sym → fresh_id d sym → fresh_id d' sym.
Proof. unfold fresh_id, next_segment_id. by intros ->. Qed.

Lemma foldr_max_bound k ks x : x ∈ k :: ks → x ≤ foldr Z.max k ks.
Proof.
  induction ks as [|y ks IH]; simpl.
  - intros [->|[]%elem_of_nil]%elem_of_cons. lia.
  - intros [->|[->|Hx]%elem_of_cons]%elem_of_cons.
    + assert (k ≤ foldr Z.max k ks) by (apply IH; by left). lia.
    + lia.
    + assert (x ≤ foldr Z.max k ks) by (apply IH; by right). lia.
Qed.

(** While no id of the symbol has reached the largest [size_t], the next
    id is one more than the largest in use, and so not in use. *)
Lemma fresh_id_below_max d sym :
  (∀ segment_id info, indexed d sym segment_id info → 0 ≤ segment_id < SIZE_MAX) →
  fresh_id d sym.
Proof.
  intros Hids. unfold fresh_id, next_segment_id.
  destruct (metadata d !! sym) as [segs|] eqn:Hsegs; simpl; [|apply lookup_empty].
  destruct ((map_to_list segs).*1) as [|k ks] eqn:Hkeys.
  { apply fmap_nil_inv in Hkeys. apply map_to_list_empty_iff in Hkeys. subst segs.
    apply lookup_empty. }
  destruct (segs !! size_t_wrap (foldr Z.max k ks + 1)) as [info|] eqn:Hin; [|done].
  exfalso.
  assert (∀ x, x ∈ k :: ks → 0 ≤ x < SIZE_MAX) as Hrange.
  { intros x Hx. rewrite <- Hkeys in Hx.
    apply list_elem_of_fmap in Hx as ([x' info'] & -> & Hx).
    apply elem_of_map_to_list in Hx. apply (Hids x' info'). by exists segs. }
  assert (foldr Z.max k ks ∈ k :: ks) as Hmax.
  { clear. induction ks as [|y ks IH]; simpl; [by left|].
    destruct (Z.max_spec y (foldr Z.max k ks)) as [[_ ->]|[_ ->]].
    - apply elem_of_cons in IH as [->|IH]; [by left|]. right. by right.
    - right. by left. }
  pose proof (Hrange _ Hmax) as Hm.
  assert (size_t_wrap (foldr Z.max k ks + 1) = foldr Z.max k ks + 1) as Hw.
  { unfold size_t_wrap. apply Z.mod_small. unfold SIZE_MAX in Hm. lia. }
  rewrite Hw in Hin.
  assert (foldr Z.max k ks + 1 ∈ k :: ks) as Hnext.
  { rewrite <- Hkeys. apply list_elem_of_fmap.
    exists (foldr Z.max k ks + 1, info). split; [done|]. by apply elem_of_map_to_list. }
  pose proof (foldr_max_bound k ks _ Hnext). lia.
Qed.

Lemma write_group_sound d g d' :
  sound d → kept_as_written d g.2 →
  g.2 ≠ [] → Forall (has_symbol g.1) g.2 → fresh_id d g.1 →
  write_group d g = (Ret (), d') →
  sound d' ∧ config d' = config d ∧
  stored d' g.1 ≡ₚ sort_by_timestamp g.2 ++ stored d g.1 ∧
  (∀ sym, sym ≠ g.1 →
     stored d' sym = stored d sym ∧ metadata d' !! sym = metadata d !! sym).
Proof.
  intros Hd [Hc Hwhole] Hne Hsym Hfresh Hw. unfold write_group in Hw.
  pose proof (write_segment_keeps_config d g.1 (sort_by_timestamp g.2)
                (next_segment_id d g.1)) as Hcfg.
  rewrite Hw in Hcfg. simpl in Hcfg.
  destruct (sort_by_timestamp g.2) as [|p pts] eqn:Hsort.
  { exfalso. apply Hne. apply Permutation_nil. by rewrite <- Hsort, sort_by_timestamp_perm. }
  assert (Forall (has_symbol g.1) (p :: pts)) as Hsym'.
  { rewrite <- Hsort. by rewrite sort_by_timestamp_perm. }
  assert (nondecreasing (p :: pts)) as Hsorted.
  { rewrite <- Hsort. apply sort_by_timestamp_sorted. }
  assert (kept_as_written d (p :: pts)) as Hkept.
  { split; [done|]. rewrite <- Hsort. by rewrite sort_by_timestamp_perm. }
  pose proof (next_segment_id_nonneg d g.1) as Hid.
  destruct (write_segment_sound d g.1 p pts _ d' Hd Hid Hkept Hsym' Hsorted Hw) as (Hd' & _).
  split; [done|]. split; [done|].
  by apply (stored_after_write_segment d g.1 p pts (next_segment_id d g.1) d').
Qed.

Lemma write_groups_sound gs : ∀ d d',
  sound d → NoDup gs.*1 →
  Forall (λ g, g.2 ≠ [] ∧ Forall (has_symbol g.1) g.2 ∧ fresh_id d g.1 ∧
               kept_as_written d g.2) gs →
  write_groups d gs = (Ret (), d') →
  sound d' ∧
  (∀ g, g ∈ gs → stored d' g.1 ≡ₚ sort_by_timestamp g.2 ++ stored d g.1) ∧
  (∀ sym, sym ∉ gs.*1 →
     stored d' sym = stored d sym ∧ metadata d' !! sym = metadata d !! sym).
Proof.
  induction gs as [|g gs IH]; intros d d' Hd Hnd Hgs Hw.
  { injection Hw as <-. split; [done|]. split; [|done].
    intros g Hg. by apply elem_of_nil in Hg. }
  rewrite fmap_cons in Hnd. apply NoDup_cons in Hnd as [Hg_fresh Hnd].
  apply Forall_cons in Hgs as [(Hne & Hsym & Hfresh & Hkept) Hgs].
  simpl in Hw. destruct (write_group d g) as [[[]|x] d1] eqn:Hw1; [|done].
  destruct (write_group_sound d g d1 Hd Hkept Hne Hsym Hfresh Hw1)
    as (Hd1 & Hcfg & Hown & Hother).
  destruct (IH d1 d' Hd1 Hnd) as (Hd' & Hgroups & Hrest); [|done|].
  { apply Forall_forall. intros g' Hg'. rewrite Forall_forall in Hgs.
    destruct (Hgs g' Hg') as (? & ? & Hf & [Hc' Hw']). repeat split; try done.
    - apply (fresh_id_same d); [|done]. apply Hother.
      intros Heq. apply Hg_fresh. rewrite <- Heq. apply list_elem_of_fmap. by exists g'.
    - by rewrite Hcfg. }
  split; [done|]. split.
  - intros g' [->|Hg']%elem_of_cons.
    + destruct (Hrest g.1 Hg_fresh) as [-> _]. done.
    + rewrite (Hgroups g' Hg').
      destruct (Hother g'.1) as [-> _]; [|done].
      intros Heq. apply Hg_fresh. rewrite <- Heq.
      apply list_elem_of_fmap. by exists g'.
  - intros sym Hsym_out. rewrite fmap_cons, not_elem_of_cons in Hsym_out.
    destruct Hsym_out as [Hne_g Hout].
    destruct (Hrest sym Hout) as [-> ->]. by apply Hother.
Qed.

(** P3 at the segment store: a batch that is written adds, for every
    symbol, the points of the batch with that symbol to the stored
    points, and keeps the store sound. *)
Lemma disk_write_batch_sound d pts d' :
  sound d → (∀ sym, fresh_id d sym) → kept_as_written d pts →
  write_batch d pts = (Ret true, d') →
  sound d' ∧
  ∀ sym, stored d' sym ≡ₚ filter (has_symbol sym) pts ++ stored d sym.
Proof.
  intros Hd Hfresh [Hc Hwhole] Hw. unfold write_batch in Hw.
  destruct pts as [|p0 pts0]; [by injection Hw as <-|].
  set (pts := p0 :: pts0) in *.
  destruct (write_groups d (map_to_list (group_by_symbol pts))) as [[[]|x] d1] eqn:Hgs;
    [|done].
  injection Hw as <-.
  destruct (write_groups_sound _ d d1 Hd (NoDup_fst_map_to_list (group_by_symbol pts)))
    as (Hd1 & Hown & Hrest); [|done|].
  { apply Forall_forall. intros [sym own] Hin%elem_of_map_to_list. simpl.
    rewrite group_by_symbol_lookup in Hin.
    destruct (filter (has_symbol sym) pts) as [|q own'] eqn:Hf; [done|].
    injection Hin as <-. repeat split; [done| |done|done|].
    - rewrite <- Hf. apply Forall_forall. by intros y [? _]%list_elem_of_filter.
    - rewrite <- Hf. apply Forall_forall. intros y [_ Hy]%list_elem_of_filter.
      rewrite Forall_forall in Hwhole. by apply Hwhole. }
  split; [done|]. intros sym.
  pose proof (group_by_symbol_lookup pts sym) as Hlook.
  destruct (filter (has_symbol sym) pts) as [|q own] eqn:Hf.
  - simpl. destruct (Hrest sym) as [-> _]; [|done].
    intros ([sym' own'] & Heq & Hin%elem_of_map_to_list)%list_elem_of_fmap.
    simpl in Heq. subst sym'. congruence.
  - rewrite (Hown (sym, q :: own)); [|by apply elem_of_map_to_list].
    simpl. by rewrite sort_by_timestamp_perm.
Qed.

End WithSort.
End DiskWrites.

(** ** Round trip through the disk *)

Module RoundTrip.
Import Engine EngineInvariant DiskSoundness DiskFresh.

Lemma filter_buffered_symbols m sym (syms : list string) :
  MemoryInvariant.well_formed m → NoDup syms →
  filter (has_symbol sym) (mjoin (Memory.buffered m <$> syms)) =
  if decide (sym ∈ syms) then Memory.buffered m sym else [].
Proof.
  intros Hm. induction 1 as [|s syms Hs Hnd IH]; [done|].
  csimpl. rewrite filter_app, IH.
  destruct (MemoryFacts.well_formed_buffered m s Hm) as [_ Hsym].
  destruct (decide (s = sym)) as [->|Hne].
  - destruct (decide (sym ∈ syms)) as [?|_]; [done|].
    destruct (decide (sym ∈ sym :: syms)) as [_|Hout]; [|exfalso; apply Hout; by left].
    rewrite app_nil_r. by apply filter_all.
  - rewrite (filter_none (has_symbol sym)).
    + simpl. destruct (decide (sym ∈ syms)) as [Hin|Hout].
      * destruct (decide (sym ∈ s :: syms)) as [_|Hout]; [done|].
        exfalso. apply Hout. by right.
      * destruct (decide (sym ∈ s :: syms)) as [Hin|_]; [|done].
        apply elem_of_cons in Hin as [?|?]; congruence.
    + eapply Forall_impl; [exact Hsym|]. unfold has_symbol. congruence.
Qed.

(** The batch [flush] collects holds, for every symbol, the sequence of
    the symbol. *)
Lemma filter_points_to_flush m sym :
  MemoryInvariant.well_formed m →
  filter (has_symbol sym) (points_to_flush m) = Memory.buffered m sym.
Proof.
  intros Hm. rewrite EngineFacts.points_to_flush_buffered by done.
  rewrite filter_buffered_symbols; [|done|apply NoDup_fst_map_to_list].
  case_decide as Hin; [done|]. unfold Memory.buffered.
  destruct (Memory.symbol_data m !! sym) as [sd|] eqn:Hsd; [|done].
  exfalso. apply Hin. unfold Memory.get_symbols. apply list_elem_of_fmap.
  exists (sym, sd). split; [done|]. by apply elem_of_map_to_list.
Qed.

Section WithCodec.
Context `{Codec} `{StdSort}.

(** P3 for one [flush]: when it returns [true] the buffer is empty and
    the store has, for every symbol, the buffered sequence on top of what
    it had. *)
Lemma flush_to_disk e e' :
  MemoryInvariant.well_formed (memory_layer e) →
  sound (disk_layer e) → (∀ sym, fresh_id (disk_layer e) sym) →
  kept_as_written (disk_layer e) (points_to_flush (memory_layer e)) →
  flush e = (Ret true, e') →
  memory_empty e' ∧ sound (disk_layer e') ∧
  ∀ sym, stored (disk_layer e') sym
           ≡ₚ Memory.buffered (memory_layer e) sym ++ stored (disk_layer e) sym.
Proof.
  intros Hm Hd Hfresh Hkept Hflush. unfold flush in Hflush.
  destruct (points_to_flush (memory_layer e)) as [|p0 pts0] eqn:Hpts.
  - injection Hflush as <-.
    pose proof (EngineFacts.points_to_flush_nil_empty _ Hm Hpts) as Hempty.
    split; [exact Hempty|]. split; [done|]. intros sym. by rewrite Hempty.
  - destruct (Disk.write_batch (disk_layer e) (p0 :: pts0)) as [[[]|x] d'] eqn:Hw;
      [|done..].
    injection Hflush as <-.
    destruct (DiskWrites.disk_write_batch_sound _ _ _ Hd Hfresh Hkept Hw) as [Hd' Hstored].
    split; [apply EngineFacts.memory_empty_cleared|]. split; [done|].
    intros sym. simpl. rewrite Hstored, <- Hpts.
    by rewrite filter_points_to_flush.
Qed.

Lemma flush_of_empty e e' r :
  memory_empty e → flush e = (r, e') → e' = e.
Proof.
  intros Hempty. unfold flush.
  rewrite (EngineFacts.points_to_flush_empty _ Hempty). by intros [= _ <-].
Qed.

(** A batch written to an engine whose buffer is empty, then flushed. *)
Lemma write_batch_then_flush e0 batch e1 e2 :
  memory_empty e0 → MemoryInvariant.well_formed (memory_layer e0) →
  sound (disk_layer e0) → (∀ sym, fresh_id (disk_layer e0) sym) →
  kept_as_written (disk_layer e0) batch →
  write_batch e0 batch = (Ret true, e1) → flush e1 = (Ret true, e2) →
  memory_empty e2 ∧ sound (disk_layer e2) ∧
  ∀ sym, stored (disk_layer e2) sym
           ≡ₚ std_unique (sort_by_timestamp (filter (has_symbol sym) batch))
              ++ stored (disk_layer e0) sym.
Proof.
  intros Hempty Hm Hd Hfresh [Hc Hwhole] Hwrite Hflush.
  assert (∀ sym,
    Memory.buffered (Memory.insert_batch (memory_layer e0) batch).2 sym =
    std_unique (sort_by_timestamp (filter (has_symbol sym) batch))) as Hbuf.
  { intros sym. rewrite MemoryFacts.buffered_insert_batch, Hempty.
    destruct (filter (has_symbol sym) batch) as [|q own] eqn:Hf.
    - by rewrite sort_by_timestamp_nil.
    - apply MemoryFacts.merged_with_nil_l. }
  pose proof (MemoryFacts.insert_batch_well_formed _ batch Hm) as Hm1.
  assert (kept_as_written (disk_layer e0)
            (points_to_flush (Memory.insert_batch (memory_layer e0) batch).2)) as Hkept.
  { split; [done|]. rewrite EngineFacts.points_to_flush_buffered by done.
    apply Forall_forall. intros q (l & Hq & Hl)%list_elem_of_join.
    apply list_elem_of_fmap in Hl as (sym' & -> & _). rewrite Hbuf in Hq.
    apply std_unique_subseteq in Hq. rewrite sort_by_timestamp_elem_of in Hq.
    apply list_elem_of_filter in Hq as [_ Hq].
    rewrite Forall_forall in Hwhole. by apply Hwhole. }
  unfold write_batch in Hwrite. destruct batch as [|b0 batch0].
  { injection Hwrite as <-.
    rewrite (flush_of_empty e0 e2 _ Hempty Hflush).
    split; [done|]. split; [done|]. intros sym.
    by rewrite filter_nil, sort_by_timestamp_nil. }
  set (batch := b0 :: batch0) in *.
  destruct (Memory.insert_batch (memory_layer e0) batch) as [[] m1] eqn:Hins;
    simpl in Hbuf, Hm1, Hkept; [|done].
  destruct (max_memory_points (config e0) <=? Memory.cache_size m1).
  - destruct (flush_to_disk (count (with_memory e0 m1) (Z.of_nat (length batch))) e1
                Hm1 Hd Hfresh Hkept Hwrite) as (Hempty1 & Hd1 & Hstored1).
    rewrite (flush_of_empty e1 e2 _ Hempty1 Hflush).
    split; [done|]. split; [done|]. intros sym.
    rewrite Hstored1. simpl. by rewrite Hbuf.
  - injection Hwrite as <-.
    destruct (flush_to_disk (count (with_memory e0 m1) (Z.of_nat (length batch))) e2
                Hm1 Hd Hfresh Hkept Hflush) as (Hempty2 & Hd2 & Hstored2).
    split; [done|]. split; [done|]. intros sym.
    rewrite Hstored2. simpl. by rewrite Hbuf.
Qed.


Lemma fresh_engine cfg can_create e0 :
  create cfg ∅ can_create = Ret e0 →
  memory_empty e0 ∧ MemoryInvariant.well_formed (memory_layer e0) ∧
  sound (disk_layer e0) ∧ (∀ sym, fresh_id (disk_layer e0) sym) ∧
  (∀ sym, stored (disk_layer e0) sym = []) ∧
  Disk.enable_compression (Disk.config (disk_layer e0)) = true.
Proof.
  unfold create, Disk.create, Disk.load_existing_segments.
  rewrite map_to_list_empty. simpl. intros [= <-]. simpl.
  split; [|split; [apply MemoryFacts.well_formed_create|split; [|split; [|split]]]].
  - intros sym. unfold Memory.buffered. simpl. by rewrite lookup_empty.
  - intros sym segment_id info (segs & Hsegs & _). simpl in Hsegs.
    by rewrite lookup_empty in Hsegs.
  - intros sym. by apply DiskWrites.fresh_id_unindexed.
  - intros sym. by apply DiskWrites.stored_unindexed.
  - done.
Qed.



End WithCodec.
End RoundTrip.

(** ** Runs of the round trip and of the range query *)

Module StoreRuns.
Import Engine.

Lemma written_returns :
  write_batch (SampleEngine.fresh SampleEngine.writable) SampleRoundTrip.batch
    = (Ret true, SampleRoundTrip.written).
Proof. vm_compute. reflexivity. Qed.

Lemma flushed_returns :
  flush SampleRoundTrip.written = (Ret true, SampleRoundTrip.flushed).
Proof. vm_compute. reflexivity. Qed.

Lemma batch_whole :
  Forall (λ p, whole_microseconds (timestamp p)) SampleRoundTrip.batch.
Proof. repeat constructor. Qed.







(** The query of the witness, evaluated: of the stored timestamps, 5 and
    9 microseconds, the end of the interval is left out. *)
Lemma read_range_once :
  DiskSoundness.stored SampleRoundTrip.once "AAPL"
    = [Sample.point "AAPL" 5 1; Sample.point "AAPL" 9 3] ∧
  Disk.read_range SampleRoundTrip.once "AAPL" 5000 9000 = Ret [Sample.point "AAPL" 5 1].
Proof. split; vm_compute; reflexivity. Qed.


End StoreRuns.

(** ** The segment store: recovery scan and compaction on sample data *)

Module DiskRuns.

(** C8 fails on the code.  The scan skips a name without an underscore,
    but it hands the fields of any other [.dat] name to [std::stoll]
    without a handler: on a name whose timestamp fields are letters the
    scan, and with it the construction of the disk layer and of the
    engine, ends in [std::invalid_argument]; and a name with two fields
    only is not skipped but indexed, its one number read as both bounds. *)
Theorem load_existing_segments_throws_on_letters :
  Disk.load_existing_segments SampleDisk.letters_directory
    = Throw (invalid_argument "stoll") ∧
  Engine.create SampleEngine.config SampleDisk.letters_directory SampleEngine.writable
    = Throw (invalid_argument "stoll") ∧
  (map_to_list <$> Disk.load_existing_segments SampleDisk.two_field_directory)
    = Ret [("AAPL",
            {[ 0 := {| Disk.start_time := 12000; Disk.end_time := 12000;
                       Disk.num_points := 0; Disk.file_path := "AAPL_12.dat";
                       Disk.compressed := false |} ]})].
Proof. repeat split; vm_compute; reflexivity. Qed.

(** C2 fails on the code.  Two segments of one symbol share the
    timestamp of 5 microseconds.  [compact_segments] takes the exclusive
    lock of the layer and calls [read_segment], which asks for the shared
    lock of the same mutex and is refused: the call ends in a
    [std::system_error] with nothing read, unlinked or written.  The
    symbol has its two segments as before, and a range query still
    returns both points stamped 5 microseconds.  [optimize_index] ends
    the same way for the symbol, catches the exception, and returns with
    the store unchanged. *)
Theorem compact_segments_keeps_duplicates :
  let compacted := DiskLocks.compact_segments DiskLocks.NotOwned SampleDisk.duplicated "AAPL" in
  DiskSoundness.stored SampleDisk.duplicated "AAPL"
    = [Sample.point "AAPL" 5 2; Sample.point "AAPL" 5 1; Sample.point "AAPL" 9 3] ∧
  compacted = (Throw (system_error "Resource deadlock avoided"), SampleDisk.duplicated) ∧
  (map_to_list <$> Disk.metadata compacted.2 !! "AAPL")
    = Some [(1, {| Disk.start_time := 5000; Disk.end_time := 5000; Disk.num_points := 1;
                   Disk.file_path := "AAPL_1.seg"; Disk.compressed := true |});
            (0, {| Disk.start_time := 5000; Disk.end_time := 9000; Disk.num_points := 2;
                   Disk.file_path := "AAPL_0.seg"; Disk.compressed := true |})] ∧
  Disk.read_range compacted.2 "AAPL" 0 100000
    = Ret [Sample.point "AAPL" 5 2; Sample.point "AAPL" 5 1; Sample.point "AAPL" 9 3] ∧
  DiskLocks.optimize_index DiskLocks.NotOwned SampleDisk.duplicated
    = (Ret (), SampleDisk.duplicated).
Proof. repeat split; vm_compute; reflexivity. Qed.

End DiskRuns.

(** ** More of the memory buffer *)

Lemma std_merge_keeps l1 : ∀ l2 x,
  strictly_increasing l1 → x ∈ l1 →
  ∃ before after, std_merge l1 l2 = before ++ x :: after ∧
                  Forall (λ y, timestamp y < timestamp x) before.
Proof.
  induction l1 as [|a l1 IH]; intros l2 x Hl1 Hx; [by apply elem_of_nil in Hx|].
  apply StronglySorted_cons in Hl1 as [Ha Hl1].
  induction l2 as [|b l2 IHin].
  { rewrite std_merge_nil_r. apply elem_of_cons in Hx as [->|Hx].
    - by exists [], l1.
    - destruct (IH [] x Hl1 Hx) as (before & after & Heq & Hlt).
      rewrite std_merge_nil_r in Heq. exists (a :: before), after.
      split; [by rewrite Heq|]. constructor; [|done].
      exact (proj1 (Forall_forall _ _) Ha x Hx). }
  rewrite std_merge_cons_cons. destruct (timestamp b <? timestamp a) eqn:Hba.
  - destruct IHin as (before & after & Heq & Hlt).
    exists (b :: before), after. split; [by rewrite Heq|]. constructor; [|done].
    apply Z.ltb_lt in Hba. apply elem_of_cons in Hx as [->|Hx]; [done|].
    pose proof (proj1 (Forall_forall _ _) Ha x Hx) as Hax. unfold ts_lt in Hax. lia.
  - apply elem_of_cons in Hx as [->|Hx].
    + by exists [], (std_merge l1 (b :: l2)).
    + destruct (IH (b :: l2) x Hl1 Hx) as (before & after & Heq & Hlt).
      exists (a :: before), after. split; [by rewrite Heq|]. constructor; [|done].
      exact (proj1 (Forall_forall _ _) Ha x Hx).
Qed.

Lemma unique_after_keeps x after before : ∀ kept,
  timestamp kept ≠@{Z} timestamp x →
  Forall (λ y, timestamp y ≠@{Z} timestamp x) before →
  x ∈ unique_after kept (before ++ x :: after).
Proof.
  induction before as [|y before IH]; intros kept Hkept Hbefore; simpl.
  - destruct (timestamp kept =? timestamp x) eqn:Heq; [apply Z.eqb_eq in Heq; done|].
    by left.
  - apply Forall_cons in Hbefore as [Hy Hbefore].
    destruct (timestamp kept =? timestamp y); [by apply IH|].
    right. by apply IH.
Qed.

Lemma std_unique_keeps x before after :
  Forall (λ y, timestamp y ≠@{Z} timestamp x) before →
  x ∈ std_unique (before ++ x :: after).
Proof.
  destruct before as [|y before]; simpl; [by left|].
  intros [Hy Hbefore]%Forall_cons. right. by apply unique_after_keeps.
Qed.

(** A point that is in the buffer stays there through a batch: on equal
    timestamps [std::merge] puts the buffered point first and
    [std::unique] keeps the first. *)
Lemma merged_with_keeps `{StdSort} old own x :
  strictly_increasing old → x ∈ old → x ∈ merged_with old own.
Proof.
  intros Hold Hx. unfold merged_with.
  destruct (std_merge_keeps old (sort_by_timestamp own) x Hold Hx)
    as (before & after & -> & Hlt).
  apply std_unique_keeps. eapply Forall_impl; [exact Hlt|]. simpl. lia.
Qed.

Lemma strictly_increasing_NoDup l : strictly_increasing l → NoDup l.
Proof.
  induction 1 as [|x l Hl IH Hx]; constructor; [|done].
  intros Hin. pose proof (proj1 (Forall_forall _ _) Hx x Hin) as Hlt.
  unfold ts_lt in Hlt. lia.
Qed.

Module MemoryCounting.
Import Memory MemoryInvariant MemoryCount.

Lemma count_points_perm l1 l2 : l1 ≡ₚ l2 → count_points l1 = count_points l2.
Proof. induction 1; simpl; lia. Qed.

Lemma points_held_insert (sdm : gmap string SymbolData) sym sd :
  count_points (map_to_list (<[sym := sd]> sdm)) =
  count_points (map_to_list sdm)
  - Z.of_nat (length (default [] (points <$> sdm !! sym)))
  + Z.of_nat (length (points sd)).
Proof.
  destruct (sdm !! sym) as [old|] eqn:Hold; simpl.
  - rewrite <- insert_delete_eq.
    rewrite (count_points_perm _ _ (map_to_list_insert (delete sym sdm) sym sd
                                      (lookup_delete_eq sdm sym))).
    rewrite <- (count_points_perm _ _ (map_to_list_delete sdm sym old Hold)).
    simpl. lia.
  - rewrite (count_points_perm _ _ (map_to_list_insert sdm sym sd Hold)). simpl. lia.
Qed.

Lemma size_t_wrap_add a b : size_t_wrap (size_t_wrap a + b) = size_t_wrap (a + b).
Proof. unfold size_t_wrap. by rewrite Z.add_mod_idemp_l. Qed.

Lemma size_t_wrap_add_r a b : size_t_wrap (a + size_t_wrap b) = size_t_wrap (a + b).
Proof. unfold size_t_wrap. by rewrite Z.add_mod_idemp_r. Qed.

Lemma get_or_create_counted m sym :
  counted m →
  let '(sd, m1) := get_or_create_symbol_data m sym in
  counted m1 ∧ symbol_data m1 !! sym = Some sd ∧ points sd = buffered m sym.
Proof.
  intros Hm. unfold get_or_create_symbol_data, buffered.
  destruct (symbol_data m !! sym) as [sd|] eqn:Hsd; [done|].
  split; [|simpl; by rewrite lookup_insert_eq].
  unfold counted, points_held in *. simpl.
  rewrite points_held_insert, Hsd. simpl. rewrite Hm. f_equal. lia.
Qed.

Lemma store_counted m sym sd new_points added :
  counted m → symbol_data m !! sym = Some sd →
  size_t_wrap added
    = size_t_wrap (Z.of_nat (length new_points) - Z.of_nat (length (points sd))) →
  ∀ n, counted (store m sym {| points := new_points; total_points := n |} added).
Proof.
  intros Hm Hsd Hadded n. unfold counted, points_held in *. simpl.
  rewrite points_held_insert, Hsd, Hm. simpl.
  rewrite size_t_wrap_add, <- size_t_wrap_add_r, Hadded, size_t_wrap_add_r.
  f_equal. lia.
Qed.

Lemma insert_counted m p : counted m → counted (insert m p).2.
Proof.
  intros Hm. unfold insert.
  pose proof (get_or_create_counted m (symbol p) Hm) as Hgc.
  destruct (get_or_create_symbol_data m (symbol p)) as [sd m1].
  destruct Hgc as (Hm1 & Hsd & _).
  assert (counted (store m1 (symbol p)
            {| points := take (lower_bound (points sd) 0 (length (points sd)) (timestamp p))
                           (points sd)
                         ++ p :: drop (lower_bound (points sd) 0 (length (points sd))
                                         (timestamp p)) (points sd);
               total_points := size_t_wrap (total_points sd + 1) |} 1)) as Hstored.
  { apply store_counted with (sd := sd); [done..|]. f_equal.
    rewrite length_app, length_take, length_cons, length_drop. lia. }
  destruct (points sd !! _) as [q|]; [|done].
  by destruct (timestamp q =? timestamp p).
Qed.

Lemma clear_cache_counted m : counted (clear_cache m).
Proof.
  unfold counted, points_held, clear_cache. simpl. rewrite map_to_list_fmap.
  assert (count_points (prod_map id (λ _, new_symbol_data) <$> map_to_list (symbol_data m)) = 0)
    as ->; [|done].
  induction (map_to_list (symbol_data m)) as [|e l IH]; [done|].
  rewrite fmap_cons. unfold count_points in *. simpl. by rewrite IH.
Qed.

Section WithSort.
Context `{StdSort}.

Lemma insert_group_counted m g : counted m → counted (insert_group m g).
Proof.
  intros Hm. unfold insert_group.
  pose proof (get_or_create_counted m g.1 Hm) as Hgc.
  destruct (get_or_create_symbol_data m g.1) as [sd m1].
  destruct Hgc as (Hm1 & Hsd & _).
  apply store_counted with (sd := sd); [done..|].
  unfold size_t_wrap. by rewrite Z.mod_mod.
Qed.

Lemma insert_batch_counted m pts : counted m → counted (insert_batch m pts).2.
Proof.
  intros Hm. destruct pts as [|p pts]; [done|]. simpl.
  generalize (map_to_list (group_by_symbol (p :: pts))). intros gs.
  revert m Hm. induction gs as [|g gs IH]; intros m Hm; [done|].
  simpl. by apply IH, insert_group_counted.
Qed.

Lemma perform_counted m c : counted m → counted (perform m c).
Proof.
  intros Hm. destruct c as [point|pts|]; simpl.
  - by apply insert_counted.
  - by apply insert_batch_counted.
  - apply clear_cache_counted.
Qed.

Lemma run_counted calls : ∀ m, counted m → counted (run m calls).
Proof.
  induction calls as [|c calls IH]; intros m Hm; [done|].
  apply IH. by apply perform_counted.
Qed.

(** X1.  In every state the buffer reaches from its construction by
    [insert], [insert_batch] and [clear_cache], [cache_size()] - and
    [get_total_points()], which reads the same counter - is the number of
    points in the sequences of the buffer, all symbols together, as a
    [size_t].  The count a batch adds, [merged.size() - points.size()],
    is what the sequence of the symbol grew by. *)
Theorem cache_size_counts_buffered cache_mb calls :
  let m := run (create cache_mb) calls in
  cache_size m = size_t_wrap (points_held m) ∧
  get_total_points m = cache_size m.
Proof. split; [|done]. by apply run_counted. Qed.

End WithSort.
End MemoryCounting.

Lemma last_nondecreasing l p :
  nondecreasing l → last l = Some p →
  p ∈ l ∧ ∀ q, q ∈ l → timestamp q ≤ timestamp p.
Proof.
  intros Hl [l' ->]%last_Some. split; [apply elem_of_app; right; by left|].
  intros q [Hq|Hq%list_elem_of_singleton]%elem_of_app; [|by rewrite Hq].
  apply (StronglySorted_app_1_elem_of _ _ _ q p Hl Hq). by left.
Qed.

Module MemoryReads.
Import Memory MemoryInvariant.

Lemma get_latest_buffered m sym : get_latest m sym = last (buffered m sym).
Proof. unfold get_latest, buffered. by destruct (symbol_data m !! sym). Qed.

Lemma get_symbols_lookup m sym : sym ∈ get_symbols m ↔ is_Some (symbol_data m !! sym).
Proof.
  unfold get_symbols. rewrite list_elem_of_fmap. split.
  - intros ([k sd] & -> & Hin%elem_of_map_to_list). by exists sd.
  - intros [sd Hsd]. exists (sym, sd). split; [done|]. by apply elem_of_map_to_list.
Qed.

Lemma get_latest_well_formed m sym :
  well_formed m →
  match get_latest m sym with
  | Some p =>
    p ∈ buffered m sym ∧ symbol p = sym ∧
    ∀ q, q ∈ buffered m sym → timestamp q ≤ timestamp p
  | None => buffered m sym = []
  end.
Proof.
  intros Hm. destruct (MemoryFacts.well_formed_buffered m sym Hm) as [Hinc Hsym].
  rewrite get_latest_buffered.
  destruct (last (buffered m sym)) as [p|] eqn:Hlast; [|by apply last_None].
  destruct (last_nondecreasing _ p (strictly_increasing_nondecreasing _ Hinc) Hlast)
    as [Hin Hmax].
  split; [done|]. split; [|done].
  exact (proj1 (Forall_forall _ _) Hsym p Hin).
Qed.

Section WithSort.
Context `{StdSort}.

(** X2.  [insert_batch] on a buffer that keeps its invariants returns
    [true], and for every symbol the sequence it leaves is strictly
    increasing, still holds every point that was buffered - on a
    timestamp that is already there the buffered point wins over the one
    of the batch - holds a point for every timestamp of the batch, and
    holds nothing else.  So the sequence never shrinks. *)
Theorem insert_batch_merges m pts sym :
  well_formed m →
  (insert_batch m pts).1 = true ∧
  let before := buffered m sym in
  let after := buffered (insert_batch m pts).2 sym in
  strictly_increasing after ∧
  (∀ p, p ∈ before → p ∈ after) ∧
  (∀ p, p ∈ pts → symbol p = sym →
     ∃ q, q ∈ after ∧ timestamp q =@{Z} timestamp p) ∧
  (∀ q, q ∈ after → q ∈ before ∨ (q ∈ pts ∧ symbol q = sym)) ∧
  (length before ≤ length after)%nat.
Proof.
  intros Hm. split; [by destruct pts|]. cbv zeta.
  destruct (MemoryFacts.well_formed_buffered m sym Hm) as [Hinc _].
  assert (∀ p, p ∈ buffered m sym → p ∈ buffered (insert_batch m pts).2 sym) as Hkept.
  { intros p Hp. rewrite MemoryFacts.buffered_insert_batch.
    destruct (filter (has_symbol sym) pts) as [|o own]; [done|].
    by apply merged_with_keeps. }
  split; [|split; [done|split; [|split]]].
  - apply (MemoryFacts.well_formed_buffered _ sym).
    by apply MemoryFacts.insert_batch_well_formed.
  - intros p Hp Hsym. rewrite MemoryFacts.buffered_insert_batch.
    assert (p ∈ filter (has_symbol sym) pts) as Hown by (by apply list_elem_of_filter).
    destruct (filter (has_symbol sym) pts) as [|o own]; [by apply elem_of_nil in Hown|].
    apply MemoryFacts.merged_with_covers. by right.
  - intros q. rewrite MemoryFacts.buffered_insert_batch.
    destruct (filter (has_symbol sym) pts) as [|o own] eqn:Hown; [by left|].
    intros [Hq|Hq]%MemoryFacts.merged_with_elem_of; [by left|]. right.
    rewrite <- Hown in Hq. apply list_elem_of_filter in Hq as [Hsym Hq]. done.
  - apply submseteq_length, NoDup_submseteq; [|done].
    by apply strictly_increasing_NoDup.
Qed.

(** X3.  In every state the buffer reaches from its construction,
    [get_latest(symbol)] is [nullopt] exactly when the buffer has no point
    for the symbol - the symbol was never inserted, or the cache was
    cleared since - and otherwise it is a buffered point of the symbol
    that no buffered point of the symbol is later than. *)
Theorem get_latest_is_newest cache_mb calls sym :
  let m := run (create cache_mb) calls in
  match get_latest m sym with
  | Some p =>
    p ∈ buffered m sym ∧ symbol p = sym ∧
    ∀ q, q ∈ buffered m sym → timestamp q ≤ timestamp p
  | None => buffered m sym = []
  end.
Proof. apply get_latest_well_formed, MemoryFacts.reachable_well_formed. Qed.

(** X4.  In every state the buffer reaches, [get_range] returns no point
    when the interval is inverted, [end < start], and when the symbol is
    not among [get_symbols()]. *)
Theorem get_range_nothing cache_mb calls sym start end_ :
  let m := run (create cache_mb) calls in
  end_ < start ∨ sym ∉ get_symbols m → get_range m sym start end_ = [].
Proof.
  intros m [Hlt|Hsym].
  - destruct (MemoryFacts.well_formed_buffered m sym
                (MemoryFacts.reachable_well_formed cache_mb calls)) as [Hinc _].
    rewrite MemoryFacts.get_range_filter
      by by apply strictly_increasing_nondecreasing.
    apply filter_none, Forall_forall. intros p _. lia.
  - rewrite get_symbols_lookup in Hsym. unfold get_range.
    destruct (symbol_data m !! sym) as [sd|]; [|done].
    exfalso. apply Hsym. by exists sd.
Qed.

End WithSort.
End MemoryReads.

Module MemoryRuns.
Import Memory MemoryInvariant.

Lemma insert_batch_merges_witness :
  well_formed (create 64) ∧
  strictly_increasing
    (buffered (insert_batch (create 64)
                 [Sample.point "AAPL" 5 1; Sample.point "AAPL" 3 3]).2 "AAPL").
Proof.
  split; [apply MemoryFacts.well_formed_create|].
  exact (proj1 (proj2 (MemoryReads.insert_batch_merges (create 64)
                         [Sample.point "AAPL" 5 1; Sample.point "AAPL" 3 3] "AAPL"
                         (MemoryFacts.well_formed_create 64)))).
Defined.

Lemma get_range_nothing_witness :
  get_range (run (create 64) Sample.memory_calls) "AAPL" 5 3 = [].
Proof.
  apply (MemoryReads.get_range_nothing 64 Sample.memory_calls "AAPL" 5 3).
  left. lia.
Defined.

End MemoryRuns.

(** ** More of the segment store *)

Module DiskSegments.
Import Disk DiskInvariant DiskSoundness DiskFresh DiskFiles.

Section WithCodec.
Context `{Codec}.

(** X5.  What a segment does to a point.  [write_segment] of a non-empty
    run of points, with compression on as the engine has it: when the
    file can be created the call returns, and [read_segment] of the same
    symbol and id gives back as many points in the same order, each with
    its value, with the symbol that was asked for - the file holds no
    symbol of its own - and with its timestamp rounded towards zero to a
    whole microsecond.  When the file cannot be created the call throws
    [std::runtime_error] and the layer, index and directory, is as
    before. *)
Theorem write_then_read_segment d sym p pts segment_id :
  enable_compression (config d) = true →
  let name := segment_file_name sym segment_id in
  match write_segment d sym (p :: pts) segment_id with
  | (Ret _, d') =>
    creatable d name = true ∧
    ∃ back,
      read_segment d' sym segment_id = Ret back ∧
      length back = length (p :: pts) ∧
      ∀ i q, (p :: pts) !! i = Some q →
        ∃ q', back !! i = Some q' ∧
              symbol q' = sym ∧ value q' = value q ∧
              timestamp q' =@{Z} timestamp q - Z.rem (timestamp q) 1000
  | (Throw e, d') =>
    creatable d name = false ∧ d' = d ∧
    e = runtime_error ("Failed to create segment file: " +:+ name)
  end.
Proof.
  intros Hc. cbv zeta.
  destruct (write_segment d sym (p :: pts) segment_id) as [[[]|e] d'] eqn:Hw.
  - split.
    { unfold write_segment in Hw. rewrite Hc in Hw.
      by destruct (creatable d (segment_file_name sym segment_id)). }
    exists (stored_form sym <$> (p :: pts)).
    split; [by apply (DiskWrites.write_segment_reads_back d sym p pts segment_id d')|].
    split; [by rewrite length_fmap|].
    intros i q Hq. exists (stored_form sym q).
    split; [by rewrite list_lookup_fmap, Hq|]. split; [done|]. split; [done|].
    rewrite DiskWrites.stored_form_timestamp.
    apply microsecond_floor_quot, time_point_bounds.
  - destruct (DiskWrites.write_segment_thrown _ _ _ _ _ _ Hw) as [-> Hno].
    split; [done|]. split; [done|].
    unfold write_segment in Hw. rewrite Hc, Hno in Hw. by injection Hw as <-.
Qed.

End WithCodec.

Section WithSort.
Context `{Codec} `{StdSort}.

Lemma write_groups_returns gs : ∀ d,
  all_creatable d → (write_groups d gs).1 = Ret ().
Proof.
  induction gs as [|g gs IH]; intros d Hd; [done|]. simpl.
  destruct (write_group d g) as [[[]|x] d1] eqn:Hg.
  - apply IH. intros name. unfold write_group in Hg.
    rewrite (DiskWrites.write_segment_creatable _ _ _ _ _ _ Hg). apply Hd.
  - unfold write_group in Hg.
    destruct (DiskWrites.write_segment_thrown _ _ _ _ _ _ Hg) as [_ Hno].
    by rewrite Hd in Hno.
Qed.

Lemma write_batch_returns d pts :
  all_creatable d → (write_batch d pts).1 = Ret true.
Proof.
  intros Hd. unfold write_batch. destruct pts as [|p pts]; [done|].
  pose proof (write_groups_returns (map_to_list (group_by_symbol (p :: pts))) d Hd) as Hr.
  destruct (write_groups d _) as [[[]|x] d1]; [done|]. simpl in Hr. discriminate Hr.
Qed.

(** X6.  [DiskLayer::write_batch] of points stamped in whole
    microseconds, on a layer that compresses and whose index and files
    agree, when the symbols name files of the data directory, the files
    can be created and the id picked for a symbol - one past the largest
    in use - is free: the call returns [true], index and files still
    agree, and the points stored for a symbol are those stored before
    together with the points of the batch that carry the symbol, every
    one of them, duplicated timestamps included. *)
Theorem write_batch_appends d pts :
  sound d → (∀ sym, fresh_id d sym) → all_creatable d →
  kept_as_written d pts → plain_symbols d pts →
  ∃ d', write_batch d pts = (Ret true, d') ∧ sound d' ∧
    ∀ sym, stored d' sym ≡ₚ filter (has_symbol sym) pts ++ stored d sym.
Proof.
  intros Hd Hfresh Hcreate Hkept _.
  pose proof (write_batch_returns d pts Hcreate) as Hr.
  destruct (write_batch d pts) as [r d'] eqn:Hw. simpl in Hr. subst r.
  exists d'. split; [done|].
  exact (DiskWrites.disk_write_batch_sound d pts d' Hd Hfresh Hkept Hw).
Qed.

End WithSort.
End DiskSegments.

(** ** Reading a sound store *)

Module DiskReads.
Import Disk DiskInvariant DiskSoundness.

Section WithSort.
Context `{Codec} `{StdSort}.

(** A range query of a store whose index and files agree. *)
Lemma read_range_sound d sym start end_ :
  sound d →
  read_range d sym start end_ =
  Ret (sort_by_timestamp (filter (λ p, start ≤ timestamp p < end_) (stored d sym))).
Proof.
  intros Hd. unfold read_range.
  rewrite (DiskFacts.range_query_readable d sym start end_
             (DiskWrites.sound_readable d sym Hd)).
  do 2 f_equal. rewrite list_filter_bool. apply list_filter_iff.
  intros p. apply DiskFacts.in_query_spec.
Qed.

End WithSort.
End DiskReads.

(** ** The recovery scan *)








Module RecoveryFacts.
Import Disk Recovery.

Section WithCodec.
Context `{Codec}.






Lemma only_segment_files_delete dir name :
  only_segment_files dir → only_segment_files (delete name dir).
Proof.
  intros Hdir name' [e He]. apply Hdir. exists e.
  apply lookup_delete_Some in He as [_ He]. done.
Qed.


Section WithSort.
Context `{StdSort}.



End WithSort.

Lemma outcome_bind_ret {A B} (o : outcome A) (f : A → outcome B) b :
  o ≫= f = Ret b → ∃ a, o = Ret a ∧ f a = Ret b.
Proof. destruct o as [a|x]; [by exists a|intros [=]]. Qed.

Lemma scan_entry_scanned dir md name e md' :
  dir !! name = Some e →
  (∀ sym segs, md !! sym = Some segs → scanned_from dir segs) →
  scan_entry md (name, e) = Ret md' →
  ∀ sym segs, md' !! sym = Some segs → scanned_from dir segs.
Proof.
  intros He Hmd. unfold scan_entry.
  destruct (is_regular_file e) eqn:Hreg; simpl; [|by intros [= <-]].
  destruct (String.eqb (path_extension name) ".dat") eqn:Hext; simpl;
    [|by intros [= <-]].
  apply String.eqb_eq in Hext.
  destruct ((string_find (path_stem name) "_" =? npos)
            || (string_rfind (path_stem name) "_" =? npos)); [by intros [= <-]|].
  intros (sym0 & _ & Hrest)%outcome_bind_ret.
  apply outcome_bind_ret in Hrest as (start_field & _ & Hrest).
  apply outcome_bind_ret in Hrest as (start & _ & Hrest).
  apply outcome_bind_ret in Hrest as (end_field & _ & Hrest).
  apply outcome_bind_ret in Hrest as (end_ & _ & Hrest).
  injection Hrest as <-. intros sym segs. rewrite lookup_insert.
  destruct (decide (sym0 = sym)) as [->|Hne]; [|by apply Hmd].
  intros [= <-].
  eexists _, e. split.
  { destruct (md !! sym) as [segs0|] eqn:Hsegs0; simpl.
    - destruct (Hmd sym segs0 Hsegs0) as (info0 & _ & -> & _).
      apply insert_singleton_eq.
    - apply insert_empty. }
  by repeat split.
Qed.

Lemma scan_entries_scanned dir (l : list (string * DirEntry)) : ∀ md md',
  Forall (λ entry, dir !! entry.1 = Some entry.2) l →
  (∀ sym segs, md !! sym = Some segs → scanned_from dir segs) →
  scan_entries md l = Ret md' →
  ∀ sym segs, md' !! sym = Some segs → scanned_from dir segs.
Proof.
  induction l as [|[name e] l IH]; intros md md' Hl Hmd; [by intros [= <-]|].
  apply Forall_cons in Hl as [He Hl]. cbn [scan_entries].
  destruct (scan_entry md (name, e)) as [md1|x] eqn:Hentry; [|done].
  apply (IH md1 md' Hl). by apply (scan_entry_scanned dir md name e md1).
Qed.

(** X11.  What the scan at construction indexes.  When
    [load_existing_segments] returns, every symbol of the index it built
    has exactly one segment, under id 0 - [metadata[symbol][0] = info] is
    the only store, so of several files of one symbol one survives - and
    that segment names a regular file of the directory with the extension
    [.dat], takes its point count from the first eight bytes of the file
    and is marked as not compressed. *)
Theorem load_existing_segments_one_per_symbol dir md :
  load_existing_segments dir = Ret md →
  ∀ sym segs, md !! sym = Some segs →
    ∃ info e,
      segs = {[ 0 := info ]} ∧
      dir !! file_path info = Some e ∧
      is_regular_file e = true ∧
      path_extension (file_path info) = ".dat" ∧
      num_points info = count_points_in_segment e ∧
      compressed info = false.
Proof.
  intros Hload. apply (scan_entries_scanned dir (map_to_list dir) ∅ md); [| |done].
  - apply Forall_forall. by intros [name e] Hin%elem_of_map_to_list.
  - intros sym segs Hsegs. by rewrite lookup_empty in Hsegs.
Qed.

End WithCodec.
End RecoveryFacts.

Module Restarts.
Import Engine Recovery.

Section WithSort.
Context `{Codec} `{StdSort}.





End WithSort.
End Restarts.

(** ** More of the engine *)

Module EngineReads.
Import Engine EngineInvariant DiskSoundness DiskFresh DiskFiles.

Lemma get_range_of_empty m sym start end_ :
  Memory.buffered m sym = [] → Memory.get_range m sym start end_ = [].
Proof.
  intros Hempty. rewrite MemoryFacts.get_range_slice, Hempty. cbv zeta.
  by rewrite drop_nil, take_nil.
Qed.

Section WithSort.
Context `{Codec} `{StdSort}.

(** The two tiers of a query: the buffer with both ends of the interval,
    the store without the upper one. *)
Lemma read_range_tiers e sym start end_ :
  MemoryInvariant.well_formed (memory_layer e) → sound (disk_layer e) →
  ∃ out,
    read_range e sym start end_ = Ret out ∧
    nondecreasing out ∧
    out ≡ₚ filter (λ p, start ≤ timestamp p ≤ end_)
             (Memory.buffered (memory_layer e) sym)
           ++ filter (λ p, start ≤ timestamp p < end_) (stored (disk_layer e) sym).
Proof.
  intros Hm Hd. unfold read_range.
  rewrite (DiskReads.read_range_sound (disk_layer e) sym start end_ Hd).
  eexists. split; [done|]. split; [apply sort_by_timestamp_sorted|].
  destruct (MemoryFacts.well_formed_buffered _ sym Hm) as [Hinc _].
  rewrite MemoryFacts.get_range_filter by by apply strictly_increasing_nondecreasing.
  by rewrite !sort_by_timestamp_perm.
Qed.

(** X13.  [StorageEngine::read_range] over a buffer that keeps its
    invariants and a store whose index and files agree: the call returns
    the buffered points of the symbol with [start <= timestamp <= end]
    together with the stored points of the symbol with
    [start <= timestamp < end], sorted by timestamp and nothing removed.
    The end of the interval counts for a point in memory and not for a
    point on disk, and a timestamp held in both tiers comes back twice.
    The range query of the disk layer takes its shared lock a second
    time, which is granted ([DiskLockFacts.range_query_not_owned]). *)
Theorem read_range_both_tiers e sym start end_ :
  MemoryInvariant.well_formed (memory_layer e) → sound (disk_layer e) →
  ∃ out,
    read_range e sym start end_ = Ret out ∧
    nondecreasing out ∧
    out ≡ₚ filter (λ p, start ≤ timestamp p ≤ end_)
             (Memory.buffered (memory_layer e) sym)
           ++ filter (λ p, start ≤ timestamp p < end_) (stored (disk_layer e) sym).
Proof. apply read_range_tiers. Qed.

(** X14.  [StorageEngine::get_latest] asks the buffer first.  When the
    buffer has points for the symbol the call returns the latest of them
    and the store is not read at all - not even when it holds a later
    point.  When the buffer has none, and index and files of the store
    agree, the call returns the latest stored point with a timestamp below
    [time_point::max()], and [nullopt] when there is none: a stored point
    stamped [time_point::max()] is never returned.
    The range query of the disk layer takes its shared lock a second
    time, which is granted ([DiskLockFacts.range_query_not_owned]). *)
Theorem get_latest_prefers_memory e sym :
  MemoryInvariant.well_formed (memory_layer e) →
  let buffered := Memory.buffered (memory_layer e) sym in
  let stored := stored (disk_layer e) sym in
  (buffered ≠ [] →
   ∃ p, get_latest e sym = Ret (Some p) ∧ p ∈ buffered ∧
        ∀ q, q ∈ buffered → timestamp q ≤ timestamp p) ∧
  (buffered = [] → sound (disk_layer e) →
   ∃ r, get_latest e sym = Ret r ∧
        match r with
        | Some p =>
          p ∈ stored ∧ timestamp p < TS_MAX ∧
          ∀ q, q ∈ stored → timestamp q < TS_MAX → timestamp q ≤ timestamp p
        | None => ∀ q, q ∈ stored → timestamp q =@{Z} TS_MAX
        end).
Proof.
  intros Hm. cbv zeta. unfold get_latest.
  pose proof (MemoryReads.get_latest_well_formed (memory_layer e) sym Hm) as Hlatest.
  split.
  - intros Hne. destruct (Memory.get_latest (memory_layer e) sym) as [p|]; [|done].
    destruct Hlatest as (Hin & _ & Hmax). by exists p.
  - intros Hnil Hd. rewrite MemoryReads.get_latest_buffered, Hnil. simpl.
    rewrite (DiskReads.read_range_sound (disk_layer e) sym TS_MIN TS_MAX Hd).
    eexists. split; [done|].
    set (out := sort_by_timestamp _).
    assert (∀ q, q ∈ out ↔ q ∈ stored (disk_layer e) sym ∧ timestamp q < TS_MAX) as Hout.
    { intros q. unfold out. rewrite sort_by_timestamp_elem_of, list_elem_of_filter.
      pose proof (time_point_bounds (timestamp q)).
      split; [by intros [[_ Hlt] Hin]|intros [Hin Hlt]; split; [lia|done]]. }
    destruct (last out) as [p|] eqn:Hlast.
    + destruct (last_nondecreasing out p (sort_by_timestamp_sorted _) Hlast)
        as [Hin Hmax].
      apply Hout in Hin as [Hin Hlt]. split; [done|]. split; [done|].
      intros q Hq Hqlt. apply Hmax, Hout. done.
    + apply last_None in Hlast. intros q Hq.
      pose proof (time_point_bounds (timestamp q)).
      destruct (decide (timestamp q < TS_MAX)) as [Hlt|Hge]; [|lia].
      assert (q ∈ out) as Hin by (by apply Hout).
      rewrite Hlast in Hin. by apply elem_of_nil in Hin.
Qed.

End WithSort.
End EngineReads.

Module MemorySymbols.
Import Memory.

Lemma get_symbols_get_or_create m sym' sym :
  sym ∈ get_symbols (get_or_create_symbol_data m sym').2
  ↔ sym ∈ get_symbols m ∨ sym' = sym.
Proof.
  rewrite !MemoryReads.get_symbols_lookup. unfold get_or_create_symbol_data.
  destruct (symbol_data m !! sym') as [sd|] eqn:Hsd; simpl.
  - split; [by left|]. intros [?|<-]; [done|by exists sd].
  - rewrite lookup_insert_is_Some. split.
    + intros [?|[_ ?]]; [by right|by left].
    + intros [?|<-]; [|by left].
      destruct (decide (sym' = sym)); [by left|by right].
Qed.

Lemma get_symbols_store m sym' sd added sym :
  sym ∈ get_symbols (store m sym' sd added) ↔ sym ∈ get_symbols m ∨ sym' = sym.
Proof.
  rewrite !MemoryReads.get_symbols_lookup. simpl. rewrite lookup_insert_is_Some.
  split.
  - intros [?|[_ ?]]; [by right|by left].
  - intros [?|<-]; [|by left].
    destruct (decide (sym' = sym)); [by left|by right].
Qed.

Lemma get_symbols_insert m p sym :
  sym ∈ get_symbols (insert m p).2 ↔ sym ∈ get_symbols m ∨ symbol p = sym.
Proof.
  unfold insert. pose proof (get_symbols_get_or_create m (symbol p) sym) as Hgc.
  destruct (get_or_create_symbol_data m (symbol p)) as [sd m1]. simpl in Hgc.
  assert (∀ sd' added, sym ∈ get_symbols (store m1 (symbol p) sd' added)
                       ↔ sym ∈ get_symbols m ∨ symbol p = sym) as Hstore.
  { intros sd' added. rewrite get_symbols_store, Hgc. tauto. }
  destruct (points sd !! _) as [q|]; [|apply Hstore].
  destruct (timestamp q =? timestamp p); [done|apply Hstore].
Qed.

Lemma get_symbols_clear_cache m sym :
  sym ∈ get_symbols (clear_cache m) ↔ sym ∈ get_symbols m.
Proof.
  rewrite !MemoryReads.get_symbols_lookup. simpl. rewrite lookup_fmap.
  apply fmap_is_Some.
Qed.

Lemma insert_true_buffered m p m' :
  insert m p = (true, m') → p ∈ buffered m' (symbol p).
Proof.
  unfold insert. destruct (get_or_create_symbol_data m (symbol p)) as [sd m1].
  assert (∀ l1 l2 n added,
            p ∈ buffered (store m1 (symbol p)
                            {| points := l1 ++ p :: l2; total_points := n |} added)
                         (symbol p)) as Hstore.
  { intros l1 l2 n added. unfold buffered. simpl. rewrite lookup_insert_eq. simpl.
    apply elem_of_app. right. by left. }
  destruct (points sd !! _) as [q|].
  - destruct (timestamp q =? timestamp p); [done|]. intros [= <-]. apply Hstore.
  - intros [= <-]. apply Hstore.
Qed.

Section WithSort.
Context `{StdSort}.

Lemma get_symbols_insert_group m g sym :
  sym ∈ get_symbols (insert_group m g) ↔ sym ∈ get_symbols m ∨ g.1 = sym.
Proof.
  unfold insert_group. pose proof (get_symbols_get_or_create m g.1 sym) as Hgc.
  destruct (get_or_create_symbol_data m g.1) as [sd m1]. simpl in Hgc.
  rewrite get_symbols_store, Hgc. tauto.
Qed.

Lemma get_symbols_insert_groups gs : ∀ m sym,
  sym ∈ get_symbols (foldl insert_group m gs) ↔ sym ∈ get_symbols m ∨ sym ∈ gs.*1.
Proof.
  induction gs as [|g gs IH]; intros m sym.
  - simpl. split; [by left|]. by intros [?|?%elem_of_nil].
  - cbn [foldl]. rewrite IH, get_symbols_insert_group, fmap_cons, elem_of_cons.
    split; [intros [[?|<-]|?]; eauto|intros [?|[->|?]]; eauto].
Qed.

Lemma get_symbols_insert_batch m pts sym :
  sym ∈ get_symbols (insert_batch m pts).2
  ↔ sym ∈ get_symbols m ∨ ∃ p, p ∈ pts ∧ symbol p = sym.
Proof.
  assert (sym ∈ (map_to_list (group_by_symbol pts)).*1
          ↔ ∃ p, p ∈ pts ∧ symbol p = sym) as Hkeys.
  { rewrite list_elem_of_fmap. split.
    - intros ([k own] & -> & Hin%elem_of_map_to_list). simpl.
      rewrite group_by_symbol_lookup in Hin.
      destruct (filter (has_symbol k) pts) as [|p own'] eqn:Hf; [done|].
      exists p. assert (p ∈ filter (has_symbol k) pts) as Hp by (rewrite Hf; by left).
      apply list_elem_of_filter in Hp as [Hsym Hp]. done.
    - intros (p & Hp & Hsym).
      assert (p ∈ filter (has_symbol sym) pts) as Hin by (by apply list_elem_of_filter).
      pose proof (group_by_symbol_lookup pts sym) as Hlook.
      destruct (filter (has_symbol sym) pts) as [|q own] eqn:Hf;
        [by apply elem_of_nil in Hin|].
      exists (sym, q :: own). split; [done|]. by apply elem_of_map_to_list. }
  unfold insert_batch. destruct pts as [|p pts].
  - simpl. split; [by left|]. intros [?|(p & Hp%elem_of_nil & _)]; done.
  - cbn [snd]. by rewrite get_symbols_insert_groups, Hkeys.
Qed.

Lemma insert_batch_not_empty m p pts :
  ∃ sym, buffered (insert_batch m (p :: pts)).2 sym ≠ [].
Proof.
  exists (symbol p). rewrite MemoryFacts.buffered_insert_batch.
  assert (p ∈ filter (has_symbol (symbol p)) (p :: pts)) as Hin.
  { apply list_elem_of_filter. split; [done|by left]. }
  destruct (filter (has_symbol (symbol p)) (p :: pts)) as [|q own] eqn:Hf;
    [by apply elem_of_nil in Hin|].
  destruct (MemoryFacts.merged_with_covers (buffered m (symbol p)) (q :: own) p)
    as (y & Hy & _); [by right|].
  intros Hnil. rewrite Hnil in Hy. by apply elem_of_nil in Hy.
Qed.

End WithSort.
End MemorySymbols.

Module EngineWrites.
Import Engine EngineInvariant EngineSymbols DiskSoundness DiskFresh DiskFiles.

Section WithSort.
Context `{Codec} `{StdSort}.

Lemma flush_returned_true e e' :
  flush e = (Ret true, e') →
  (points_to_flush (memory_layer e) = [] ∧ e' = e) ∨
  (points_to_flush (memory_layer e) ≠ [] ∧
   memory_layer e' = Memory.clear_cache (memory_layer e) ∧
   config e' = config e ∧ total_points e' = total_points e).
Proof.
  unfold flush. destruct (points_to_flush (memory_layer e)) as [|p pts] eqn:Hpts.
  { intros [= <-]. by left. }
  destruct (Disk.write_batch (disk_layer e) (p :: pts)) as [[[]|x] d']; intros [= <-].
  right. done.
Qed.

Lemma cleared_memory_empty e m :
  memory_layer e = Memory.clear_cache m →
  Memory.cache_size (memory_layer e) = 0 ∧ memory_empty e.
Proof.
  intros Hm. split; [by rewrite Hm|].
  intros sym. rewrite Hm. apply MemoryFacts.buffered_clear_cache.
Qed.

Lemma flush_after_write e e' sym :
  MemoryInvariant.well_formed (memory_layer e) →
  Memory.buffered (memory_layer e) sym ≠ [] →
  flush e = (Ret true, e') →
  config e' = config e ∧ Memory.cache_size (memory_layer e') = 0 ∧ memory_empty e'.
Proof.
  intros Hm Hne [[Hnil _]|(_ & Hcleared & Hcfg & _)]%flush_returned_true.
  - exfalso. apply Hne. by apply EngineFacts.points_to_flush_nil_empty.
  - split; [done|]. by apply (cleared_memory_empty e' (memory_layer e)).
Qed.

(** X15.  The limit [max_memory_points] holds after every write that
    succeeds.  On an engine whose buffer keeps its invariants, when
    [write_point], or [write_batch] of a batch that is not empty, returns
    [true], the buffer is left with fewer than [max_memory_points] points
    on its counter, or it was flushed and is empty. *)
Theorem writes_keep_buffer_below_limit e e' :
  MemoryInvariant.well_formed (memory_layer e) →
  (∃ p, write_point e p = (Ret true, e')) ∨
  (∃ pts, pts ≠ [] ∧ write_batch e pts = (Ret true, e')) →
  Memory.cache_size (memory_layer e') < max_memory_points (config e') ∨
  (Memory.cache_size (memory_layer e') = 0 ∧ memory_empty e').
Proof.
  intros Hm [[p Hw]|(pts & Hne & Hw)].
  - unfold write_point in Hw.
    destruct (Memory.insert (memory_layer e) p) as [[] m'] eqn:Hins; [|done].
    destruct (max_memory_points (config e) <=? Memory.cache_size m') eqn:Hfull.
    + right. eapply (flush_after_write _ e' (symbol p)); [| |exact Hw]; simpl.
      * replace m' with (Memory.insert (memory_layer e) p).2 by by rewrite Hins.
        by apply MemoryFacts.insert_well_formed.
      * intros Hnil. pose proof (MemorySymbols.insert_true_buffered _ _ _ Hins) as Hin.
        rewrite Hnil in Hin. by apply elem_of_nil in Hin.
    + injection Hw as <-. left. simpl. by apply Z.leb_gt.
  - unfold write_batch in Hw. destruct pts as [|p pts]; [done|].
    destruct (Memory.insert_batch (memory_layer e) (p :: pts)) as [[] m'] eqn:Hins;
      [|done].
    assert (m' = (Memory.insert_batch (memory_layer e) (p :: pts)).2) as Hm'
      by by rewrite Hins.
    destruct (max_memory_points (config e) <=? Memory.cache_size m') eqn:Hfull.
    + right. destruct (MemorySymbols.insert_batch_not_empty (memory_layer e) p pts)
        as [sym Hsym].
      eapply (flush_after_write _ e' sym); [| |exact Hw]; simpl; rewrite Hm'.
      * by apply MemoryFacts.insert_batch_well_formed.
      * done.
    + injection Hw as <-. left. simpl. by apply Z.leb_gt.
Qed.

(** X16.  [flush] twice is [flush] once: when [flush] returns [true] the
    counter of the buffer is zero or nothing was buffered, and a second
    [flush] returns [true] and changes nothing - it writes no segment. *)
Theorem flush_twice e e1 :
  flush e = (Ret true, e1) →
  flush e1 = (Ret true, e1) ∧ points_to_flush (memory_layer e1) = [].
Proof.
  intros [[Hnil ->]|(_ & Hcleared & _)]%flush_returned_true.
  - split; [by apply EngineFacts.flush_nothing|done].
  - assert (points_to_flush (memory_layer e1) = []) as Hnil.
    { apply EngineFacts.points_to_flush_empty. intros sym. rewrite Hcleared.
      apply MemoryFacts.buffered_clear_cache. }
    split; [by apply EngineFacts.flush_nothing|done].
Qed.

Lemma get_symbols_flush e sym :
  sym ∈ get_symbols (flush e).2 ↔ sym ∈ get_symbols e.
Proof.
  unfold get_symbols.
  destruct (EngineFacts.memory_layer_flush e) as [->| ->]; [done|].
  apply MemorySymbols.get_symbols_clear_cache.
Qed.

Lemma get_symbols_perform e c sym :
  sym ∈ get_symbols (perform e c) ↔ sym ∈ get_symbols e ∨ offers c sym.
Proof.
  destruct c as [p|pts| | | | | |]; simpl;
    try (split; [by left|by intros [?|?]]).
  - unfold write_point.
    pose proof (MemorySymbols.get_symbols_insert (memory_layer e) p sym) as Hins.
    destruct (Memory.insert (memory_layer e) p) as [[] m']; simpl in Hins; [|done].
    destruct (_ <=? _); [|done]. by rewrite get_symbols_flush.
  - unfold write_batch.
    pose proof (MemorySymbols.get_symbols_insert_batch (memory_layer e) pts sym) as Hins.
    destruct pts as [|p pts]; [done|].
    destruct (Memory.insert_batch (memory_layer e) (p :: pts)) as [[] m'];
      simpl in Hins; [|done].
    destruct (_ <=? _); [|done]. by rewrite get_symbols_flush.
  - rewrite get_symbols_flush. split; [by left|by intros [?|?]].
  - unfold optimize. pose proof (get_symbols_flush e sym) as Hflush.
    destruct (flush e) as [[b|x] e1]; simpl in Hflush.
    + rewrite DiskLockFacts.optimize_index_not_owned.
      simpl. unfold get_symbols in *. simpl. rewrite Hflush.
      split; [by left|by intros [?|?]].
    + simpl. rewrite Hflush. split; [by left|by intros [?|?]].
Qed.

(** X17.  [get_symbols] reports the symbols of the points the engine was
    handed, and never forgets one.  After any sequence of calls a symbol
    is reported exactly when it was reported before or a [write_point] or
    [write_batch] of the sequence carried a point of it - whether that
    point was stored, refused as a duplicate or flushed since.  Symbols
    that are in the segment store only are not reported. *)
Theorem get_symbols_is_what_was_written calls : ∀ e sym,
  sym ∈ get_symbols (run e calls)
  ↔ sym ∈ get_symbols e ∨ ∃ c, c ∈ calls ∧ offers c sym.
Proof.
  induction calls as [|c calls IH]; intros e sym; simpl.
  - split; [by left|]. by intros [?|(c & Hc%elem_of_nil & _)].
  - rewrite IH, get_symbols_perform. split.
    + intros [[?|?]|(c' & Hc' & Hoff)].
      * by left.
      * right. exists c. split; [by left|done].
      * right. exists c'. split; [by right|done].
    + intros [?|(c' & [->|Hc']%elem_of_cons & Hoff)].
      * by left; left.
      * by left; right.
      * right. by exists c'.
Qed.

End WithSort.
End EngineWrites.

Module EngineOptimize.
Import Engine.

Section WithSort.
Context `{Codec} `{StdSort}.

(** X18.  [optimize] is a [flush] and nothing more.  The call flushes,
    and then calls [optimize_index] of the disk layer, which changes
    nothing: [optimize] throws what the flush throws, returns otherwise,
    and leaves the engine in the state the flush left it in.  Timestamps
    the store holds twice are still held twice, and every range query
    answers as it does after the flush alone. *)
Theorem optimize_only_flushes e :
  optimize e =
    (match (flush e).1 with Ret _ => Ret () | Throw x => Throw x end, (flush e).2) ∧
  ∀ sym start end_,
    read_range (optimize e).2 sym start end_ = read_range (flush e).2 sym start end_.
Proof.
  assert (optimize e =
    (match (flush e).1 with Ret _ => Ret () | Throw x => Throw x end, (flush e).2)) as Heq.
  { unfold optimize. destruct (flush e) as [[b|x] e1]; [|done].
    rewrite DiskLockFacts.optimize_index_not_owned. simpl.
    by rewrite EngineFacts.with_disk_same. }
  split; [exact Heq|]. intros sym start end_. by rewrite Heq.
Qed.

End WithSort.
End EngineOptimize.

(** ** Runs of the further properties on the samples *)

Lemma all_symbols {A} (m : gmap string A) (P : string → Prop) :
  (∀ sym, m !! sym = None → P sym) → Forall P (map_to_list m).*1 → ∀ sym, P sym.
Proof.
  intros Hnone Hkeys sym. destruct (m !! sym) as [x|] eqn:Hx; [|by apply Hnone].
  apply (proj1 (Forall_forall _ _) Hkeys). apply list_elem_of_fmap.
  exists (sym, x). split; [done|]. by apply elem_of_map_to_list.
Qed.

Module SampleFacts.
Import Disk DiskSoundness DiskFresh DiskFiles.

Lemma empty_sound can_create : sound (SampleDisk.empty can_create).
Proof.
  intros sym segment_id info (segs & Hsegs & _). simpl in Hsegs.
  by rewrite lookup_empty in Hsegs.
Qed.

Lemma empty_fresh can_create sym : fresh_id (SampleDisk.empty can_create) sym.
Proof. by apply DiskWrites.fresh_id_unindexed. Qed.

Lemma first_batch_sound : sound SampleTiers.first_batch.
Proof.
  apply (DiskWrites.disk_write_batch_sound (SampleDisk.empty SampleEngine.writable)
           [Sample.point "AAPL" 5 1; Sample.point "AAPL" 9 3] SampleTiers.first_batch).
  - apply empty_sound.
  - apply empty_fresh.
  - split; [done|]. repeat constructor.
  - vm_compute. reflexivity.
Qed.

Lemma first_batch_fresh sym : fresh_id SampleTiers.first_batch sym.
Proof.
  revert sym. apply (all_symbols (metadata SampleTiers.first_batch)).
  - intros sym. apply DiskWrites.fresh_id_unindexed.
  - assert ((map_to_list (metadata SampleTiers.first_batch)).*1 = ["AAPL"]) as ->
      by (vm_compute; reflexivity).
    repeat constructor; vm_compute; reflexivity.
Qed.

Lemma flushed_sound : sound (Engine.disk_layer SampleRoundTrip.flushed).
Proof.
  destruct (RoundTrip.fresh_engine SampleEngine.config SampleEngine.writable _
              (EngineRuns.create_fresh SampleEngine.writable))
    as (Hempty & Hm & Hd & Hfresh & _ & Hc).
  by destruct (RoundTrip.write_batch_then_flush _ SampleRoundTrip.batch _ _
                 Hempty Hm Hd Hfresh (conj Hc StoreRuns.batch_whole)
                 StoreRuns.written_returns StoreRuns.flushed_returns)
    as (_ & Hsound & _).
Qed.

Lemma both_well_formed : MemoryInvariant.well_formed (Engine.memory_layer SampleTiers.both).
Proof.
  apply EngineFacts.write_point_well_formed.
  change SampleRoundTrip.flushed with (Engine.flush SampleRoundTrip.written).2.
  apply EngineFacts.flush_well_formed, EngineFacts.write_batch_well_formed,
    EngineRuns.fresh_well_formed.
Qed.

Lemma both_disk : Engine.disk_layer SampleTiers.both = Engine.disk_layer SampleRoundTrip.flushed.
Proof. vm_compute. reflexivity. Qed.

Lemma both_sound : sound (Engine.disk_layer SampleTiers.both).
Proof. rewrite both_disk. apply flushed_sound. Qed.

End SampleFacts.

Module SegmentRuns.
Import Disk DiskSoundness DiskFresh DiskFiles.

Lemma write_then_read_segment_witness :
  enable_compression (config (SampleDisk.empty SampleEngine.writable)) = true ∧
  ∃ back q',
    read_segment
      (write_segment (SampleDisk.empty SampleEngine.writable) "AAPL"
         [Sample.point_at "GOOG" 1999 1; Sample.point "AAPL" 9 3] 0).2 "AAPL" 0
    = Ret back ∧
    back !! 0%nat = Some q' ∧ symbol q' = "AAPL" ∧ timestamp q' =@{Z} 1000.
Proof.
  split; [reflexivity|].
  pose proof (DiskSegments.write_then_read_segment
                (SampleDisk.empty SampleEngine.writable) "AAPL"
                (Sample.point_at "GOOG" 1999 1) [Sample.point "AAPL" 9 3] 0 eq_refl) as Hthm.
  cbv zeta in Hthm.
  destruct (write_segment (SampleDisk.empty SampleEngine.writable) "AAPL"
              [Sample.point_at "GOOG" 1999 1; Sample.point "AAPL" 9 3] 0) as [[[]|x] d'].
  - destruct Hthm as (_ & back & Hread & _ & Hpoints).
    destruct (Hpoints 0%nat (Sample.point_at "GOOG" 1999 1) eq_refl)
      as (q' & Hq' & Hsym & _ & Hts).
    exists back, q'. split; [exact Hread|]. split; [exact Hq'|]. split; [exact Hsym|].
    rewrite Hts. reflexivity.
  - destruct Hthm as [Hno _]. vm_compute in Hno. discriminate Hno.
Defined.

Lemma write_batch_appends_witness :
  sound SampleTiers.first_batch ∧
  (∀ sym, fresh_id SampleTiers.first_batch sym) ∧
  all_creatable SampleTiers.first_batch ∧
  kept_as_written SampleTiers.first_batch [Sample.point "AAPL" 5 2] ∧
  plain_symbols SampleTiers.first_batch [Sample.point "AAPL" 5 2] ∧
  ∃ d', write_batch SampleTiers.first_batch [Sample.point "AAPL" 5 2] = (Ret true, d') ∧
        stored d' "AAPL"
          ≡ₚ filter (has_symbol "AAPL") [Sample.point "AAPL" 5 2]
             ++ stored SampleTiers.first_batch "AAPL".
Proof.
  assert (all_creatable SampleTiers.first_batch) as Hall.
  { intros name. vm_compute. reflexivity. }
  assert (kept_as_written SampleTiers.first_batch [Sample.point "AAPL" 5 2]) as Hkept.
  { split; [reflexivity|]. repeat constructor. }
  assert (plain_symbols SampleTiers.first_batch [Sample.point "AAPL" 5 2]) as Hplain.
  { split; [|repeat constructor].
    apply (all_symbols (metadata SampleTiers.first_batch)
             (λ sym, is_Some (metadata SampleTiers.first_batch !! sym) → _)).
    - intros sym -> [info Hsome]. discriminate Hsome.
    - assert ((map_to_list (metadata SampleTiers.first_batch)).*1 = ["AAPL"]) as ->
        by (vm_compute; reflexivity).
      repeat constructor. }
  split; [exact SampleFacts.first_batch_sound|].
  split; [exact SampleFacts.first_batch_fresh|]. split; [exact Hall|].
  split; [exact Hkept|]. split; [exact Hplain|].
  destruct (DiskSegments.write_batch_appends SampleTiers.first_batch
              [Sample.point "AAPL" 5 2] SampleFacts.first_batch_sound
              SampleFacts.first_batch_fresh Hall Hkept Hplain) as (d' & Hw & _ & Hstored).
  exists d'. split; [exact Hw|exact (Hstored "AAPL")].
Defined.

Lemma load_existing_segments_one_per_symbol_witness :
  ∃ md, load_existing_segments SampleDisk.two_field_directory = Ret md ∧
        ∀ sym segs, md !! sym = Some segs → size segs = 1%nat.
Proof.
  destruct (load_existing_segments SampleDisk.two_field_directory) as [md|x] eqn:Hload.
  2:{ exfalso. vm_compute in Hload. discriminate Hload. }
  exists md. split; [reflexivity|]. intros sym segs Hsegs.
  destruct (RecoveryFacts.load_existing_segments_one_per_symbol
              SampleDisk.two_field_directory md Hload sym segs Hsegs)
    as (info & e & -> & _).
  apply map_size_singleton.
Defined.

End SegmentRuns.

Module EngineMoreRuns.
Import Engine EngineInvariant DiskSoundness DiskFresh DiskFiles.


Lemma read_range_both_tiers_witness :
  MemoryInvariant.well_formed (memory_layer SampleTiers.both) ∧
  sound (disk_layer SampleTiers.both) ∧
  ∃ out, read_range SampleTiers.both "AAPL" 0 9000 = Ret out ∧
         out ≡ₚ filter (λ p, 0 ≤ timestamp p ≤ 9000)
                  (Memory.buffered (memory_layer SampleTiers.both) "AAPL")
                ++ filter (λ p, 0 ≤ timestamp p < 9000)
                     (stored (disk_layer SampleTiers.both) "AAPL").
Proof.
  split; [exact SampleFacts.both_well_formed|]. split; [exact SampleFacts.both_sound|].
  destruct (EngineReads.read_range_both_tiers SampleTiers.both "AAPL" 0 9000
              SampleFacts.both_well_formed SampleFacts.both_sound)
    as (out & Hread & _ & Hperm).
  exists out. split; [exact Hread|exact Hperm].
Defined.

Lemma get_latest_prefers_memory_witness :
  MemoryInvariant.well_formed (memory_layer SampleTiers.both) ∧
  ∃ p, get_latest SampleTiers.both "AAPL" = Ret (Some p) ∧
       p ∈ Memory.buffered (memory_layer SampleTiers.both) "AAPL".
Proof.
  split; [exact SampleFacts.both_well_formed|].
  destruct (proj1 (EngineReads.get_latest_prefers_memory SampleTiers.both "AAPL"
                     SampleFacts.both_well_formed))
    as (p & Hlatest & Hin & _).
  - vm_compute. discriminate.
  - exists p. split; [exact Hlatest|exact Hin].
Defined.

Lemma writes_keep_buffer_below_limit_witness :
  MemoryInvariant.well_formed (memory_layer (SampleEngine.fresh SampleEngine.writable)) ∧
  write_batch (SampleEngine.fresh SampleEngine.writable) SampleRoundTrip.batch
    = (Ret true, SampleRoundTrip.written) ∧
  (Memory.cache_size (memory_layer SampleRoundTrip.written)
     < max_memory_points (config SampleRoundTrip.written) ∨
   (Memory.cache_size (memory_layer SampleRoundTrip.written) = 0 ∧
    memory_empty SampleRoundTrip.written)).
Proof.
  split; [apply EngineRuns.fresh_well_formed|].
  split; [exact StoreRuns.written_returns|].
  apply (EngineWrites.writes_keep_buffer_below_limit
           (SampleEngine.fresh SampleEngine.writable) SampleRoundTrip.written
           (EngineRuns.fresh_well_formed SampleEngine.writable)).
  right. exists SampleRoundTrip.batch. split; [discriminate|].
  exact StoreRuns.written_returns.
Defined.

Lemma flush_twice_witness :
  flush SampleRoundTrip.written = (Ret true, SampleRoundTrip.flushed) ∧
  flush SampleRoundTrip.flushed = (Ret true, SampleRoundTrip.flushed).
Proof.
  split; [exact StoreRuns.flushed_returns|].
  exact (proj1 (EngineWrites.flush_twice SampleRoundTrip.written SampleRoundTrip.flushed
                  StoreRuns.flushed_returns)).
Defined.

(** [optimize] on an engine that holds the timestamp of 5 microseconds
    on disk and once more in its buffer: the flush writes a second
    segment, and the full-range query returns the timestamp twice. *)
Lemma optimize_only_flushes_witness :
  let e := (write_point SampleRoundTrip.flushed (Sample.point "AAPL" 5 9)).2 in
  (optimize e).1 = Ret () ∧
  read_range (optimize e).2 "AAPL" TS_MIN TS_MAX
    = Ret [Sample.point "AAPL" 3 3; Sample.point "AAPL" 5 9; Sample.point "AAPL" 5 1].
Proof.
  cbv zeta.
  destruct (EngineOptimize.optimize_only_flushes
              (write_point SampleRoundTrip.flushed (Sample.point "AAPL" 5 9)).2)
    as [Hopt Hread].
  split.
  - rewrite Hopt. vm_compute. reflexivity.
  - rewrite Hread. vm_compute. reflexivity.
Defined.

End EngineMoreRuns.

Module EngineTiers.
Import Engine EngineInvariant DiskSoundness.

Lemma insert_counter m p m' :
  Memory.insert m p = (true, m') →
  Memory.total_points_ m' = size_t_wrap (Memory.total_points_ m + 1).
Proof.
  unfold Memory.insert.
  destruct (Memory.get_or_create_symbol_data m (symbol p)) as [sd m1] eqn:Hgc.
  assert (Memory.total_points_ m1 = Memory.total_points_ m) as Hsame.
  { unfold Memory.get_or_create_symbol_data in Hgc.
    destruct (Memory.symbol_data m !! symbol p); by injection Hgc as <- <-. }
  destruct (Memory.points sd !! _) as [q|].
  - destruct (timestamp q =? timestamp p); [done|]. intros [= <-]. simpl. by rewrite Hsame.
  - intros [= <-]. simpl. by rewrite Hsame.
Qed.

Section WithSort.
Context `{Codec} `{StdSort}.

(** X19.  The duplicate check of [write_point] covers the buffer only.
    On an engine whose buffer keeps its invariants and whose store has
    index and files in agreement: a point whose timestamp is new to the
    buffer of its symbol is accepted even when the store already holds a
    point of the symbol with that timestamp, and - the write not having
    reached the flush limit - the full-range query then returns both, so
    its result is not strictly increasing.
    The range query of the disk layer takes its shared lock a second
    time, which is granted ([DiskLockFacts.range_query_not_owned]). *)
Theorem write_point_repeats_stored_timestamp e p q :
  MemoryInvariant.well_formed (memory_layer e) → sound (disk_layer e) →
  (∀ b, b ∈ Memory.buffered (memory_layer e) (symbol p) →
     timestamp b ≠@{Z} timestamp p) →
  q ∈ stored (disk_layer e) (symbol p) → timestamp q =@{Z} timestamp p →
  timestamp p < TS_MAX →
  size_t_wrap (Memory.cache_size (memory_layer e) + 1) < max_memory_points (config e) →
  ∃ e' out,
    write_point e p = (Ret true, e') ∧
    read_range e' (symbol p) TS_MIN TS_MAX = Ret out ∧
    p ∈ out ∧ q ∈ out ∧ ¬ strictly_increasing out.
Proof.
  intros Hm Hd Hnew Hq Hts Hmax Hroom.
  destruct (MemoryFacts.insert_fresh (memory_layer e) p Hm Hnew) as (Hret & Hown & _).
  destruct (Memory.insert (memory_layer e) p) as [b m'] eqn:Hins.
  simpl in Hret, Hown. subst b.
  pose proof (insert_counter _ _ _ Hins) as Hcount.
  set (e' := count (with_memory e m') 1).
  assert (write_point e p = (Ret true, e')) as Hw.
  { unfold write_point. rewrite Hins. cbn [config].
    assert ((max_memory_points (config e) <=? Memory.cache_size m') = false) as ->; [|done].
    apply Z.leb_gt. unfold Memory.cache_size in *. by rewrite Hcount. }
  assert (MemoryInvariant.well_formed (memory_layer e')) as Hm'.
  { simpl. replace m' with (Memory.insert (memory_layer e) p).2 by by rewrite Hins.
    by apply MemoryFacts.insert_well_formed. }
  destruct (EngineReads.read_range_tiers e' (symbol p) TS_MIN TS_MAX Hm' Hd)
    as (out & Hread & _ & Hperm).
  assert (p ∈ filter (λ x, TS_MIN ≤ timestamp x ≤ TS_MAX)
                (Memory.buffered (memory_layer e') (symbol p))) as Hp.
  { apply list_elem_of_filter. split; [apply time_point_bounds|].
    simpl. rewrite Hown. apply elem_of_app. right. by left. }
  assert (q ∈ filter (λ x, TS_MIN ≤ timestamp x < TS_MAX)
                (stored (disk_layer e') (symbol p))) as Hq'.
  { apply list_elem_of_filter. split; [|done].
    pose proof (time_point_bounds (timestamp q)). lia. }
  exists e', out. split; [done|]. split; [done|].
  split; [rewrite Hperm; apply elem_of_app; by left|].
  split; [rewrite Hperm; apply elem_of_app; by right|].
  intros Hinc%strictly_increasing_NoDup_timestamps.
  rewrite Hperm, fmap_app in Hinc. apply NoDup_app in Hinc as (_ & Hdisjoint & _).
  apply (Hdisjoint (timestamp p)).
  - apply list_elem_of_fmap. by exists p.
  - apply list_elem_of_fmap. exists q. split; [|done].
    symmetry. by apply time_point_eq.
Qed.

End WithSort.
End EngineTiers.

Module EngineConfiguration.
Import Engine.

Section WithSort.
Context `{Codec} `{StdSort}.

Lemma write_groups_config gs : ∀ d,
  Disk.config (Disk.write_groups d gs).2 = Disk.config d.
Proof.
  induction gs as [|g gs IH]; intros d; [done|]. simpl.
  pose proof (DiskWrites.write_segment_keeps_config d g.1 (sort_by_timestamp g.2)
                (Disk.next_segment_id d g.1)) as Hcfg.
  unfold Disk.write_group. destruct (Disk.write_segment d g.1 _ _) as [[[]|x] d1]; [|done].
  simpl in Hcfg. by rewrite IH.
Qed.

Lemma write_batch_config d pts :
  Disk.config (Disk.write_batch d pts).2 = Disk.config d.
Proof.
  unfold Disk.write_batch. destruct pts as [|p pts]; [done|].
  pose proof (write_groups_config (map_to_list (group_by_symbol (p :: pts))) d) as Hgs.
  by destruct (Disk.write_groups d _) as [[[]|x] d1].
Qed.

Lemma flush_config e :
  Disk.config (disk_layer (flush e).2) = Disk.config (disk_layer e) ∧
  config (flush e).2 = config e.
Proof.
  unfold flush. destruct (points_to_flush (memory_layer e)) as [|p pts]; [done|].
  pose proof (write_batch_config (disk_layer e) (p :: pts)) as Hw.
  by destruct (Disk.write_batch (disk_layer e) (p :: pts)) as [[[]|x] d'].
Qed.

Lemma perform_config e c :
  Disk.config (disk_layer (perform e c)) = Disk.config (disk_layer e) ∧
  config (perform e c) = config e.
Proof.
  assert (∀ e1, Disk.config (disk_layer e1) = Disk.config (disk_layer e) →
                config e1 = config e →
                Disk.config (disk_layer (flush e1).2) = Disk.config (disk_layer e) ∧
                config (flush e1).2 = config e) as Hflush.
  { intros e1 Hd Hc. destruct (flush_config e1) as [-> ->]. done. }
  destruct c as [point|pts| | | | | |]; simpl; try done.
  - unfold write_point. destruct (Memory.insert (memory_layer e) point) as [[] m']; [|done].
    destruct (_ <=? _); [|done]. by apply Hflush.
  - unfold write_batch. destruct pts as [|p pts]; [done|].
    destruct (Memory.insert_batch (memory_layer e) (p :: pts)) as [[] m']; [|done].
    destruct (_ <=? _); [|done]. by apply Hflush.
  - by apply Hflush.
  - unfold optimize. destruct (flush_config e) as [Hd Hc].
    destruct (flush e) as [[b|x] e1]; [|done]. simpl in Hd, Hc.
    rewrite DiskLockFacts.optimize_index_not_owned. simpl. done.
Qed.

(** X20.  The engine never hands its configuration to the segment store.
    The constructor builds the disk layer from the data directory alone,
    so whatever [EngineConfig] says about compression, batch size or
    segment size, in every state the engine reaches the disk layer runs on
    the defaults of [DiskConfig] - compression is on - and the
    configuration of the engine itself is the one it was built with. *)
Theorem disk_layer_runs_on_defaults cfg dir can_create e0 calls :
  create cfg dir can_create = Ret e0 →
  Disk.config (disk_layer (run e0 calls)) = Disk.default_config ∧
  Disk.enable_compression (Disk.config (disk_layer (run e0 calls))) = true ∧
  config (run e0 calls) = cfg.
Proof.
  intros Hcreate.
  assert (Disk.config (disk_layer e0) = Disk.default_config ∧ config e0 = cfg) as Hstart.
  { unfold create, Disk.create in Hcreate.
    destruct (Disk.load_existing_segments dir) as [md|x]; [|done].
    by injection Hcreate as <-. }
  assert (Disk.config (disk_layer (run e0 calls)) = Disk.default_config ∧
          config (run e0 calls) = cfg) as [Hd Hc].
  { clear Hcreate. revert e0 Hstart.
    induction calls as [|c calls IH]; intros e0 Hstart; [done|].
    apply IH. destruct (perform_config e0 c) as [-> ->]. done. }
  split; [done|]. split; [by rewrite Hd|done].
Qed.

End WithSort.
End EngineConfiguration.

Module EngineTierRuns.
Import Engine EngineInvariant DiskSoundness.

Lemma flushed_well_formed :
  MemoryInvariant.well_formed (memory_layer SampleRoundTrip.flushed).
Proof.
  change SampleRoundTrip.flushed with (flush SampleRoundTrip.written).2.
  apply EngineFacts.flush_well_formed, EngineFacts.write_batch_well_formed,
    EngineRuns.fresh_well_formed.
Qed.

Lemma write_point_repeats_stored_timestamp_witness :
  MemoryInvariant.well_formed (memory_layer SampleRoundTrip.flushed) ∧
  sound (disk_layer SampleRoundTrip.flushed) ∧
  Sample.point "AAPL" 5 1 ∈ stored (disk_layer SampleRoundTrip.flushed) "AAPL" ∧
  ∃ e' out,
    write_point SampleRoundTrip.flushed (Sample.point "AAPL" 5 9) = (Ret true, e') ∧
    read_range e' "AAPL" TS_MIN TS_MAX = Ret out ∧
    ¬ strictly_increasing out.
Proof.
  assert (Sample.point "AAPL" 5 1 ∈ stored (disk_layer SampleRoundTrip.flushed) "AAPL")
    as Hq.
  { assert (stored (disk_layer SampleRoundTrip.flushed) "AAPL"
            = [Sample.point "AAPL" 3 3; Sample.point "AAPL" 5 1]) as ->
      by (vm_compute; reflexivity).
    right. by left. }
  split; [exact flushed_well_formed|]. split; [exact SampleFacts.flushed_sound|].
  split; [exact Hq|].
  destruct (EngineTiers.write_point_repeats_stored_timestamp SampleRoundTrip.flushed
              (Sample.point "AAPL" 5 9) (Sample.point "AAPL" 5 1)
              flushed_well_formed SampleFacts.flushed_sound)
    as (e' & out & Hw & Hread & _ & _ & Hdup).
  - assert (Memory.buffered (memory_layer SampleRoundTrip.flushed)
              (symbol (Sample.point "AAPL" 5 9)) = []) as Hnil
      by (vm_compute; reflexivity).
    intros b Hb. rewrite Hnil in Hb. apply elem_of_nil in Hb. destruct Hb.
  - exact Hq.
  - vm_compute. reflexivity.
  - by vm_compute.
  - by vm_compute.
  - exists e', out. split; [exact Hw|]. split; [exact Hread|exact Hdup].
Defined.

Lemma disk_layer_runs_on_defaults_witness :
  Engine.enable_compression SampleConfig.uncompressed = false ∧
  ∃ e0, create SampleConfig.uncompressed ∅ SampleEngine.writable = Ret e0 ∧
        Disk.enable_compression (Disk.config (disk_layer (run e0 SampleCalls.session)))
        = true.
Proof.
  split; [reflexivity|].
  destruct (create SampleConfig.uncompressed ∅ SampleEngine.writable) as [e0|x] eqn:Hcreate.
  2:{ exfalso. vm_compute in Hcreate. discriminate Hcreate. }
  exists e0. split; [reflexivity|].
  exact (proj1 (proj2 (EngineConfiguration.disk_layer_runs_on_defaults
                         SampleConfig.uncompressed ∅ SampleEngine.writable e0
                         SampleCalls.session Hcreate))).
Defined.

End EngineTierRuns.

Module EngineCounting.
Import Engine.

Section WithSort.
Context `{Codec} `{StdSort}.

Lemma flush_total_points e : total_points (flush e).2 = total_points e.
Proof.
  unfold flush. destruct (points_to_flush (memory_layer e)) as [|p pts]; [done|].
  by destruct (Disk.write_batch (disk_layer e) (p :: pts)) as [[[]|x] d'].
Qed.

(** X24.  What [get_stats().total_points] counts.  A [write_point] adds
    one when the buffer accepts the point and nothing when it refuses a
    duplicate; a [write_batch] that is not empty adds the size of the
    batch, the points the buffer drops as duplicates included; both count
    before the flush they may trigger, so also when that flush throws.
    [flush], [optimize] and the reading calls leave the counter alone:
    it is never reset and never counts what is stored. *)
Theorem total_points_counts_offered e c :
  Stats.total_points (get_stats (perform e c)) =
  match c with
  | call_write_point p =>
    if (Memory.insert (memory_layer e) p).1
    then size_t_wrap (total_points e + 1) else total_points e
  | call_write_batch pts =>
    match pts with
    | [] => total_points e
    | _ => size_t_wrap (total_points e + Z.of_nat (length pts))
    end
  | _ => total_points e
  end.
Proof.
  unfold get_stats, get_total_points. cbn [Stats.total_points].
  destruct c as [p|pts| | | | | |]; simpl; try done.
  - unfold write_point. destruct (Memory.insert (memory_layer e) p) as [[] m']; [|done].
    cbn zeta. cbn [fst]. destruct (_ <=? _); [|done]. by rewrite flush_total_points.
  - unfold write_batch. destruct pts as [|p pts]; [done|].
    destruct (Memory.insert_batch (memory_layer e) (p :: pts)) as [[] m'] eqn:Hins.
    + cbn zeta. destruct (_ <=? _); [|done]. by rewrite flush_total_points.
    + exfalso. unfold Memory.insert_batch in Hins. discriminate Hins.
  - apply flush_total_points.
  - unfold optimize. pose proof (flush_total_points e) as Hflush.
    destruct (flush e) as [[b|x] e1]; simpl in Hflush; [|done].
    by rewrite DiskLockFacts.optimize_index_not_owned.
Qed.

End WithSort.
End EngineCounting.
